(** * polyverse: the causal propagation engine, embedded in Rocq

    A shallow embedding of
      - [src/lib/polymarket/price-history.ts]  (series aligner, correlation,
        impact estimator; and the cache of the market client),
      - [src/lib/polymarket/correlations.ts]  (lagged correlation analysis and
        the correlation store),
      - [src/lib/simulation/causal-engine-simple.ts]  (layered graph builder),
      - [src/lib/simulation/propagation.ts]  (propagator, confidence
        intervals, scenario variants, loop detector),
      - [src/app/api/simulation/run/route.ts]  (the caller-facing entry point).

    Conventions of the embedding.
      - A JavaScript [number] that carries a price, a probability or a
        strength is a real number ([R]); the exceptional values of binary64
        (NaN, the infinities, rounding) are outside the model.  Timestamps
        and layers are integers ([Z], [nat]).
      - A JavaScript [Set<string>] is a [gset string]; arrays are lists.
      - The external collaborators (the candidate generator, the price
        history provider, the market database, [JSON.parse]) are variables of
        the sections that use them; the builder's calls receive its clock,
        which advances with every call, so that two calls with equal
        arguments may answer differently. *)

From Stdlib Require Import Reals Lra ZArith List Sorted Permutation DecimalString.
From stdpp Require Import base gmap sets list strings.

(** ** JavaScript array helpers *)

Module Js.

(** [Array.prototype.sort(cmp)] is stable; [leb a b] stands for
    [cmp(a, b) <= 0].  [x] is placed before the first element it does not
    exceed, so equal elements keep their relative order. *)
Fixpoint insert_sorted {A : Type} (leb : A -> A -> bool) (x : A) (l : list A) : list A :=
  match l with
  | [] => [x]
  | y :: l' => if leb x y then x :: y :: l' else y :: insert_sorted leb x l'
  end.

Fixpoint sort {A : Type} (leb : A -> A -> bool) (l : list A) : list A :=
  match l with
  | [] => []
  | x :: l' => insert_sorted leb x (sort leb l')
  end.

(** [Array.prototype.indexOf]: the first index holding [x], or -1. *)
Fixpoint indexOf (l : list string) (x : string) : Z :=
  match l with
  | [] => (-1)%Z
  | y :: l' =>
      if String.eqb y x then 0%Z
      else let i := indexOf l' x in if (i <? 0)%Z then (-1)%Z else (i + 1)%Z
  end.

(** [arr[i]] for a possibly negative or out-of-range index: [undefined] is
    [None]. *)
Definition at_index {A : Type} (l : list A) (i : Z) : option A :=
  if (i <? 0)%Z then None else l !! Z.to_nat i.

(** [Array.prototype.find]. *)
Fixpoint find {A : Type} (f : A -> bool) (l : list A) : option A :=
  match l with
  | [] => None
  | x :: l' => if f x then Some x else find f l'
  end.

(** [Array.prototype.includes] on strings. *)
Definition includes (l : list string) (x : string) : bool :=
  existsb (fun y => String.eqb y x) l.

(** Comparisons of numbers. *)
Definition Rleb (x y : R) : bool := if Rle_dec x y then true else false.
Definition Rltb (x y : R) : bool := if Rlt_dec x y then true else false.
Definition Reqb (x y : R) : bool := if Req_dec_T x y then true else false.

(** [x || d] on an optional number: [undefined] and [0] are falsy. *)
Definition or_default (x : option R) (d : R) : R :=
  match x with
  | None => d
  | Some v => if Reqb v 0 then d else v
  end.

(** [Math.max(0.01, Math.min(0.99, x))]. *)
Definition clamp (x : R) : R := Rmax 0.01 (Rmin 0.99 x).

(** [arr.reduce((sum, p) => sum + p, 0)]. *)
Definition sum (l : list R) : R := fold_left Rplus l 0%R.

End Js.

(** ** Price history: [src/lib/polymarket/price-history.ts] *)

Module PriceHistory.
Import Js.

Record PricePoint : Type := mkPricePoint {
  t : Z;   (* Unix timestamp *)
  p : R;   (* Price (0-1) *)
}.

Definition TOLERANCE : Z := 3600.

Record Aligned : Type := mkAligned {
  prices1 : list R;
  prices2 : list R;
  timestamps : list Z;
}.

(** The [while (i1 < sorted1.length && i2 < sorted2.length)] loop of
    [alignPriceSeries]; the two arguments are the suffixes of [sorted1] and
    [sorted2] that start at [i1] and [i2].  Each matched pair is one
    [push] on each of the three output arrays. *)
Fixpoint align_loop (sorted1 sorted2 : list PricePoint) : list (R * R * Z) :=
  let fix advance2 (sorted2 : list PricePoint) : list (R * R * Z) :=
    match sorted1, sorted2 with
    | a :: rest1, b :: rest2 =>
        let t1 := t a in
        let t2 := t b in
        let diff := Z.abs (t1 - t2) in
        if (diff <=? TOLERANCE)%Z then
          (p a, p b, Z.min t1 t2) :: align_loop rest1 rest2
        else if (t1 <? t2)%Z then align_loop rest1 sorted2
        else advance2 rest2
    | _, _ => []
    end
  in advance2 sorted2.

Definition by_timestamp (a b : PricePoint) : bool := (t a - t b <=? 0)%Z.

Definition alignPriceSeries (history1 history2 : list PricePoint) : Aligned :=
  let sorted1 := sort by_timestamp history1 in
  let sorted2 := sort by_timestamp history2 in
  let matched := align_loop sorted1 sorted2 in
  {| prices1 := map (fun m => fst (fst m)) matched;
     prices2 := map (fun m => snd (fst m)) matched;
     timestamps := map snd matched |}.

(** The single [for] loop of [calculateCorrelation], which accumulates
    [covariance], [variance1] and [variance2] over the index [i]. *)
Definition accumulate (mean1 mean2 : R) (acc : R * R * R) (xy : R * R) : R * R * R :=
  let '(covariance, variance1, variance2) := acc in
  let diff1 := (fst xy - mean1)%R in
  let diff2 := (snd xy - mean2)%R in
  ((covariance + diff1 * diff2)%R,
   (variance1 + diff1 * diff1)%R,
   (variance2 + diff2 * diff2)%R).

Definition calculateCorrelation (prices1 prices2 : list R) : R :=
  if negb (length prices1 =? length prices2)%nat || (length prices1 <? 10)%nat
  then 0%R
  else
    let n := INR (length prices1) in
    let mean1 := (sum prices1 / n)%R in
    let mean2 := (sum prices2 / n)%R in
    let '(covariance, variance1, variance2) :=
      fold_left (accumulate mean1 mean2) (combine prices1 prices2) (0%R, 0%R, 0%R) in
    let stdDev1 := sqrt (variance1 / n) in
    let stdDev2 := sqrt (variance2 / n) in
    if Reqb stdDev1 0 || Reqb stdDev2 0 then 0%R
    else (covariance / (n * stdDev1 * stdDev2))%R.

(** The loop of [calculateImpactMagnitude] over [i = 1 .. pricesA.length-1];
    the arguments are [pricesA[i-1]], [pricesB[i-1]] and the remaining
    suffixes.  A missing [pricesB[i]] is not modelled: the only caller passes
    two arrays of equal length.  Nor is a division by a price of 0, which
    gives an infinity or NaN in the source: the function is meant for series
    without a price of 0 and for a positive threshold, so that [changeA] is
    not 0 where it divides. *)
Fixpoint impact_loop (threshold prevA prevB : R) (restA restB : list R) : list R :=
  match restA, restB with
  | a :: restA', b :: restB' =>
      let changeA := ((a - prevA) / prevA)%R in
      let tail := impact_loop threshold a b restA' restB' in
      if Rleb threshold (Rabs changeA)
      then (((b - prevB) / prevB) / changeA)%R :: tail
      else tail
  | _, _ => []
  end.

Definition calculateImpactMagnitude (pricesA pricesB : list R) (threshold : R) : R :=
  match pricesA, pricesB with
  | a0 :: restA, b0 :: restB =>
      let impacts := impact_loop threshold a0 b0 restA restB in
      match impacts with
      | [] => 0%R
      | _ =>
          let sorted := sort (fun x y => Rleb (x - y) 0) impacts in
          nth (Nat.div (length impacts) 2) sorted 0%R
      end
  | _, _ => 0%R
  end.

(** The population variance of a sequence, as the correlation's
    [variance1 / n] computes it. *)
Definition variance (xs : list R) : R :=
  let n := INR (length xs) in
  let mean := (sum xs / n)%R in
  (sum (map (fun x => (x - mean) * (x - mean))%R xs) / n)%R.

End PriceHistory.

(** ** Data model: [src/types/polymarket.ts], [src/types/simulation.ts] *)

Module Types.

(** The fields of [PolymarketMarket] that the engine reads. *)
Record PolymarketMarket : Type := mkMarket {
  id : string;
  question : string;
  outcomes : list string;
  outcomePrices : list R;      (* Probability for each outcome (0-1) *)
  volume : R;
  clobTokenIds : option string; (* JSON string array of token IDs *)
}.

Inductive ConfidenceLevel : Type := HIGH | MEDIUM | LOW.

Inductive ImpactLevel : Type := high | medium | low.

Inductive CorrelationSign : Type := positive | negative.

Record CorrelationData : Type := mkCorrelationData {
  cd_marketId : string;
  cd_correlation : R;
  cd_confidence : R;
  cd_lagDays : Z;
  cd_sampleSize : nat;
  cd_direction : CorrelationSign;
}.

(** [explanation] is left out: it is display text built with [toFixed]. *)
Record CausalLink : Type := mkCausalLink {
  sourceMarketId : string;
  targetMarketId : string;
  strength : R;
  direction : string;          (* "increase" | "decrease" *)
  timelag : string;
  confidenceLevel : ConfidenceLevel;
  historicalCorrelation : option CorrelationData;
  llmGenerated : bool;
}.

Record SimulationNode : Type := mkNode {
  market : PolymarketMarket;
  currentProbability : R;
  predictedProbability : R;
  probabilityChange : R;
  percentChange : R;
  layer : nat;
  impactLevel : ImpactLevel;
  incomingLinks : list CausalLink;
  outgoingLinks : list CausalLink;
}.

Record Metadata : Type := mkMetadata {
  totalMarketsAffected : nat;
  avgProbabilityShift : R;
  maxProbabilityShift : R;
  confidenceScore : R;
  timeHorizon : string;
}.

Record SimulationScenario : Type := mkScenario {
  name : string;
  description : string;
  triggerMarket : PolymarketMarket;
  triggerOutcome : string;
  triggerProbability : R;
  nodes : list SimulationNode;
  edges : list CausalLink;
  metadata : Metadata;
}.

Record PropagationParams : Type := mkParams {
  conservativeMode : bool;
  maxDepth : Z;
  minCorrelation : R;
  includeLLMOnly : bool;
}.

(** What the candidate generator returns for one affected market. *)
Record Candidate : Type := mkCandidate {
  c_marketId : string;
  c_reasoning : string;
  c_timelag : string;
  c_strength : R;
  c_impactDirection : string;
}.

(** The values [JSON.parse] can produce. *)
#[warnings="-register-all"] Inductive json : Type :=
  | JNull
  | JBool (b : bool)
  | JNum (x : R)
  | JStr (s : string)
  | JArr (items : list json)
  | JObj (fields : list (string * json)).

(** JavaScript truthiness of a parsed value. *)
Definition truthy (j : json) : bool :=
  match j with
  | JNull => false
  | JBool b => b
  | JNum x => negb (Js.Reqb x 0)
  | JStr s => negb (String.eqb s "")
  | JArr _ | JObj _ => true
  end.

(** [Math.abs(percentChange)] discretised: high > 30, medium > 10, else low. *)
Definition impactLevelOf (percentChange : R) : ImpactLevel :=
  let absChange := Rabs percentChange in
  if Js.Rltb 30 absChange then high
  else if Js.Rltb 10 absChange then medium
  else low.

End Types.

(** ** The layered graph builder: [src/lib/simulation/causal-engine-simple.ts] *)

Module Engine.
Import Js PriceHistory Types.

(** The local interface [ValidatedResult] of [createSimulationScenario]. *)
Record ValidatedResult : Type := mkValidated {
  v_marketId : string;
  v_reasoning : string;
  v_timelag : string;
  v_strength : R;
  v_impactDirection : string;
  v_correlation : option R;
  v_impactMagnitude : option R;
  hasHistoricalData : bool;
}.

Definition MAX_DEPTH : nat := 3.

(** Dynamic limits: Layer 1 = 3, Layer 2 = 2, Layer 3 = 1. *)
Definition getMaxNodesForLayer (layer : nat) : nat :=
  if (layer =? 1)%nat then 3%nat
  else if (layer =? 2)%nat then 2%nat
  else if (layer =? 3)%nat then 1%nat
  else 0%nat.

(** [{ ...result, strength: result.strength * 0.5, hasHistoricalData: false }] *)
Definition downgraded (result : Candidate) : ValidatedResult :=
  {| v_marketId := c_marketId result;
     v_reasoning := c_reasoning result;
     v_timelag := c_timelag result;
     v_strength := (c_strength result * 0.5)%R;
     v_impactDirection := c_impactDirection result;
     v_correlation := None;
     v_impactMagnitude := None;
     hasHistoricalData := false |}.

(** The accept/reject decision taken once the correlation is known
    (lines 196-215): the list holds what is pushed on [validatedResults]. *)
Definition gate (result : Candidate) (correlation impactMagnitude : R)
  : list ValidatedResult :=
  let hasStrongCorrelation := Rleb 0.20 (Rabs correlation) in
  let hasHighConfidence := Rleb 0.5 (c_strength result) in
  if hasStrongCorrelation && hasHighConfidence then
    [ {| v_marketId := c_marketId result;
         v_reasoning := c_reasoning result;
         v_timelag := c_timelag result;
         v_strength := ((Rabs correlation + c_strength result) / 2)%R;
         v_impactDirection := c_impactDirection result;
         v_correlation := Some correlation;
         v_impactMagnitude := Some impactMagnitude;
         hasHistoricalData := true |} ]
  else [].

(** [result.correlation] when [result.hasHistoricalData && result.correlation]
    is truthy. *)
Definition backedCorrelation (result : ValidatedResult) : option R :=
  if hasHistoricalData result then
    match v_correlation result with
    | Some c => if Reqb c 0 then None else Some c
    | None => None
    end
  else None.

(** The sort key [r.correlation || r.strength]. *)
Definition sortKey (r : ValidatedResult) : R :=
  match v_correlation r with
  | Some c => if Reqb c 0 then v_strength r else c
  | None => v_strength r
  end.

(** [cmp(a, b) = key(b) - key(a)], descending. *)
Definition byKeyDescending (a b : ValidatedResult) : bool :=
  Rleb (sortKey b - sortKey a) 0.

(** [triggerMarket.outcomePrices[triggerMarket.outcomes.indexOf(triggerOutcome)] || 0.5] *)
Definition triggerPrice (triggerMarket : PolymarketMarket) (triggerOutcome : string) : R :=
  or_default (at_index (outcomePrices triggerMarket)
                       (indexOf (outcomes triggerMarket) triggerOutcome)) 0.5.

(** [result.impactDirection === 'increase' ? 1 : -1] *)
Definition claimedDirection (impactDirection : string) : R :=
  if String.eqb impactDirection "increase" then 1%R else (-1)%R.

(** Lines 239-269: [changeMagnitude], [confidenceLevel] and [direction]. *)
Definition estimateImpact (triggerMarket : PolymarketMarket) (triggerOutcome : string)
    (result : ValidatedResult) : R * ConfidenceLevel * R :=
  match backedCorrelation result with
  | Some correlation =>
      let triggerShock := (1.0 - triggerPrice triggerMarket triggerOutcome)%R in
      let changeMagnitude := (Rabs correlation * triggerShock * 0.5)%R in
      let confidenceLevel :=
        if Rltb 0.6 (Rabs correlation) then HIGH
        else if Rltb 0.3 (Rabs correlation) then MEDIUM
        else LOW in
      let direction := claimedDirection (v_impactDirection result) in
      (changeMagnitude, confidenceLevel, direction)
  | None =>
      let changeMagnitude := (v_strength result * 0.10)%R in
      (changeMagnitude, LOW, claimedDirection (v_impactDirection result))
  end.

(** Lines 271-294: the node of an admitted market, before its link lists are
    filled. *)
Definition makeNode (triggerMarket : PolymarketMarket) (triggerOutcome : string)
    (market : PolymarketMarket) (layer : nat) (result : ValidatedResult)
  : SimulationNode :=
  let currentProb := or_default (at_index (outcomePrices market) 0) 0.5 in
  let '(changeMagnitude, _, direction) :=
    estimateImpact triggerMarket triggerOutcome result in
  let predictedProb := clamp (currentProb + direction * changeMagnitude) in
  let probabilityChange := (predictedProb - currentProb)%R in
  let percentChange := (probabilityChange / currentProb * 100)%R in
  {| market := market;
     currentProbability := currentProb;
     predictedProbability := predictedProb;
     probabilityChange := probabilityChange;
     percentChange := percentChange;
     layer := layer;
     impactLevel := impactLevelOf percentChange;
     incomingLinks := [];
     outgoingLinks := [] |}.

(** Lines 297-322: the edge of an admitted market. *)
Definition makeEdge (triggerMarket : PolymarketMarket) (triggerOutcome : string)
    (sampleSize : nat) (currentMarket market : PolymarketMarket)
    (result : ValidatedResult) : CausalLink :=
  let '(_, confidenceLevel, _) := estimateImpact triggerMarket triggerOutcome result in
  let edgeDirection :=
    match backedCorrelation result with
    | Some c => if Rltb 0 c then "increase" else "decrease"
    | None => v_impactDirection result
    end in
  {| sourceMarketId := id currentMarket;
     targetMarketId := id market;
     strength := v_strength result;
     direction := edgeDirection;
     timelag := v_timelag result;
     confidenceLevel := confidenceLevel;
     historicalCorrelation :=
       match backedCorrelation result with
       | Some c =>
           Some {| cd_marketId := id market;
                   cd_correlation := c;
                   cd_confidence := Rabs c;
                   cd_lagDays := 0;
                   cd_sampleSize := sampleSize;
                   cd_direction := if Rltb 0 c then positive else negative |}
       | None => None
       end;
     llmGenerated := negb (hasHistoricalData result) |}.

(** [node.incomingLinks.push(edge)] *)
Definition pushIncoming (edge : CausalLink) (n : SimulationNode) : SimulationNode :=
  {| market := market n;
     currentProbability := currentProbability n;
     predictedProbability := predictedProbability n;
     probabilityChange := probabilityChange n;
     percentChange := percentChange n;
     layer := layer n;
     impactLevel := impactLevel n;
     incomingLinks := incomingLinks n ++ [edge];
     outgoingLinks := outgoingLinks n |}.

(** [sourceNode.outgoingLinks.push(edge)] *)
Definition pushOutgoing (edge : CausalLink) (n : SimulationNode) : SimulationNode :=
  {| market := market n;
     currentProbability := currentProbability n;
     predictedProbability := predictedProbability n;
     probabilityChange := probabilityChange n;
     percentChange := percentChange n;
     layer := layer n;
     impactLevel := impactLevel n;
     incomingLinks := incomingLinks n;
     outgoingLinks := outgoingLinks n ++ [edge] |}.

(** [const sourceNode = nodes.find(n => n.market.id === sourceId);
     if (sourceNode) sourceNode.outgoingLinks.push(edge)]: the first node with
    that id is updated in place. *)
Fixpoint linkSource (sourceId : string) (edge : CausalLink)
    (nodes : list SimulationNode) : list SimulationNode :=
  match nodes with
  | [] => []
  | n :: rest =>
      if String.eqb (id (market n)) sourceId
      then pushOutgoing edge n :: rest
      else n :: linkSource sourceId edge rest
  end.

(** The mutable variables of [createSimulationScenario], and a clock that
    advances with every external call. *)
Record BuilderState : Type := mkState {
  st_nodes : list SimulationNode;
  st_edges : list CausalLink;
  processedMarkets : gset string;
  marketsToProcess : list (PolymarketMarket * nat);
  tick : nat;
}.

Section Builder.

(** [JSON.parse]: [None] when it throws. *)
Variable JSON_parse : string -> option json.

(** [getPriceHistory(tokenId, interval, fidelity)] of price-history.ts is a
    network request that answers [[]] on any failure. *)
Variable getPriceHistory : nat -> json -> string -> Z -> list PricePoint.

(** [findInterestingCausalMarkets(market, outcome, pool)]: the external
    candidate generator; it answers [[]] on any failure. *)
Variable findInterestingCausalMarkets :
  nat -> PolymarketMarket -> string -> list PolymarketMarket -> list Candidate.

(** [extractTokenId]: [None] is [null]. *)
Definition extractTokenId (market : PolymarketMarket) : option json :=
  match clobTokenIds market with
  | None => None
  | Some rawTokenIds =>
      if String.eqb rawTokenIds "" || String.eqb rawTokenIds "null"
         || String.eqb rawTokenIds "[]"
      then None
      else
        match JSON_parse rawTokenIds with
        | Some (JArr (first :: _)) => Some first
        | _ => None
        end
  end.

(** The body of [for (const result of causalResults)] (lines 145-216); the
    accumulator is the clock and [validatedResults]. *)
Definition validateOne (triggerPriceHistory : list PricePoint)
    (availableMarkets : list PolymarketMarket) (processed : gset string)
    (acc : nat * list ValidatedResult) (result : Candidate)
  : nat * list ValidatedResult :=
  let '(now, validatedResults) := acc in
  match find (fun m => String.eqb (id m) (c_marketId result)) availableMarkets with
  | None => acc
  | Some market =>
      if bool_decide (id market ∈ processed) then acc
      else
        match extractTokenId market with
        | Some marketTokenId =>
            if negb (truthy marketTokenId)
               || (length triggerPriceHistory <? 10)%nat
            then (now, validatedResults ++ [downgraded result])
            else
              let marketPriceHistory := getPriceHistory now marketTokenId "1w" 60 in
              let now := S now in
              if (length marketPriceHistory <? 10)%nat
              then (now, validatedResults ++ [downgraded result])
              else
                let aligned := alignPriceSeries triggerPriceHistory marketPriceHistory in
                if (length (prices1 aligned) <? 10)%nat
                then (now, validatedResults ++ [downgraded result])
                else
                  let correlation :=
                    calculateCorrelation (prices1 aligned) (prices2 aligned) in
                  let impactMagnitude :=
                    calculateImpactMagnitude (prices1 aligned) (prices2 aligned) 0.05 in
                  (now, validatedResults ++ gate result correlation impactMagnitude)
        | None => (now, validatedResults ++ [downgraded result])
        end
  end.

(** The body of [for (const result of sortedResults)] (lines 229-336). *)
Definition admitOne (triggerMarket : PolymarketMarket) (triggerOutcome : string)
    (availableMarkets : list PolymarketMarket) (params : PropagationParams)
    (sampleSize : nat) (currentMarket : PolymarketMarket) (currentLayer : nat)
    (st : BuilderState) (result : ValidatedResult) : BuilderState :=
  match find (fun m => String.eqb (id m) (v_marketId result)) availableMarkets with
  | None => st
  | Some market =>
      if bool_decide (id market ∈ processedMarkets st) then st
      else
        let layer := (currentLayer + 1)%nat in
        let edge := makeEdge triggerMarket triggerOutcome sampleSize
                             currentMarket market result in
        let node := pushIncoming edge
                      (makeNode triggerMarket triggerOutcome market layer result) in
        {| st_nodes := linkSource (id currentMarket) edge (st_nodes st ++ [node]);
           st_edges := st_edges st ++ [edge];
           processedMarkets := {[ id market ]} ∪ processedMarkets st;
           marketsToProcess :=
             if Rltb 0.5 (v_strength result)
                && (Z.of_nat (currentLayer + 1) <? maxDepth params)%Z
             then marketsToProcess st ++ [(market, (currentLayer + 1)%nat)]
             else marketsToProcess st;
           tick := tick st |}
  end.

(** One iteration of the [while] loop (lines 115-336), entered with a
    non-empty queue: [marketsToProcess.shift()], candidate generation,
    validation, sort, per-layer cap, admission. *)
Definition expand (triggerMarket : PolymarketMarket) (triggerOutcome : string)
    (availableMarkets : list PolymarketMarket) (params : PropagationParams)
    (triggerPriceHistory : list PricePoint) (st : BuilderState) : BuilderState :=
  match marketsToProcess st with
  | [] => st
  | (currentMarket, currentLayer) :: rest =>
      let pool :=
        filter (fun m => id m ∉ processedMarkets st) availableMarkets in
      let causalResults :=
        findInterestingCausalMarkets (tick st) currentMarket triggerOutcome pool in
      let '(now, validatedResults) :=
        fold_left (validateOne triggerPriceHistory availableMarkets (processedMarkets st))
                  causalResults (S (tick st), []) in
      let maxForThisLayer := getMaxNodesForLayer (currentLayer + 1) in
      let sortedResults :=
        take maxForThisLayer
             (sort byKeyDescending (filter (fun r => hasHistoricalData r) validatedResults)) in
      fold_left (admitOne triggerMarket triggerOutcome availableMarkets params
                          (length triggerPriceHistory) currentMarket currentLayer)
                sortedResults
                {| st_nodes := st_nodes st;
                   st_edges := st_edges st;
                   processedMarkets := processedMarkets st;
                   marketsToProcess := rest;
                   tick := now |}
  end.

(** [marketsToProcess.length > 0 && marketsToProcess[0].layer < MAX_DEPTH] *)
Definition continues (st : BuilderState) : bool :=
  match marketsToProcess st with
  | [] => false
  | (_, layer) :: _ => (layer <? MAX_DEPTH)%nat
  end.

(** The [while] loop; [None] when the fuel runs out before the loop
    condition fails. *)
Fixpoint run (fuel : nat) (triggerMarket : PolymarketMarket) (triggerOutcome : string)
    (availableMarkets : list PolymarketMarket) (params : PropagationParams)
    (triggerPriceHistory : list PricePoint) (st : BuilderState) : option BuilderState :=
  if continues st then
    match fuel with
    | O => None
    | S fuel' =>
        run fuel' triggerMarket triggerOutcome availableMarkets params
            triggerPriceHistory
            (expand triggerMarket triggerOutcome availableMarkets params
                    triggerPriceHistory st)
    end
  else Some st.

(** Lines 64-99: the trigger node, the processed set, the trigger history
    and the seeded queue. *)
Definition triggerNode (triggerMarket : PolymarketMarket) (triggerOutcome : string)
  : SimulationNode :=
  {| market := triggerMarket;
     currentProbability := triggerPrice triggerMarket triggerOutcome;
     predictedProbability := 1.0;
     probabilityChange := (1.0 - triggerPrice triggerMarket triggerOutcome)%R;
     percentChange := 100;
     layer := 0;
     impactLevel := high;
     incomingLinks := [];
     outgoingLinks := [] |}.

Definition triggerHistory (triggerMarket : PolymarketMarket) : list PricePoint :=
  match extractTokenId triggerMarket with
  | Some triggerTokenId =>
      if truthy triggerTokenId then getPriceHistory 0 triggerTokenId "1w" 60 else []
  | None => []
  end.

Definition initialState (triggerMarket : PolymarketMarket) (triggerOutcome : string)
  : BuilderState :=
  {| st_nodes := [triggerNode triggerMarket triggerOutcome];
     st_edges := [];
     processedMarkets := {[ id triggerMarket ]};
     marketsToProcess := [(triggerMarket, 0%nat)];
     tick := 1 |}.

(** Lines 339-361: the summary metadata. *)
Definition confidencePoints (e : CausalLink) : R :=
  match confidenceLevel e with
  | HIGH => 90
  | MEDIUM => 70
  | LOW => 50
  end.

Definition computeMetadata (nodes : list SimulationNode) (edges : list CausalLink)
  : Metadata :=
  let totalMarketsAffected := (length nodes - 1)%nat in
  let shifts := map (fun n => Rabs (probabilityChange n)) (drop 1 nodes) in
  let confidenceScores := map confidencePoints edges in
  let maxLayer := fold_right Nat.max 0%nat (map layer nodes) in
  {| totalMarketsAffected := totalMarketsAffected;
     avgProbabilityShift :=
       (sum shifts / INR (if (totalMarketsAffected =? 0)%nat then 1 else totalMarketsAffected))%R;
     maxProbabilityShift := fold_right Rmax 0%R shifts;
     confidenceScore :=
       (sum confidenceScores
        / INR (if (length confidenceScores =? 0)%nat then 1 else length confidenceScores))%R;
     timeHorizon :=
       if (3 <=? maxLayer)%nat then "weeks"
       else if (2 <=? maxLayer)%nat then "days"
       else if (1 <=? maxLayer)%nat then "hours"
       else "immediate" |}.

(** The loop runs at most 1 + 3 + 3 * 2 times: the trigger, its at most three
    children and their at most two children each. *)
Definition LOOP_BOUND : nat := 10.

(** [createSimulationScenario]; [None] only if the loop were to outlast
    [LOOP_BOUND] iterations. *)
Definition createSimulationScenario (name description : string)
    (triggerMarket : PolymarketMarket) (triggerOutcome : string)
    (availableMarkets : list PolymarketMarket) (params : PropagationParams)
  : option SimulationScenario :=
  let triggerPriceHistory := triggerHistory triggerMarket in
  match run LOOP_BOUND triggerMarket triggerOutcome availableMarkets params
            triggerPriceHistory (initialState triggerMarket triggerOutcome) with
  | None => None
  | Some st =>
      Some {| name := name;
              description := description;
              triggerMarket := triggerMarket;
              triggerOutcome := triggerOutcome;
              triggerProbability := 1.0;
              nodes := st_nodes st;
              edges := st_edges st;
              metadata := computeMetadata (st_nodes st) (st_edges st) |}
  end.

End Builder.

End Engine.

(** ** Propagation passes: [src/lib/simulation/propagation.ts] *)

Module Propagation.
Import Js Types.

(** The body of [for (const link of incomingLinks)] (lines 32-49); the
    accumulator is [(totalInfluence, totalWeight)] and [sortedNodes] is the
    array as mutated so far. *)
Definition addInfluence (sortedNodes : list SimulationNode) (acc : R * R)
    (link : CausalLink) : R * R :=
  let '(totalInfluence, totalWeight) := acc in
  match find (fun n => String.eqb (id (market n)) (sourceMarketId link)) sortedNodes with
  | None => acc
  | Some sourceNode =>
      let sourceShock :=
        (predictedProbability sourceNode - currentProbability sourceNode)%R in
      let direction := if String.eqb (direction link) "increase" then 1%R else (-1)%R in
      let influence := (sourceShock * strength link * direction)%R in
      let confidenceWeight :=
        match confidenceLevel link with
        | HIGH => 1.0%R
        | MEDIUM => 0.7%R
        | LOW => 0.4%R
        end in
      ((totalInfluence + influence * confidenceWeight)%R,
       (totalWeight + confidenceWeight)%R)
  end.

(** The body of [for (const node of layerNodes)] (lines 22-70): the value of
    [node] after the iteration.  [percentChange] divides by the current
    probability, which gives an infinity or NaN in the source when that is
    0; the fields [percentChange] and [impactLevel] are those of the source
    for a node whose current probability is not 0. *)
Definition updateNode (edges : list CausalLink) (sortedNodes : list SimulationNode)
    (node : SimulationNode) : SimulationNode :=
  let incoming :=
    filter (fun e => String.eqb (targetMarketId e) (id (market node)) = true) edges in
  match incoming with
  | [] => node
  | _ =>
      let '(totalInfluence, totalWeight) :=
        fold_left (addInfluence sortedNodes) incoming (0%R, 0%R) in
      if Rltb 0 totalWeight then
        let avgInfluence := (totalInfluence / totalWeight)%R in
        let newProbability := clamp (currentProbability node + avgInfluence) in
        let probabilityChange := (newProbability - currentProbability node)%R in
        let percentChange := (probabilityChange / currentProbability node * 100)%R in
        {| market := market node;
           currentProbability := currentProbability node;
           predictedProbability := newProbability;
           probabilityChange := probabilityChange;
           percentChange := percentChange;
           layer := layer node;
           impactLevel := impactLevelOf percentChange;
           incomingLinks := incomingLinks node;
           outgoingLinks := outgoingLinks node |}
      else node
  end.

(** The node objects are mutated in place while the array keeps its order:
    position [i] of [sortedNodes] is visited when its layer is the current
    one.  The array is taken to hold pairwise distinct objects. *)
Definition visit (edges : list CausalLink) (currentLayer : nat)
    (sortedNodes : list SimulationNode) (i : nat) : list SimulationNode :=
  match sortedNodes !! i with
  | Some node =>
      if (layer node =? currentLayer)%nat
      then <[ i := updateNode edges sortedNodes node ]> sortedNodes
      else sortedNodes
  | None => sortedNodes
  end.

Definition processLayer (edges : list CausalLink) (sortedNodes : list SimulationNode)
    (currentLayer : nat) : list SimulationNode :=
  fold_left (visit edges currentLayer) (seq 0 (length sortedNodes)) sortedNodes.

Definition byLayer (a b : SimulationNode) : bool := (layer a <=? layer b)%nat.

Definition propagateProbabilities (nodes : list SimulationNode)
    (edges : list CausalLink) : list SimulationNode :=
  let sortedNodes := sort byLayer nodes in
  let maxLayer := fold_right Nat.max 0%nat (map layer sortedNodes) in
  fold_left (processLayer edges) (seq 1 maxLayer) sortedNodes.

(** The three mutable variables the closure [dfs] shares. *)
Record Search : Type := mkSearch {
  loops : list (list string);
  visited : gset string;
  recursionStack : gset string;
}.

(** The body of [for (const edge of outgoing)] in [dfs] (lines 142-154);
    [recur] is the recursive call [dfs(targetId, [...path])]. *)
Definition follow (recur : string -> list string -> Search -> option Search)
    (path : list string) (acc : option Search) (edge : CausalLink) : option Search :=
  match acc with
  | None => None
  | Some s =>
      let targetId := targetMarketId edge in
      if bool_decide (targetId ∈ visited s) then
        if bool_decide (targetId ∈ recursionStack s) then
          let loopStart := indexOf path targetId in
          if (loopStart =? -1)%Z then Some s
          else Some {| loops := loops s ++ [drop (Z.to_nat loopStart) path];
                       visited := visited s;
                       recursionStack := recursionStack s |}
        else Some s
      else recur targetId path s
  end.

(** [dfs(nodeId, path)]; [fuel] bounds the recursion depth and [None] means
    that it was exhausted. *)
Fixpoint dfs (fuel : nat) (edges : list CausalLink) (nodeId : string)
    (path : list string) (s : Search) : option Search :=
  match fuel with
  | O => None
  | S fuel' =>
      let path := path ++ [nodeId] in
      let entered :=
        {| loops := loops s;
           visited := {[ nodeId ]} ∪ visited s;
           recursionStack := {[ nodeId ]} ∪ recursionStack s |} in
      let outgoing :=
        filter (fun e => String.eqb (sourceMarketId e) nodeId = true) edges in
      match fold_left (follow (dfs fuel' edges) path) outgoing (Some entered) with
      | None => None
      | Some s =>
          Some {| loops := loops s;
                  visited := visited s;
                  recursionStack := recursionStack s ∖ {[ nodeId ]} |}
      end
  end.

(** The body of [for (const node of nodes)] in [detectFeedbackLoops]. *)
Definition startFrom (edges : list CausalLink) (acc : option Search)
    (node : SimulationNode) : option Search :=
  match acc with
  | None => None
  | Some s =>
      if bool_decide (id (market node) ∈ visited s) then Some s
      else dfs (S (length edges)) edges (id (market node)) [] s
  end.

(** [detectFeedbackLoops]: a search is started from every node not yet
    visited.  A chain of nested calls follows edges to pairwise distinct
    unvisited targets, so its depth is at most [edges.length + 1]. *)
Definition detectFeedbackLoops (nodes : list SimulationNode) (edges : list CausalLink)
  : option (list (list string)) :=
  option_map loops
    (fold_left (startFrom edges) nodes
       (Some {| loops := []; visited := ∅; recursionStack := ∅ |})).

(** One element of the array [calculateConfidenceIntervals] returns. *)
Record Interval : Type := mkInterval {
  node : SimulationNode;
  lower : R;
  upper : R;
}.

(** The [reduce] callback of [calculateConfidenceIntervals] (lines 104-108). *)
Definition addConfidence (sum : R) (link : CausalLink) : R :=
  let conf :=
    match confidenceLevel link with
    | HIGH => 0.9%R
    | MEDIUM => 0.7%R
    | LOW => 0.5%R
    end in
  (sum + conf)%R.

(** The [map] callback of [calculateConfidenceIntervals] (lines 83-120);
    [incoming.length || 1] is 1 for an empty array. *)
Definition intervalOf (edges : list CausalLink) (n : SimulationNode) : Interval :=
  if (layer n =? 0)%nat then
    {| node := n; lower := predictedProbability n; upper := predictedProbability n |}
  else
    let incoming :=
      filter (fun e => String.eqb (targetMarketId e) (id (market n)) = true) edges in
    let layerUncertainty := (INR (layer n) * 0.05)%R in
    let avgConfidence :=
      (fold_left addConfidence incoming 0
       / INR (if (length incoming =? 0)%nat then 1 else length incoming))%R in
    let confidenceUncertainty := ((1 - avgConfidence) * 0.15)%R in
    let totalUncertainty := (layerUncertainty + confidenceUncertainty)%R in
    {| node := n;
       lower := Rmax 0.01 (predictedProbability n - totalUncertainty);
       upper := Rmin 0.99 (predictedProbability n + totalUncertainty) |}.

Definition calculateConfidenceIntervals (nodes : list SimulationNode)
    (edges : list CausalLink) : list Interval :=
  map (intervalOf edges) nodes.

Record Variants : Type := mkVariants {
  conservative : list SimulationNode;
  expected : list SimulationNode;
  aggressive : list SimulationNode;
}.

(** The object literal of the two [map] callbacks of
    [generateScenarioVariants] (lines 183-190 and 196-203): a copy of [n]
    with three fields overridden; [bound] is [intervals[i].lower] or
    [intervals[i].upper]. *)
Definition withBound (bound : R) (n : SimulationNode) : SimulationNode :=
  {| market := market n;
     currentProbability := currentProbability n;
     predictedProbability :=
       if (layer n =? 0)%nat then predictedProbability n else bound;
     probabilityChange :=
       if (layer n =? 0)%nat then probabilityChange n
       else (bound - currentProbability n)%R;
     percentChange :=
       if (layer n =? 0)%nat then percentChange n
       else ((bound - currentProbability n) / currentProbability n * 100)%R;
     layer := layer n;
     impactLevel := impactLevel n;
     incomingLinks := incomingLinks n;
     outgoingLinks := outgoingLinks n |}.

(** [intervals] has one entry per node, so [intervals[i]] is defined for
    every index [i] of [nodes] and the two arrays are walked in step. *)
Definition generateScenarioVariants (nodes : list SimulationNode)
    (edges : list CausalLink) : Variants :=
  let intervals := calculateConfidenceIntervals nodes edges in
  {| conservative :=
       map (fun ni => withBound (lower (snd ni)) (fst ni)) (combine nodes intervals);
     expected := nodes;
     aggressive :=
       map (fun ni => withBound (upper (snd ni)) (fst ni)) (combine nodes intervals) |}.

End Propagation.

(** ** The caller-facing entry point: [src/app/api/simulation/run/route.ts] *)

Module Route.
Import Js Types Engine.

Record ParamsInput : Type := mkParamsInput {
  in_conservativeMode : option bool;
  in_maxDepth : option Z;
  in_minCorrelation : option R;
  in_includeLLMOnly : option bool;
}.

(** The destructured request body; an absent field is [None]. *)
Record RequestBody : Type := mkBody {
  marketId : option string;
  outcome : option string;
  scenarioName : option string;
  scenarioDescription : option string;
  params : option ParamsInput;
}.

(** [NextResponse.json({ error }, { status })] or
    [NextResponse.json({ success: true, scenario })]. *)
Inductive Response : Type :=
  | ErrorResponse (status : Z) (error : string)
  | Success (scenario : SimulationScenario).

(** [!s] for an optional string: absent and empty are falsy. *)
Definition present (s : option string) : option string :=
  match s with
  | Some v => if String.eqb v "" then None else Some v
  | None => None
  end.

(** The defaults of lines 68-74 ([params?.field ?? default]). *)
Definition propagationParams (input : option ParamsInput) : PropagationParams :=
  {| conservativeMode := default false (input ≫= in_conservativeMode);
     maxDepth := default 3%Z (input ≫= in_maxDepth);
     minCorrelation := default 0.3%R (input ≫= in_minCorrelation);
     includeLLMOnly := default true (input ≫= in_includeLLMOnly) |}.

Section Handler.

Variable JSON_parse : string -> option json.
Variable getPriceHistory : nat -> json -> string -> Z -> list PriceHistory.PricePoint.
Variable findInterestingCausalMarkets :
  nat -> PolymarketMarket -> string -> list PolymarketMarket -> list Candidate.

(** [getMarketDetails(marketId)]: [None] is [null] (also on any failure). *)
Variable getMarketDetails : string -> option PolymarketMarket.

(** [getMarkets({ limit, active })]: [None] when it throws. *)
Variable getMarkets : Z -> bool -> option (list PolymarketMarket).

(** An integer rendered inside a template literal: its decimal digits. *)
Definition decimal (n : nat) : string := NilEmpty.string_of_uint (Nat.to_uint n).

(** The message of line 59, which embeds the number of markets fetched. *)
Definition tooFewMarkets (fetched : nat) : string :=
  "Only fetched " +:+ decimal fetched +:+ " markets - expected thousands".

(** [POST]; the body is [None] when [request.json()] throws.  Every
    exception ends in the [catch] of line 98. *)
Definition POST (request : option RequestBody) : Response :=
  match request with
  | None => ErrorResponse 500 "Failed to run simulation"
  | Some body =>
      match present (marketId body), present (outcome body) with
      | Some marketId, Some outcome =>
          match getMarketDetails marketId with
          | None => ErrorResponse 404 "Trigger market not found"
          | Some triggerMarket =>
              if negb (includes (outcomes triggerMarket) outcome)
              then ErrorResponse 400 "Invalid outcome for this market"
              else
                match getMarkets 100000 true with
                | None => ErrorResponse 500 "Failed to run simulation"
                | Some availableMarkets =>
                    if (length availableMarkets <? 100)%nat
                    then ErrorResponse 500 (tooFewMarkets (length availableMarkets))
                    else
                      let scenarioName :=
                        default (question triggerMarket +:+ " → " +:+ outcome)
                                (present (scenarioName body)) in
                      let scenarioDescription :=
                        default ("Simulation of " +:+ outcome +:+ " occurring")
                                (present (scenarioDescription body)) in
                      match createSimulationScenario JSON_parse getPriceHistory
                              findInterestingCausalMarkets scenarioName
                              scenarioDescription triggerMarket outcome
                              availableMarkets (propagationParams (params body)) with
                      | Some scenario => Success scenario
                      | None => ErrorResponse 500 "Failed to run simulation"
                      end
                end
          end
      | _, _ => ErrorResponse 400 "Missing required fields: marketId, outcome"
      end
  end.

End Handler.

End Route.

(** * The cache of the market client *)

Module Client.
Import Js Types.

(** One entry of the in-memory [cache]. *)
Record Cached (A : Type) : Type := mkCached {
  data : A;
  timestamp : Z;
}.
Arguments mkCached {A} _ _.
Arguments data {A} _.
Arguments timestamp {A} _.

(** 60 seconds, in milliseconds. *)
Definition CACHE_TTL : Z := 60 * 1000.

Section Cache.
Context {A : Type}.

(** [getCached(key)] when [Date.now()] is [now]: the answer ([None] is
    [null]) and the cache it leaves behind.  An entry is an object, so
    [cached && ...] only tests that the key is there. *)
Definition getCached (now : Z) (key : string) (cache : gmap string (Cached A))
  : option A * gmap string (Cached A) :=
  match cache !! key with
  | Some cached =>
      if (now - timestamp cached <? CACHE_TTL)%Z
      then (Some (data cached), cache)
      else (None, delete key cache)
  | None => (None, delete key cache)
  end.

(** [setCache(key, data)] when [Date.now()] is [now]. *)
Definition setCache (now : Z) (key : string) (d : A) (cache : gmap string (Cached A))
  : gmap string (Cached A) :=
  <[ key := {| data := d; timestamp := now |} ]> cache.

Definition clearCache (cache : gmap string (Cached A)) : gmap string (Cached A) := ∅.

End Cache.

(** [getMarketDetails(marketId)]: [fetch] stands for the request followed
    by [transformMarket], [None] when either throws; [now] is the clock when
    the cache is read and [later] the clock when the answer is stored.  A
    market is an object, so [if (cached)] only tests for [null]. *)
Definition getMarketDetails (fetch : string -> option PolymarketMarket) (now later : Z)
    (marketId : string) (cache : gmap string (Cached PolymarketMarket))
  : option PolymarketMarket * gmap string (Cached PolymarketMarket) :=
  let cacheKey := "market_" +:+ marketId in
  let '(cached, cache) := getCached now cacheKey cache in
  match cached with
  | Some market => (Some market, cache)
  | None =>
      match fetch marketId with
      | Some market => (Some market, setCache later cacheKey market cache)
      | None => (None, cache)
      end
  end.

End Client.

(** * Pairwise correlations (correlations.ts) *)

Module Correlations.
Import Js Types.

(** A [Map] with string keys: the entries in insertion order. *)
Fixpoint Map_get {V : Type} (key : string) (m : list (string * V)) : option V :=
  match m with
  | [] => None
  | (k, v) :: m' => if String.eqb k key then Some v else Map_get key m'
  end.

(** [Map.prototype.set]: an existing key keeps its place. *)
Fixpoint Map_set {V : Type} (key : string) (v : V) (m : list (string * V))
  : list (string * V) :=
  match m with
  | [] => [(key, v)]
  | (k, v') :: m' =>
      if String.eqb k key then (k, v) :: m' else (k, v') :: Map_set key v m'
  end.

(** Over the reals the argument of [Math.sqrt] is never negative, and it is
    0 exactly when one of the series is flat.  In floating point the two
    differences under the root are then rounding residues of either sign, so
    the source may return NaN or a value beyond 1 for a flat series: the
    facts about the value of the coefficient are stated for series that are
    not flat. *)
Definition pearsonCorrelation (x y : list R) : R :=
  if negb (length x =? length y)%nat || (length x =? 0)%nat then 0%R
  else
    let n := INR (length x) in
    let sumX := sum x in
    let sumY := sum y in
    let sumXY := fold_left (fun acc xy => (acc + fst xy * snd xy)%R) (combine x y) 0%R in
    let sumX2 := fold_left (fun acc xi => (acc + xi * xi)%R) x 0%R in
    let sumY2 := fold_left (fun acc yi => (acc + yi * yi)%R) y 0%R in
    let numerator := (n * sumXY - sumX * sumY)%R in
    let denominator :=
      sqrt ((n * sumX2 - sumX * sumX) * (n * sumY2 - sumY * sumY)) in
    if Reqb denominator 0 then 0%R else (numerator / denominator)%R.

Record Lagged : Type := mkLagged {
  correlation : R;
  lag : nat;
}.

(** The [for] loop of [calculateLaggedCorrelation] with [count] iterations
    left; [best] is [(bestCorrelation, bestLag)]. *)
Fixpoint lag_loop (count lag : nat) (x y : list R) (best : Lagged) : Lagged :=
  match count with
  | O => best
  | S count' =>
      if (length x <=? lag)%nat || (length y <=? lag)%nat then best (* break *)
      else
        (* x.slice(0, -lag || undefined) *)
        let xLagged := if (lag =? 0)%nat then x else take (length x - lag) x in
        let yLagged := drop lag y in
        let minLength := Nat.min (length xLagged) (length yLagged) in
        if (minLength <? 3)%nat then lag_loop count' (S lag) x y best (* continue *)
        else
          let correlation :=
            pearsonCorrelation (take minLength xLagged) (take minLength yLagged) in
          if Rltb (Rabs (Correlations.correlation best)) (Rabs correlation)
          then lag_loop count' (S lag) x y {| correlation := correlation; lag := lag |}
          else lag_loop count' (S lag) x y best
  end.

(** [lag] runs from 0 to [Math.min(maxLag, x.length - 2)], which is negative
    for fewer than two points. *)
Definition calculateLaggedCorrelation (x y : list R) (maxLag : Z) : Lagged :=
  lag_loop (Z.to_nat (Z.min maxLag (Z.of_nat (length x) - 2) + 1)) 0 x y
           {| correlation := 0; lag := 0 |}.

Section Analysis.

(** [calculateConfidence(correlation, sampleSize)]: the significance
    estimate is arithmetic on logarithms and exponentials; it is kept
    abstract.  It is a number for a correlation of magnitude below 1; at
    magnitude 1 an intermediate value is infinite, and beyond it, where
    floating point may leave the coefficient of a flat or an exactly
    correlated pair, the source computes NaN, which passes the test
    [confidence < 0.95].  The facts about the confidence are stated for a
    magnitude below 1. *)
Variable calculateConfidence : R -> nat -> R.

Definition analyzeCorrelation (marketAId marketBId : string) (pricesA pricesB : list R)
  : option CorrelationData :=
  if (length pricesA <? 10)%nat || (length pricesB <? 10)%nat then None
  else
    let minLength := Nat.min (length pricesA) (length pricesB) in
    let alignedA := take minLength pricesA in
    let alignedB := take minLength pricesB in
    let best := calculateLaggedCorrelation alignedA alignedB 7 in
    if Rltb (Rabs (correlation best)) 0.3 then None
    else
      let confidence := calculateConfidence (correlation best) minLength in
      if Rltb confidence 0.95 then None
      else
        Some {| cd_marketId := marketBId;
                cd_correlation := correlation best;
                cd_confidence := confidence;
                cd_lagDays := Z.of_nat (lag best);
                cd_sampleSize := minLength;
                cd_direction := if Rltb 0 (correlation best) then positive else negative |}.

End Analysis.

(** [correlationDatabase]: a map of maps. *)
Definition Database : Type := list (string * list (string * CorrelationData)).

(** A stored record is an object, so [|| null] only covers a missing key. *)
Definition getCorrelation (marketAId marketBId : string) (db : Database)
  : option CorrelationData :=
  match Map_get marketAId db with
  | None => None
  | Some marketACorrelations => Map_get marketBId marketACorrelations
  end.

Definition getMarketCorrelations (marketId : string) (db : Database)
  : list CorrelationData :=
  match Map_get marketId db with
  | None => []
  | Some correlations => map snd correlations
  end.

(** The inner map is updated in place, so [marketAId] keeps its position in
    the outer map. *)
Definition storeCorrelation (marketAId marketBId : string) (d : CorrelationData)
    (db : Database) : Database :=
  let db :=
    match Map_get marketAId db with
    | None => Map_set marketAId [] db
    | Some _ => db
    end in
  match Map_get marketAId db with
  | Some inner => Map_set marketAId (Map_set marketBId d inner) db
  | None => db
  end.

(** [cmp(a, b) = |b.correlation| - |a.correlation|], descending. *)
Definition byMagnitude (a b : CorrelationData) : bool :=
  Rleb (Rabs (cd_correlation b) - Rabs (cd_correlation a)) 0.

Definition findStrongCorrelations (marketId : string) (minCorrelation : R)
    (db : Database) : list CorrelationData :=
  let correlations := getMarketCorrelations marketId db in
  sort byMagnitude
       (filter (fun c => Rleb minCorrelation (Rabs (cd_correlation c)) = true) correlations).

Definition initializeCorrelationDatabase : Database := [].

End Correlations.

(** ** Vocabulary of the builder's invariants *)

Module EngineSpec.
Import Js PriceHistory Types Engine.

Definition nodeId (n : SimulationNode) : string := id (market n).

(** The market id and layer of every node, in array order. *)
Definition signature (nodes : list SimulationNode) : list (string * nat) :=
  map (fun n => (nodeId n, layer n)) nodes.

(** The number of edges leaving market [i]. *)
Definition outDegree (i : string) (edges : list CausalLink) : nat :=
  length (filter (fun e => sourceMarketId e = i) edges).

(** The nodes of layer [k] that an edge from market [parent] points to. *)
Definition childrenAt (parent : string) (k : nat)
    (nodes : list SimulationNode) (edges : list CausalLink) : list SimulationNode :=
  filter (fun n => layer n = k /\
                   Exists (fun e => sourceMarketId e = parent
                                    /\ targetMarketId e = nodeId n) edges) nodes.

Definition nodesAt (k : nat) (nodes : list SimulationNode) : list SimulationNode :=
  filter (fun n => layer n = k) nodes.

(** [n] with its [outgoingLinks] replaced. *)
Definition withOutgoing (out : list CausalLink) (n : SimulationNode) : SimulationNode :=
  {| market := market n;
     currentProbability := currentProbability n;
     predictedProbability := predictedProbability n;
     probabilityChange := probabilityChange n;
     percentChange := percentChange n;
     layer := layer n;
     impactLevel := impactLevel n;
     incomingLinks := incomingLinks n;
     outgoingLinks := out |}.

(** [n'] is [n] up to pushes on [outgoingLinks]. *)
Definition sameCore (n' n : SimulationNode) : Prop :=
  exists out, n' = withOutgoing out n.

(** The iterations the loop may still spend on a queued market of layer
    [l]: itself, and what its admitted children may spend. *)
Definition weight (l : nat) : nat :=
  match l with
  | 0 => 10
  | 1 => 3
  | 2 => 1
  | _ => 0
  end%nat.

Definition pending (queue : list (PolymarketMarket * nat)) : nat :=
  fold_right (fun q acc => (weight (snd q) + acc)%nat) 0%nat queue.

(** A ranking of market ids along which every edge climbs. *)
Definition Ranked (rank : string -> nat) (edges : list CausalLink) : Prop :=
  Forall (fun e => (rank (sourceMarketId e) < rank (targetMarketId e))%nat) edges.

(** [Reach edges i j]: a path of one or more edges leads from [i] to [j]. *)
Inductive Reach (edges : list CausalLink) : string -> string -> Prop :=
  | Reach_edge e :
      In e edges -> Reach edges (sourceMarketId e) (targetMarketId e)
  | Reach_step e j :
      In e edges -> Reach edges (targetMarketId e) j ->
      Reach edges (sourceMarketId e) j.

(** The layer recorded for market [i], 0 when it has no node. *)
Fixpoint layerOf (sg : list (string * nat)) (i : string) : nat :=
  match sg with
  | [] => 0%nat
  | (j, l) :: sg' => if String.eqb j i then l else layerOf sg' i
  end.

(** The edges whose target is outside [seen]. *)
Definition unseenTargets (seen : gset string) (edges : list CausalLink) : nat :=
  length (filter (fun e => targetMarketId e ∉ seen) edges).

(** The edges [propagateProbabilities] gathers for a node. *)
Definition incomingTo (edges : list CausalLink) (n : SimulationNode) : list CausalLink :=
  filter (fun e => String.eqb (targetMarketId e) (id (market n)) = true) edges.

(** [n'] is what the propagator may leave in the place of [n]: the same
    market, layer and current probability; [n] itself when [n] is on layer 0
    or has no incoming edge; and otherwise either [n] itself or a node whose
    predicted probability lies in [0.01, 0.99]. *)
Definition Propagated (edges : list CausalLink) (n' n : SimulationNode) : Prop :=
  market n' = market n
  /\ layer n' = layer n
  /\ currentProbability n' = currentProbability n
  /\ (layer n = 0%nat \/ incomingTo edges n = [] -> n' = n)
  /\ (n' = n \/ (0.01 <= predictedProbability n' <= 0.99)%R).

Section Origins.

Variable findInterestingCausalMarkets :
  nat -> PolymarketMarket -> string -> list PolymarketMarket -> list Candidate.
Variables (triggerMarket : PolymarketMarket) (triggerOutcome : string).
Variable params : PropagationParams.

(** [cand] was returned by some call of the candidate generator. *)
Definition Proposed (cand : Candidate) : Prop :=
  exists now current pool,
    In cand (findInterestingCausalMarkets now current triggerOutcome pool).

(** A validated result that passed the correlation gate. *)
Definition Gated (cand : Candidate) (correlation : R) (result : ValidatedResult) : Prop :=
  exists impactMagnitude, gate cand correlation impactMagnitude = [result].

(** A validated result that went through the gate, for one of [cands]. *)
Definition Good (cands : list Candidate) (r : ValidatedResult) : Prop :=
  exists cand corr, In cand cands /\ Gated cand corr r.

(** Node [n] and edge [e] were created together by one admission. *)
Definition Origin (n : SimulationNode) (e : CausalLink) : Prop :=
  exists cand correlation result sampleSize currentMarket,
    Proposed cand
    /\ Gated cand correlation result
    /\ e = makeEdge triggerMarket triggerOutcome sampleSize currentMarket (market n) result
    /\ sameCore n (pushIncoming e
                     (makeNode triggerMarket triggerOutcome (market n) (layer n) result)).

(** [e] points at [n] from a node one layer above. *)
Definition Linked (sg : list (string * nat)) (n : SimulationNode) (e : CausalLink) : Prop :=
  targetMarketId e = nodeId n
  /\ exists l, (sourceMarketId e, l) ∈ sg /\ layer n = S l.

(** What holds of the builder's variables at every evaluation of the loop
    condition. *)
Record Shape (st : BuilderState) : Prop := mkShape {
  sh_trigger :
    exists n0 ns,
      st_nodes st = n0 :: ns
      /\ sameCore n0 (triggerNode triggerMarket triggerOutcome)
      /\ Forall2 Origin ns (st_edges st)
      /\ Forall2 (Linked (signature (st_nodes st))) ns (st_edges st);
  sh_nodup : NoDup (map nodeId (st_nodes st));
  sh_processed : forall i, i ∈ processedMarkets st <-> i ∈ map nodeId (st_nodes st);
  sh_layers : Forall (fun n => (layer n <= MAX_DEPTH)%nat) (st_nodes st);
  sh_depth : Forall (fun n => (layer n <= 1)%nat
                              \/ (Z.of_nat (layer n) <= maxDepth params)%Z)
                    (st_nodes st);
  sh_queue : Forall (fun q => (id (fst q), snd q) ∈ signature (st_nodes st))
                    (marketsToProcess st);
  sh_queue_nodup : NoDup (map (fun q => id (fst q)) (marketsToProcess st));
  sh_queue_depth : Forall (fun q => snd q = 0%nat
                                    \/ (Z.of_nat (snd q) < maxDepth params)%Z)
                          (marketsToProcess st);
}.

(** The fan-out budget between two iterations. *)
Record Inv (st : BuilderState) : Prop := mkInv {
  inv_shape : Shape st;
  inv_budget : forall i l, (i, l) ∈ signature (st_nodes st) ->
                 (outDegree i (st_edges st) <= getMaxNodesForLayer (S l))%nat;
  inv_unexpanded : Forall (fun q => outDegree (id (fst q)) (st_edges st) = 0%nat)
                          (marketsToProcess st);
}.

(** The fan-out budget while market [current] of layer [l] is being
    expanded and at most [k] of its candidates have been admitted. *)
Record Expanding (current : string) (l k : nat) (st : BuilderState) : Prop := mkExpanding {
  ex_shape : Shape st;
  ex_current : (current, l) ∈ signature (st_nodes st);
  ex_depth : (l < MAX_DEPTH)%nat;
  ex_requested : l = 0%nat \/ (Z.of_nat l < maxDepth params)%Z;
  ex_spent : (outDegree current (st_edges st) <= k)%nat;
  ex_budget : forall i l', (i, l') ∈ signature (st_nodes st) -> i <> current ->
                (outDegree i (st_edges st) <= getMaxNodesForLayer (S l'))%nat;
  ex_unexpanded : Forall (fun q => id (fst q) <> current
                                   /\ outDegree (id (fst q)) (st_edges st) = 0%nat)
                         (marketsToProcess st);
}.

End Origins.

End EngineSpec.

Module Vocabulary.
Import Js PriceHistory Types Engine Propagation EngineSpec Correlations.

(** A step [i -> i+1] of the two series at which A moved by at least
    [threshold], with the ratio [calculateImpactMagnitude] records for it. *)
Definition recorded (threshold : R) (pricesA pricesB : list R) (r : R) : Prop :=
  exists (i : nat) (a a' b b' : R),
    pricesA !! i = Some a /\ pricesA !! S i = Some a'
    /\ pricesB !! i = Some b /\ pricesB !! S i = Some b'
    /\ (threshold <= Rabs ((a' - a) / a))%R
    /\ r = (((b' - b) / b) / ((a' - a) / a))%R.

(** Every element of [path] but the last has an edge to its successor. *)
Fixpoint Chain (edges : list CausalLink) (path : list string) : Prop :=
  match path with
  | [] => True
  | i :: rest =>
      match rest with
      | [] => True
      | j :: _ =>
          (exists e, e ∈ edges /\ sourceMarketId e = i /\ targetMarketId e = j)
          /\ Chain edges rest
      end
  end.

(** [path] is a closed walk: a chain whose last element has an edge back to
    the first. *)
Definition Cycle (edges : list CausalLink) (path : list string) : Prop :=
  Chain edges path
  /\ exists first final e,
       head path = Some first /\ last path = Some final
       /\ e ∈ edges /\ sourceMarketId e = final /\ targetMarketId e = first.

(** The edges that enter, and that leave, market [i]. *)
Definition entering (i : string) (edges : list CausalLink) : list CausalLink :=
  filter (fun e => targetMarketId e = i) edges.

Definition leaving (i : string) (edges : list CausalLink) : list CausalLink :=
  filter (fun e => sourceMarketId e = i) edges.

(** The link lists kept on the nodes agree with the edge list. *)
Definition OutAgree (nodes : list SimulationNode) (edges : list CausalLink) : Prop :=
  Forall (fun n => outgoingLinks n = leaving (nodeId n) edges) nodes.

Definition LinksAgree (nodes : list SimulationNode) (edges : list CausalLink) : Prop :=
  Forall (fun n => incomingLinks n = entering (nodeId n) edges
                   /\ outgoingLinks n = leaving (nodeId n) edges) nodes.

(** Every node stands for the trigger market or for one of the markets the
    builder was given. *)
Definition FromPool (tm : PolymarketMarket) (available : list PolymarketMarket)
    (nodes : list SimulationNode) (edges : list CausalLink) : Prop :=
  Forall (fun n => market n = tm \/ market n ∈ available) nodes.

(** The nodes that a queued market of layer [l] may still add to the graph:
    its admitted children and what they may add in turn. *)
Definition capacity (l : nat) : nat :=
  match l with
  | 0 => 15
  | 1 => 4
  | 2 => 1
  | _ => 0
  end%nat.

(** The nodes built so far and those the queue may still add. *)
Definition potential (st : BuilderState) : nat :=
  (length (st_nodes st)
   + fold_right (fun q acc => (capacity (snd q) + acc)%nat) 0%nat (marketsToProcess st))%nat.

(** The coefficient [calculateLaggedCorrelation] computes for one lag: [x]
    without its last [lag] points against [y] without its first [lag]
    points, both cut to the shorter of the two. *)
Definition overlap (x y : list R) (lag : nat) : nat :=
  Nat.min (length x - lag) (length y - lag).

Definition correlationAt (x y : list R) (lag : nat) : R :=
  pearsonCorrelation (take (overlap x y lag) (take (length x - lag) x))
                     (take (overlap x y lag) (drop lag y)).

(** Neither series is flat on the stretch compared at any lag that the loop
    of [calculateLaggedCorrelation] tries. *)
Definition Moving (x y : list R) (maxLag : Z) : Prop :=
  forall l, (Z.of_nat l <= maxLag)%Z -> (l + 2 <= length x)%nat ->
    (l < length y)%nat -> (3 <= overlap x y l)%nat ->
    variance (take (overlap x y l) (take (length x - l) x)) <> 0%R
    /\ variance (take (overlap x y l) (drop l y)) <> 0%R.

(** Position [k], holding a node of layer [layer], has been visited by the
    propagator when it is about to visit position [j] for layer [l]. *)
Definition settled (l j k layer : nat) : bool :=
  (1 <=? layer)%nat && ((layer <? l)%nat || ((layer =? l)%nat && (k <? j)%nat)).

(** The state of the propagator at that moment: a visited position holds
    what the update rule gives on the current state, any other position
    holds the node it started with. *)
Definition Settled (edges : list CausalLink) (original : list SimulationNode)
    (l j : nat) (state : list SimulationNode) : Prop :=
  length state = length original
  /\ forall k n, original !! k = Some n ->
       state !! k = Some (if settled l j k (layer n) then updateNode edges state n else n).

(** Every edge between two of the nodes leads to a higher layer. *)
Definition Climbing (nodes : list SimulationNode) (edges : list CausalLink) : Prop :=
  forall e s n, e ∈ edges -> s ∈ nodes -> n ∈ nodes ->
    nodeId s = sourceMarketId e -> nodeId n = targetMarketId e ->
    (layer s < layer n)%nat.

Section Provenance.

Variable JSON_parse : string -> option json.
Variable getPriceHistory : nat -> json -> string -> Z -> list PricePoint.
Variable findInterestingCausalMarkets :
  nat -> PolymarketMarket -> string -> list PolymarketMarket -> list Candidate.
Variables (triggerMarket : PolymarketMarket) (triggerOutcome : string).
Variable availableMarkets : list PolymarketMarket.
Variable triggerPriceHistory : list PricePoint.

(** [result] is what the validator pushes for [cand] after measuring
    [market]: [market] is the available market that [cand] names, it has a
    token, the trigger's series and the series fetched for that token align
    on at least ten points, [correlation] is the coefficient of the aligned
    series, and the gate lets it through. *)
Definition Measured (market : PolymarketMarket) (cand : Candidate) (correlation : R)
    (result : ValidatedResult) : Prop :=
  find (fun m => String.eqb (id m) (c_marketId cand)) availableMarkets = Some market
  /\ exists tokenId now,
       extractTokenId JSON_parse market = Some tokenId
       /\ let aligned := alignPriceSeries triggerPriceHistory
                                          (getPriceHistory now tokenId "1w" 60) in
          (10 <= length (prices1 aligned))%nat
          /\ correlation = calculateCorrelation (prices1 aligned) (prices2 aligned)
          /\ gate cand correlation
                  (calculateImpactMagnitude (prices1 aligned) (prices2 aligned) 0.05)
             = [result].

(** Node [n] and edge [e] were created together by the admission of a
    proposed candidate that names the node's market and was measured on
    it. *)
Definition Traced (n : SimulationNode) (e : CausalLink) : Prop :=
  exists cand correlation result sampleSize currentMarket,
    Proposed findInterestingCausalMarkets triggerOutcome cand
    /\ Measured (market n) cand correlation result
    /\ e = makeEdge triggerMarket triggerOutcome sampleSize currentMarket (market n) result
    /\ sameCore n (pushIncoming e
                     (makeNode triggerMarket triggerOutcome (market n) (layer n) result)).

End Provenance.

End Vocabulary.

(** ** Concrete inputs used by the examples below *)

Module Examples.
Import Js PriceHistory Types Engine.

Definition point (time : Z) (price : R) : PricePoint := {| t := time; p := price |}.

Definition alternating : list R := [0; 1; 0; 1; 0; 1; 0; 1; 0; 1]%R.

(** The JSON text of a one-element array of strings, as the market API
    sends [clobTokenIds]: a bracket, the token between double quotes, a
    bracket. *)
Definition quote : string := String (Ascii.ascii_of_nat 34) EmptyString.

Definition tokenText (token : string) : string :=
  "[" +:+ quote +:+ token +:+ quote +:+ "]".

(** The worked example of the specification: the trigger outcome "Yes" is
    priced at 0.20, the target market at 0.30. *)
Definition exTrigger : PolymarketMarket :=
  {| id := "trigger";
     question := "Will the trigger happen?";
     outcomes := ["Yes"; "No"];
     outcomePrices := [0.20; 0.80]%R;
     volume := 1000000;
     clobTokenIds := Some (tokenText "trigger-token") |}.

Definition exTarget : PolymarketMarket :=
  {| id := "target";
     question := "Will the target happen?";
     outcomes := ["Yes"; "No"];
     outcomePrices := [0.30; 0.70]%R;
     volume := 500000;
     clobTokenIds := Some (tokenText "target-token") |}.

(** A candidate of claimed strength 0.6 with the given claimed direction. *)
Definition exCandidate (impactDirection : string) : Candidate :=
  {| c_marketId := "target";
     c_reasoning := "shared driver";
     c_timelag := "days";
     c_strength := 0.6;
     c_impactDirection := impactDirection |}.

(** What the gate pushes for [exCandidate] at correlation 0.50. *)
Definition exValidated (impactDirection : string) : ValidatedResult :=
  {| v_marketId := "target";
     v_reasoning := "shared driver";
     v_timelag := "days";
     v_strength := ((Rabs 0.50 + 0.6) / 2)%R;
     v_impactDirection := impactDirection;
     v_correlation := Some 0.50%R;
     v_impactMagnitude := Some 0%R;
     hasHistoricalData := true |}.

(** A run of the builder: every token has the same ten hourly prices, which
    swing between 0.25 and 0.75, and the generator proposes the target, as
    decreasing, for the trigger only. *)
Definition swinging : list R :=
  [0.25; 0.75; 0.25; 0.75; 0.25; 0.75; 0.25; 0.75; 0.25; 0.75]%R.

Definition exSeries : list PricePoint :=
  [point 0 0.25; point 3600 0.75; point 7200 0.25; point 10800 0.75; point 14400 0.25;
   point 18000 0.75; point 21600 0.25; point 25200 0.75; point 28800 0.25;
   point 32400 0.75].

(** [JSON.parse] on the token texts of the two example markets, the only
    texts that the runs below parse: each is a one-element array holding the
    token as a string. *)
Definition exParse (raw : string) : option json :=
  if String.eqb raw (tokenText "trigger-token") then Some (JArr [JStr "trigger-token"])
  else if String.eqb raw (tokenText "target-token") then Some (JArr [JStr "target-token"])
  else None.

Definition exHistory (now : nat) (tokenId : json) (interval : string) (fidelity : Z)
  : list PricePoint := exSeries.

Definition exGenerator (now : nat) (current : PolymarketMarket) (outcome : string)
    (pool : list PolymarketMarket) : list Candidate :=
  if String.eqb (id current) "trigger" then [exCandidate "decrease"] else [].

Definition exParams : PropagationParams :=
  {| conservativeMode := false;
     maxDepth := 3;
     minCorrelation := 0.3;
     includeLLMOnly := true |}.

(** What the gate pushes for [exCandidate "decrease"] at correlation 1. *)
Definition exAccepted : ValidatedResult :=
  {| v_marketId := "target";
     v_reasoning := "shared driver";
     v_timelag := "days";
     v_strength := ((Rabs 1 + 0.6) / 2)%R;
     v_impactDirection := "decrease";
     v_correlation := Some 1%R;
     v_impactMagnitude := Some (calculateImpactMagnitude swinging swinging 0.05);
     hasHistoricalData := true |}.

Definition exEdge : CausalLink :=
  makeEdge exTrigger "Yes" 10 exTrigger exTarget exAccepted.

Definition exNode : SimulationNode :=
  pushIncoming exEdge (makeNode exTrigger "Yes" exTarget 1 exAccepted).

(** The target market without a price-series token: its candidates cannot
    be validated against history. *)
Definition exBare : PolymarketMarket :=
  {| id := "target";
     question := "Will the target happen?";
     outcomes := ["Yes"; "No"];
     outcomePrices := [0.30; 0.70]%R;
     volume := 500000;
     clobTokenIds := None |}.

(** A two-node graph for the propagator: the trigger at 0.20, simulated as
    certain, and the target at 0.30, not yet moved, joined by one edge. *)
Definition exPlainNode (m : PolymarketMarket) (current predicted : R) (l : nat)
  : SimulationNode :=
  {| market := m;
     currentProbability := current;
     predictedProbability := predicted;
     probabilityChange := (predicted - current)%R;
     percentChange := ((predicted - current) / current * 100)%R;
     layer := l;
     impactLevel := low;
     incomingLinks := [];
     outgoingLinks := [] |}.

Definition exPlainEdge (source target : string) : CausalLink :=
  {| sourceMarketId := source;
     targetMarketId := target;
     strength := 0.5;
     direction := "increase";
     timelag := "days";
     confidenceLevel := HIGH;
     historicalCorrelation := None;
     llmGenerated := true |}.

Definition exGraphNodes : list SimulationNode :=
  [exPlainNode exTarget 0.30 0.30 1; exPlainNode exTrigger 0.20 1 0].

Definition exGraphEdges : list CausalLink := [exPlainEdge "trigger" "target"].

(** A request that names the trigger market and its listed outcome "Yes". *)
Definition exRequest : Route.RequestBody :=
  {| Route.marketId := Some "trigger";
     Route.outcome := Some "Yes";
     Route.scenarioName := None;
     Route.scenarioDescription := None;
     Route.params := None |}.

(** A stored correlation record. *)
Definition exCorrelation (target : string) (c : R) : CorrelationData :=
  {| cd_marketId := target;
     cd_correlation := c;
     cd_confidence := 0.99;
     cd_lagDays := 0;
     cd_sampleSize := 30;
     cd_direction := if Rltb 0 c then positive else negative |}.

End Examples.

(** * Properties *)

(** ** Facts about the array helpers *)

Module JsFacts.
Import Js.

Lemma Rleb_true x y : Rleb x y = true <-> (x <= y)%R.
Proof. unfold Rleb. destruct (Rle_dec x y); split; intros; try done; lra. Qed.

Lemma Rleb_false x y : Rleb x y = false <-> (y < x)%R.
Proof. unfold Rleb. destruct (Rle_dec x y); split; intros; try done; lra. Qed.

Lemma Rltb_true x y : Rltb x y = true <-> (x < y)%R.
Proof. unfold Rltb. destruct (Rlt_dec x y); split; intros; try done; lra. Qed.

Lemma Rltb_false x y : Rltb x y = false <-> (y <= x)%R.
Proof. unfold Rltb. destruct (Rlt_dec x y); split; intros; try done; lra. Qed.

Lemma Reqb_true x y : Reqb x y = true <-> x = y.
Proof. unfold Reqb. destruct (Req_dec_T x y); split; intros; done. Qed.

Lemma Reqb_false x y : Reqb x y = false <-> x <> y.
Proof. unfold Reqb. destruct (Req_dec_T x y); split; intros; done. Qed.

Lemma clamp_range x : (0.01 <= clamp x <= 0.99)%R.
Proof. unfold clamp, Rmax, Rmin. repeat destruct Rle_dec; lra. Qed.

Lemma clamp_id x : (0.01 <= x <= 0.99)%R -> clamp x = x.
Proof. unfold clamp, Rmax, Rmin. repeat destruct Rle_dec; lra. Qed.

Section Sorting.
Context {A : Type} (leb : A -> A -> bool).

Lemma insert_sorted_perm x l : insert_sorted leb x l ≡ₚ x :: l.
Proof.
  induction l as [|y l IH]; simpl; [done|].
  destruct (leb x y); [done|]. rewrite IH. apply Permutation_swap.
Qed.

Lemma sort_perm l : sort leb l ≡ₚ l.
Proof.
  induction l as [|x l IH]; simpl; [done|].
  rewrite insert_sorted_perm. by rewrite IH.
Qed.

Lemma length_sort l : length (sort leb l) = length l.
Proof. apply Permutation_length, sort_perm. Qed.

Lemma elem_of_sort x l : x ∈ sort leb l <-> x ∈ l.
Proof. by rewrite sort_perm. Qed.

Hypothesis leb_total : forall a b, leb a b = false -> leb b a = true.

Lemma insert_sorted_Sorted x l :
  Sorted (fun a b => leb a b = true) l ->
  Sorted (fun a b => leb a b = true) (insert_sorted leb x l).
Proof.
  induction 1 as [|y l Hs IH Hhd]; simpl.
  - repeat constructor.
  - destruct (leb x y) eqn:E.
    + repeat constructor; done.
    + constructor; [done|].
      destruct Hhd as [|z l Hz]; simpl.
      * constructor. by apply leb_total.
      * destruct (leb x z); constructor; auto.
Qed.

Lemma sort_Sorted l : Sorted (fun a b => leb a b = true) (sort leb l).
Proof.
  induction l as [|x l IH]; simpl; [constructor|].
  by apply insert_sorted_Sorted.
Qed.

End Sorting.

Lemma sum_from (l : list R) (a : R) : fold_left Rplus l a = (a + sum l)%R.
Proof.
  unfold sum. revert a. induction l as [|x l IH]; intros a; simpl; [lra|].
  rewrite (IH (a + x)%R), (IH (0 + x)%R). lra.
Qed.

Lemma sum_squares_nonneg (f : R -> R) (l : list R) :
  (0 <= sum (map (fun x => f x * f x) l))%R.
Proof.
  induction l as [|x l IH]; unfold sum in *; simpl; [lra|].
  rewrite sum_from. fold (sum (map (fun x => f x * f x)%R l)).
  pose proof (Rle_0_sqr (f x)) as Hx. unfold Rsqr in Hx.
  unfold sum. lra.
Qed.

End JsFacts.

(** ** The series aligner and the correlation analyzer *)

Module PriceHistoryFacts.
Import Js JsFacts PriceHistory Examples.

(** *** The series aligner *)

Lemma align_loop_cons a s1 b s2 :
  align_loop (a :: s1) (b :: s2) =
    if (Z.abs (t a - t b) <=? TOLERANCE)%Z
    then (p a, p b, Z.min (t a) (t b)) :: align_loop s1 s2
    else if (t a <? t b)%Z then align_loop s1 (b :: s2)
    else align_loop (a :: s1) s2.
Proof. reflexivity. Qed.

Lemma align_loop_nil_r s1 : align_loop s1 [] = [].
Proof. by destruct s1. Qed.

Lemma align_loop_nil_l s2 : align_loop [] s2 = [].
Proof. by destruct s2. Qed.

(** On strictly increasing inputs the matched timestamps strictly increase,
    above any bound that is below both inputs. *)
Lemma align_loop_increasing s1 : forall s2 lo,
  StronglySorted Z.lt (map t s1) ->
  StronglySorted Z.lt (map t s2) ->
  Forall (Z.lt lo) (map t s1) ->
  Forall (Z.lt lo) (map t s2) ->
  Forall (Z.lt lo) (map snd (align_loop s1 s2))
  /\ StronglySorted Z.lt (map snd (align_loop s1 s2)).
Proof.
  induction s1 as [|a s1 IH1]; intros s2;
    [intros; rewrite align_loop_nil_l; simpl; split; constructor|].
  induction s2 as [|b s2 IH2]; intros lo S1 S2 B1 B2;
    [simpl; split; constructor|].
  rewrite align_loop_cons.
  simpl in S1, S2, B1, B2.
  apply StronglySorted_inv in S1 as [S1 A1].
  apply StronglySorted_inv in S2 as [S2 A2].
  apply Forall_cons in B1 as [Ba B1].
  apply Forall_cons in B2 as [Bb B2].
  destruct (Z.abs (t a - t b) <=? TOLERANCE)%Z.
  - destruct (IH1 s2 (Z.min (t a) (t b))) as [F S]; try done.
    + eapply Forall_impl; [exact A1|]. intros; simpl in *; lia.
    + eapply Forall_impl; [exact A2|]. intros; simpl in *; lia.
    + simpl. split.
      * constructor; [lia|].
        eapply Forall_impl; [exact F|]. intros; simpl in *; lia.
      * by constructor.
  - destruct (t a <? t b)%Z.
    + apply IH1; try done; simpl; by constructor.
    + apply IH2; try done; simpl; by constructor.
Qed.

Lemma by_timestamp_total a b : by_timestamp a b = false -> by_timestamp b a = true.
Proof. unfold by_timestamp. intros H. apply Z.leb_gt in H. apply Z.leb_le. lia. Qed.

Lemma sorted_timestamps_increasing (h : list PricePoint) :
  NoDup (map t h) -> StronglySorted Z.lt (map t (sort by_timestamp h)).
Proof.
  intros ND.
  assert (NoDup (map t (sort by_timestamp h))) as ND'.
  { by rewrite sort_perm. }
  pose proof (sort_Sorted by_timestamp by_timestamp_total h) as Hs.
  apply Sorted_StronglySorted in Hs.
  2:{ intros x y z. unfold by_timestamp. rewrite !Z.leb_le. lia. }
  induction Hs as [|x l Hs IH Hx]; simpl in *; [constructor|].
  apply NoDup_cons in ND' as [Hn ND'].
  constructor; [by apply IH|].
  apply Forall_forall. intros ty Hty.
  apply list_elem_of_In, in_map_iff in Hty as (y & <- & Hy).
  rewrite Forall_forall in Hx. specialize (Hx y (proj2 (list_elem_of_In _ _) Hy)).
  unfold by_timestamp in Hx. apply Z.leb_le in Hx.
  assert (t x <> t y).
  { intros E. apply Hn. rewrite E. apply list_elem_of_In, in_map, Hy. }
  lia.
Qed.

(** C7, as stated, fails: two series that each repeat a timestamp are
    matched pairwise, and the repeated timestamp is emitted twice. *)
Lemma alignPriceSeries_repeats_timestamp :
  timestamps (alignPriceSeries [point 5 0.1; point 5 0.2] [point 5 0.3; point 5 0.4])
    = [5%Z; 5%Z]
  /\ ~ NoDup (timestamps
        (alignPriceSeries [point 5 0.1; point 5 0.2] [point 5 0.3; point 5 0.4])).
Proof.
  assert (timestamps
            (alignPriceSeries [point 5 0.1; point 5 0.2] [point 5 0.3; point 5 0.4])
          = [5%Z; 5%Z]) as E by reflexivity.
  split; [exact E|]. rewrite E. intros ND.
  apply NoDup_cons in ND as [Hn _]. apply Hn. constructor.
Qed.

(** C7 (amended): [alignPriceSeries] is total; for all inputs its three
    outputs have the same length, and an empty input gives three empty
    outputs; and when no timestamp is repeated within either input series,
    no timestamp is repeated among the matched timestamps. *)
Theorem alignPriceSeries_guarantees (history1 history2 : list PricePoint) :
  let r := alignPriceSeries history1 history2 in
  length (prices1 r) = length (prices2 r)
  /\ length (timestamps r) = length (prices1 r)
  /\ (history1 = [] \/ history2 = [] ->
      prices1 r = [] /\ prices2 r = [] /\ timestamps r = [])
  /\ (NoDup (map t history1) -> NoDup (map t history2) -> NoDup (timestamps r)).
Proof.
  intros r. subst r. unfold alignPriceSeries. simpl.
  rewrite !length_map. split; [done|]. split; [done|]. split.
  - intros [-> | ->]; simpl.
    + by rewrite align_loop_nil_l.
    + by rewrite align_loop_nil_r.
  - intros N1 N2.
    pose proof (sorted_timestamps_increasing _ N1) as S1.
    pose proof (sorted_timestamps_increasing _ N2) as S2.
    set (s1 := sort by_timestamp history1) in *.
    set (s2 := sort by_timestamp history2) in *.
    set (lo := (Z.min (fold_right Z.min 0 (map t s1)) (fold_right Z.min 0 (map t s2)) - 1)%Z).
    assert (forall l : list Z, Forall (Z.lt (fold_right Z.min 0 l - 1)) l)%Z as Hmin.
    { induction l as [|x l IH]; simpl; constructor; [lia|].
      eapply Forall_impl; [exact IH|]. intros; simpl in *; lia. }
    destruct (align_loop_increasing s1 s2 lo S1 S2) as [_ S].
    + eapply Forall_impl; [apply Hmin|]. intros; simpl in *; lia.
    + eapply Forall_impl; [apply Hmin|]. intros; simpl in *; lia.
    + clear -S. induction S as [|x l S IH Hx]; constructor; [|done].
      intros Hin. rewrite Forall_forall in Hx.
      specialize (Hx _ Hin). lia.
Qed.

Lemma alignPriceSeries_guarantees_witness :
  let h1 := [point 7200 0.4; point 0 0.2] in
  let h2 := [point 10 0.3] in
  NoDup (map t h1) /\ NoDup (map t h2)
  /\ NoDup (timestamps (alignPriceSeries h1 h2)).
Proof.
  intros h1 h2.
  assert (NoDup (map t h1)) as N1.
  { subst h1. simpl. apply NoDup_cons. split; [|apply NoDup_cons; split; [|constructor]].
    - intros H. apply list_elem_of_In in H. simpl in H. destruct H as [H|[]]. discriminate H.
    - intros H. apply list_elem_of_In in H. destruct H. }
  assert (NoDup (map t h2)) as N2.
  { subst h2. simpl. apply NoDup_cons. split; [|constructor].
    intros H. apply list_elem_of_In in H. destruct H. }
  split; [exact N1|]. split; [exact N2|].
  exact (proj2 (proj2 (proj2 (alignPriceSeries_guarantees h1 h2))) N1 N2).
Defined.

(** *** The correlation analyzer *)

Lemma accumulate_swap m1 m2 xs : forall ys c v1 v2,
  fold_left (accumulate m2 m1) (combine ys xs) (c, v2, v1)
  = let '(c', v1', v2') := fold_left (accumulate m1 m2) (combine xs ys) (c, v1, v2) in
    (c', v2', v1').
Proof.
  induction xs as [|x xs IH]; intros [|y ys] c v1 v2; simpl; try done.
  replace (c + (y - m2) * (x - m1))%R with (c + (x - m1) * (y - m2))%R by ring.
  apply IH.
Qed.

Lemma accumulate_self m xs : forall a,
  fold_left (accumulate m m) (combine xs xs) (a, a, a)
  = let s := fold_left Rplus (map (fun x => (x - m) * (x - m))%R xs) a in (s, s, s).
Proof.
  induction xs as [|x xs IH]; intros a; simpl; [done|]. apply IH.
Qed.

Lemma calculateCorrelation_sym (xs ys : list R) :
  calculateCorrelation xs ys = calculateCorrelation ys xs.
Proof.
  unfold calculateCorrelation.
  destruct (Nat.eqb_spec (length xs) (length ys)) as [E|NE].
  - rewrite <- E, Nat.eqb_refl. simpl.
    destruct (length xs <? 10)%nat; [done|].
    rewrite (accumulate_swap (sum xs / INR (length xs)) (sum ys / INR (length xs)) xs ys).
    destruct (fold_left _ (combine xs ys) _) as [[c v1] v2]. simpl.
    destruct (Reqb (sqrt (v1 / INR (length xs))) 0),
             (Reqb (sqrt (v2 / INR (length xs))) 0); simpl; try done.
    f_equal. ring.
  - simpl. destruct (Nat.eqb_spec (length ys) (length xs)); [congruence|done].
Qed.

Lemma calculateCorrelation_self (xs : list R) :
  (10 <= length xs)%nat -> variance xs <> 0%R -> calculateCorrelation xs xs = 1%R.
Proof.
  intros Hlen Hvar. unfold calculateCorrelation.
  rewrite Nat.eqb_refl. simpl.
  destruct (Nat.ltb_spec (length xs) 10) as [|_]; [lia|].
  rewrite accumulate_self. cbv beta iota zeta.
  unfold variance in Hvar. fold (sum (map (fun x => (x - sum xs / INR (length xs))
      * (x - sum xs / INR (length xs)))%R xs)) in *.
  set (n := INR (length xs)) in *.
  set (V := sum _) in *.
  assert (0 < n)%R as Hn by (apply lt_0_INR; lia).
  assert (0 <= V)%R as HV.
  { subst V. apply (sum_squares_nonneg (fun x => x - sum xs / n)%R). }
  assert (0 < V / n)%R as Hpos.
  { destruct (Rle_lt_or_eq_dec _ _ HV) as [Hlt | Heq].
    - by apply Rdiv_lt_0_compat.
    - exfalso. apply Hvar. rewrite <- Heq. unfold Rdiv. ring. }
  pose proof (sqrt_lt_R0 _ Hpos) as Hs.
  assert (Reqb (sqrt (V / n)) 0 = false) as E by (apply Reqb_false; lra).
  rewrite E. cbn [orb].
  replace (n * sqrt (V / n) * sqrt (V / n))%R with (n * (sqrt (V / n) * sqrt (V / n)))%R by ring.
  rewrite sqrt_sqrt by lra. field. split; [lra|].
  intros HV0. rewrite HV0 in Hpos. unfold Rdiv in Hpos. lra.
Qed.

Lemma variance_alternating : variance alternating = 0.25%R.
Proof.
  unfold variance, alternating, sum. cbn [length map fold_left].
  replace (INR 10) with 10%R by (simpl; lra). lra.
Qed.

(** C6, as stated, fails: a two-point sequence has nonzero variance, yet the
    function answers 0 for every input shorter than ten points. *)
Lemma calculateCorrelation_short_self :
  length [0%R; 1%R] = length [0%R; 1%R]
  /\ variance [0%R; 1%R] <> 0%R
  /\ calculateCorrelation [0%R; 1%R] [0%R; 1%R] = 0%R
  /\ calculateCorrelation [0%R; 1%R] [0%R; 1%R] <> 1%R.
Proof.
  assert (calculateCorrelation [0%R; 1%R] [0%R; 1%R] = 0%R) as E by reflexivity.
  split; [done|]. split.
  - unfold variance, sum. cbn [length map fold_left].
    replace (INR 2) with 2%R by (simpl; lra). lra.
  - split; [exact E|]. rewrite E. lra.
Qed.

(** C6 (amended): for sequences of different lengths or of fewer than ten
    points the function returns 0; over the reals, for equal-length
    sequences of at least ten points whose variances are nonzero, the
    correlation is symmetric and the self-correlation is exactly 1. *)
Theorem calculateCorrelation_symmetric_self (xs ys : list R) :
  (length xs <> length ys \/ (length xs < 10)%nat ->
   calculateCorrelation xs ys = 0%R)
  /\ (length xs = length ys ->
      (10 <= length xs)%nat ->
      variance xs <> 0%R ->
      variance ys <> 0%R ->
      calculateCorrelation xs ys = calculateCorrelation ys xs
      /\ calculateCorrelation xs xs = 1%R
      /\ calculateCorrelation ys ys = 1%R).
Proof.
  split.
  - intros H. unfold calculateCorrelation.
    destruct (Nat.eqb_spec (length xs) (length ys)) as [E|NE]; [|done].
    destruct H as [H|H]; [done|]. simpl.
    by destruct (Nat.ltb_spec (length xs) 10) as [_|]; [|lia].
  - intros Hlen H10 Hx Hy. split; [apply calculateCorrelation_sym|].
    split; apply calculateCorrelation_self; try done. lia.
Qed.

Lemma calculateCorrelation_symmetric_self_witness :
  calculateCorrelation alternating alternating = 1%R
  /\ calculateCorrelation [0%R; 1%R] [0%R; 1%R] = 0%R.
Proof.
  assert (variance alternating <> 0%R) as Hv by (rewrite variance_alternating; lra).
  assert (10 <= length alternating)%nat as H10 by (simpl; lia).
  split.
  - exact (proj1 (proj2 (proj2 (calculateCorrelation_symmetric_self
                                  alternating alternating) eq_refl H10 Hv Hv))).
  - apply (proj1 (calculateCorrelation_symmetric_self [0%R; 1%R] [0%R; 1%R])).
    right. simpl. lia.
Defined.

End PriceHistoryFacts.
(** ** The layered graph builder *)

Module EngineFacts.
Import Js JsFacts PriceHistory Types Engine EngineSpec.

Lemma find_Some {A : Type} (f : A -> bool) (l : list A) (x : A) :
  find f l = Some x -> f x = true /\ x ∈ l.
Proof.
  induction l as [|y l IH]; simpl; [done|].
  destruct (f y) eqn:E.
  - intros [= <-]. split; [done|]. constructor.
  - intros H. destruct (IH H). split; [done|]. by constructor.
Qed.

Lemma elem_of_map {A B : Type} (f : A -> B) (l : list A) (y : B) :
  y ∈ map f l <-> exists x, y = f x /\ x ∈ l.
Proof.
  rewrite list_elem_of_In, in_map_iff. split.
  - intros (x & <- & Hx). exists x. by rewrite list_elem_of_In.
  - intros (x & -> & Hx). exists x. by rewrite <- list_elem_of_In.
Qed.

Lemma lookup_map {A B : Type} (f : A -> B) (l : list A) (i : nat) (x : A) :
  l !! i = Some x -> map f l !! i = Some (f x).
Proof.
  revert i. induction l as [|y l IH]; intros [|i]; simpl; try done.
  - by intros [= ->].
  - apply IH.
Qed.

(** *** [sameCore] and [linkSource] *)

Lemma sameCore_refl n : sameCore n n.
Proof. exists (outgoingLinks n). by destruct n. Qed.

Lemma sameCore_trans n1 n2 n3 : sameCore n1 n2 -> sameCore n2 n3 -> sameCore n1 n3.
Proof. intros [o1 ->] [o2 ->]. by exists o1. Qed.

Lemma sameCore_pushOutgoing e n : sameCore (pushOutgoing e n) n.
Proof. by exists (outgoingLinks n ++ [e]). Qed.

Lemma sameCore_nodeId n' n : sameCore n' n -> nodeId n' = nodeId n.
Proof. by intros [o ->]. Qed.

Lemma sameCore_layer n' n : sameCore n' n -> layer n' = layer n.
Proof. by intros [o ->]. Qed.

Lemma sameCore_market n' n : sameCore n' n -> market n' = market n.
Proof. by intros [o ->]. Qed.

Lemma linkSource_sameCore i e l : Forall2 sameCore (linkSource i e l) l.
Proof.
  induction l as [|n l IH]; simpl; [constructor|].
  destruct (String.eqb (id (market n)) i).
  - constructor; [apply sameCore_pushOutgoing|].
    apply Forall2_same_length_lookup_2; [done|].
    intros j x y Hx Hy. rewrite Hx in Hy. injection Hy as <-. apply sameCore_refl.
  - constructor; [apply sameCore_refl|done].
Qed.

Lemma signature_sameCore l' l : Forall2 sameCore l' l -> signature l' = signature l.
Proof.
  induction 1 as [|n' n l' l Hn _ IH]; simpl; [done|].
  by rewrite (sameCore_nodeId _ _ Hn), (sameCore_layer _ _ Hn), IH.
Qed.

Lemma signature_linkSource i e l : signature (linkSource i e l) = signature l.
Proof. apply signature_sameCore, linkSource_sameCore. Qed.

Lemma signature_app l1 l2 : signature (l1 ++ l2) = signature l1 ++ signature l2.
Proof. apply map_app. Qed.

Lemma map_fst_signature l : map fst (signature l) = map nodeId l.
Proof. unfold signature. rewrite map_map. done. Qed.

Lemma map_snd_signature l : map snd (signature l) = map layer l.
Proof. unfold signature. rewrite map_map. done. Qed.

Lemma elem_of_signature i l nodes :
  (i, l) ∈ signature nodes <-> exists n, n ∈ nodes /\ nodeId n = i /\ layer n = l.
Proof.
  unfold signature. rewrite elem_of_map. split.
  - intros (n & [= -> ->] & Hn). by exists n.
  - intros (n & Hn & <- & <-). by exists n.
Qed.

Lemma signature_nodeId i l nodes : (i, l) ∈ signature nodes -> i ∈ map nodeId nodes.
Proof.
  rewrite elem_of_signature. intros (n & Hn & <- & _).
  apply elem_of_map. by exists n.
Qed.

Lemma nodeId_signature i nodes :
  i ∈ map nodeId nodes -> exists l, (i, l) ∈ signature nodes.
Proof.
  rewrite elem_of_map. intros (n & -> & Hn). exists (layer n).
  apply elem_of_signature. by exists n.
Qed.

Lemma signature_functional nodes i l l' :
  NoDup (map nodeId nodes) ->
  (i, l) ∈ signature nodes -> (i, l') ∈ signature nodes -> l = l'.
Proof.
  induction nodes as [|n nodes IH]; simpl; intros ND H1 H2.
  - by apply elem_of_nil in H1.
  - apply NoDup_cons in ND as [Hn ND].
    apply elem_of_cons in H1 as [[= -> ->]|H1], H2 as [[= ->]|H2]; try done.
    + exfalso. apply Hn. by eapply signature_nodeId.
    + exfalso. apply Hn. by eapply signature_nodeId.
    + by apply IH.
Qed.

Lemma layerOf_signature nodes i l :
  NoDup (map nodeId nodes) -> (i, l) ∈ signature nodes -> layerOf (signature nodes) i = l.
Proof.
  induction nodes as [|n nodes IH]; simpl; intros ND H.
  - by apply elem_of_nil in H.
  - apply NoDup_cons in ND as [Hn ND].
    destruct (String.eqb_spec (nodeId n) i) as [E|NE].
    + apply elem_of_cons in H as [[= _ ->]|H]; [done|].
      exfalso. apply Hn. rewrite E. by eapply signature_nodeId.
    + apply elem_of_cons in H as [[= -> _]|H]; [done|]. by apply IH.
Qed.

(** *** Out-degrees *)

Lemma outDegree_snoc i es e :
  outDegree i (es ++ [e]) =
    (outDegree i es + if decide (sourceMarketId e = i) then 1 else 0)%nat.
Proof.
  unfold outDegree. rewrite filter_app, length_app. f_equal.
  rewrite filter_cons, filter_nil. by destruct (decide _).
Qed.

Lemma outDegree_zero i es :
  (forall e, e ∈ es -> sourceMarketId e <> i) -> outDegree i es = 0%nat.
Proof.
  intros H. unfold outDegree.
  induction es as [|e es IH]; [done|].
  rewrite filter_cons. destruct (decide _) as [E|_].
  - exfalso. eapply H; [constructor|done].
  - apply IH. intros e' He'. apply H. by constructor.
Qed.

(** *** The queue measure *)

Lemma pending_app q1 q2 : pending (q1 ++ q2) = (pending q1 + pending q2)%nat.
Proof. induction q1 as [|q q1 IH]; simpl; [done|]. rewrite IH. lia. Qed.

Lemma weight_budget l :
  (l < MAX_DEPTH)%nat ->
  weight l = S (getMaxNodesForLayer (S l) * weight (S l)).
Proof.
  unfold MAX_DEPTH. intros H.
  destruct l as [|[|[|l]]]; simpl; try done. lia.
Qed.

Lemma Forall2_sameCore_l (P : SimulationNode -> CausalLink -> Prop) l' l es :
  (forall n n' e, sameCore n' n -> P n e -> P n' e) ->
  Forall2 sameCore l' l -> Forall2 P l es -> Forall2 P l' es.
Proof.
  intros HP Hs. revert es.
  induction Hs as [|n' n l' l Hn _ IH]; intros es H; inversion H; subst; constructor.
  - by eapply HP.
  - by apply IH.
Qed.

Lemma Linked_sameCore sg n n' e : sameCore n' n -> Linked sg n e -> Linked sg n' e.
Proof.
  intros Hs [Ht (l & Hl & Hn)]. split.
  - by rewrite (sameCore_nodeId _ _ Hs).
  - exists l. by rewrite (sameCore_layer _ _ Hs).
Qed.

Lemma Linked_mono sg sg' n e : sg ⊆ sg' -> Linked sg n e -> Linked sg' n e.
Proof. intros Hsub [Ht (l & Hl & Hn)]. split; [done|]. exists l. split; [by apply Hsub|done]. Qed.

Lemma Linked_source sg ns es e :
  Forall2 (Linked sg) ns es -> e ∈ es -> sourceMarketId e ∈ map fst sg.
Proof.
  induction 1 as [|n e' ns es [_ (l & Hl & _)] _ IH]; intros He.
  - by apply elem_of_nil in He.
  - apply elem_of_cons in He as [->|He]; [|by apply IH].
    apply elem_of_map. by exists (sourceMarketId e', l).
Qed.

Lemma Linked_targets sg ns es :
  Forall2 (Linked sg) ns es -> map targetMarketId es = map nodeId ns.
Proof. induction 1 as [|n e ns es [Ht _] _ IH]; simpl; [done|]. by rewrite Ht, IH. Qed.

Lemma market_makeNode tm o mk l r : market (makeNode tm o mk l r) = mk.
Proof. unfold makeNode. by destruct (estimateImpact tm o r) as [[? ?] ?]. Qed.

Lemma layer_makeNode tm o mk l r : layer (makeNode tm o mk l r) = l.
Proof. unfold makeNode. by destruct (estimateImpact tm o r) as [[? ?] ?]. Qed.

Lemma sourceMarketId_makeEdge tm o sample cur mk r :
  sourceMarketId (makeEdge tm o sample cur mk r) = id cur.
Proof. unfold makeEdge. by destruct (estimateImpact tm o r) as [[? ?] ?]. Qed.

Lemma targetMarketId_makeEdge tm o sample cur mk r :
  targetMarketId (makeEdge tm o sample cur mk r) = id mk.
Proof. unfold makeEdge. by destruct (estimateImpact tm o r) as [[? ?] ?]. Qed.

Lemma gate_cases cand corr im :
  gate cand corr im = [] \/ exists r, gate cand corr im = [r] /\ hasHistoricalData r = true.
Proof.
  unfold gate. destruct (_ && _); [right|by left]. eexists. split; [done|done].
Qed.

(** *** What the gate lets through *)

Lemma Rabs_threshold_nonzero c : (0.20 <= Rabs c)%R -> c <> 0%R.
Proof. intros H ->. rewrite Rabs_R0 in H. lra. Qed.

Lemma gate_accepts cand corr im r :
  gate cand corr im = [r] ->
  (0.20 <= Rabs corr)%R /\ (0.5 <= c_strength cand)%R
  /\ r = {| v_marketId := c_marketId cand;
            v_reasoning := c_reasoning cand;
            v_timelag := c_timelag cand;
            v_strength := ((Rabs corr + c_strength cand) / 2)%R;
            v_impactDirection := c_impactDirection cand;
            v_correlation := Some corr;
            v_impactMagnitude := Some im;
            hasHistoricalData := true |}.
Proof.
  unfold gate.
  destruct (Rleb 0.20 (Rabs corr)) eqn:E1; [|done].
  destruct (Rleb 0.5 (c_strength cand)) eqn:E2; [|done].
  simpl. intros [= <-].
  apply Rleb_true in E1, E2. done.
Qed.

Lemma gate_rejects_weak cand corr im :
  (Rabs corr < 0.20)%R -> gate cand corr im = [].
Proof.
  intros H. unfold gate.
  by rewrite (proj2 (Rleb_false 0.20 (Rabs corr)) H).
Qed.

Lemma gate_rejects_unsure cand corr im :
  (c_strength cand < 0.5)%R -> gate cand corr im = [].
Proof.
  intros H. unfold gate.
  rewrite (proj2 (Rleb_false 0.5 (c_strength cand)) H). by rewrite andb_false_r.
Qed.

Lemma Gated_backed cand corr r :
  Gated cand corr r -> backedCorrelation r = Some corr.
Proof.
  intros [im H]. apply gate_accepts in H as (Hc & _ & ->).
  unfold backedCorrelation. simpl.
  by rewrite (proj2 (Reqb_false corr 0) (Rabs_threshold_nonzero _ Hc)).
Qed.

Lemma estimateImpact_backed tm o r c :
  backedCorrelation r = Some c ->
  estimateImpact tm o r =
    ((Rabs c * (1.0 - triggerPrice tm o) * 0.5)%R,
     (if Rltb 0.6 (Rabs c) then HIGH else if Rltb 0.3 (Rabs c) then MEDIUM else LOW),
     claimedDirection (v_impactDirection r)).
Proof. intros H. unfold estimateImpact. by rewrite H. Qed.

Lemma estimateImpact_unbacked tm o r :
  backedCorrelation r = None ->
  estimateImpact tm o r =
    ((v_strength r * 0.10)%R, LOW, claimedDirection (v_impactDirection r)).
Proof. intros H. unfold estimateImpact. by rewrite H. Qed.

Lemma estimateImpact_direction tm o r :
  snd (estimateImpact tm o r) = claimedDirection (v_impactDirection r).
Proof.
  destruct (backedCorrelation r) as [c|] eqn:E.
  - by rewrite (estimateImpact_backed _ _ _ _ E).
  - by rewrite (estimateImpact_unbacked _ _ _ E).
Qed.

Lemma claimedDirection_cases d :
  claimedDirection d = 1%R \/ claimedDirection d = (-1)%R.
Proof. unfold claimedDirection. destruct (String.eqb d "increase"); auto. Qed.

Lemma makeNode_prediction tm o mk l r :
  predictedProbability (makeNode tm o mk l r)
  = clamp (currentProbability (makeNode tm o mk l r)
           + snd (estimateImpact tm o r) * fst (fst (estimateImpact tm o r))).
Proof. unfold makeNode. by destruct (estimateImpact tm o r) as [[mag lvl] dir]. Qed.

Lemma makeNode_current tm o mk l r :
  currentProbability (makeNode tm o mk l r)
  = or_default (at_index (outcomePrices mk) 0) 0.5.
Proof. unfold makeNode. by destruct (estimateImpact tm o r) as [[mag lvl] dir]. Qed.

Lemma makeEdge_fields tm o sample cur mk r :
  strength (makeEdge tm o sample cur mk r) = v_strength r
  /\ direction (makeEdge tm o sample cur mk r)
     = match backedCorrelation r with
       | Some c => if Rltb 0 c then "increase" else "decrease"
       | None => v_impactDirection r
       end
  /\ historicalCorrelation (makeEdge tm o sample cur mk r)
     = match backedCorrelation r with
       | Some c => Some {| cd_marketId := id mk;
                           cd_correlation := c;
                           cd_confidence := Rabs c;
                           cd_lagDays := 0;
                           cd_sampleSize := sample;
                           cd_direction := if Rltb 0 c then positive else negative |}
       | None => None
       end
  /\ llmGenerated (makeEdge tm o sample cur mk r) = negb (hasHistoricalData r).
Proof. unfold makeEdge. by destruct (estimateImpact tm o r) as [[mag lvl] dir]. Qed.

Lemma triggerPrice_listed tm o price :
  at_index (outcomePrices tm) (indexOf (outcomes tm) o) = Some price ->
  price <> 0%R -> triggerPrice tm o = price.
Proof.
  intros H Hp. unfold triggerPrice, or_default. rewrite H.
  by rewrite (proj2 (Reqb_false price 0) Hp).
Qed.

Section BuilderFacts.

Variable JSON_parse : string -> option json.
Variable getPriceHistory : nat -> json -> string -> Z -> list PricePoint.
Variable findInterestingCausalMarkets :
  nat -> PolymarketMarket -> string -> list PolymarketMarket -> list Candidate.
Variables (tm : PolymarketMarket) (outcome : string).
Variables (available : list PolymarketMarket) (params : PropagationParams).
Variable history : list PricePoint.

Local Abbreviation Proposed := (Proposed findInterestingCausalMarkets outcome).
Local Abbreviation Origin := (Origin findInterestingCausalMarkets tm outcome).
Local Abbreviation Shape := (Shape findInterestingCausalMarkets tm outcome params).
Local Abbreviation Inv := (Inv findInterestingCausalMarkets tm outcome params).
Local Abbreviation Expanding := (Expanding findInterestingCausalMarkets tm outcome params).
Local Abbreviation validate := (validateOne JSON_parse getPriceHistory history available).
Local Abbreviation admission := (admitOne tm outcome available params (length history)).
Local Abbreviation step := (expand JSON_parse getPriceHistory findInterestingCausalMarkets
                               tm outcome available params history).
Local Abbreviation loop fuel :=
  (run JSON_parse getPriceHistory findInterestingCausalMarkets fuel
       tm outcome available params history).

Lemma Origin_sameCore n n' e : sameCore n' n -> Origin n e -> Origin n' e.
Proof.
  intros Hs (cand & corr & r & sample & cur & HP & HG & He & Hn).
  exists cand, corr, r, sample, cur. repeat split; try done.
  - by rewrite (sameCore_market _ _ Hs).
  - rewrite (sameCore_market _ _ Hs), (sameCore_layer _ _ Hs).
    by eapply sameCore_trans.
Qed.

(** What one candidate adds to [validatedResults]: nothing, its downgraded
    copy, or what the gate lets through. *)
Lemma validateOne_cases processed acc cand r :
  r ∈ snd (validate processed acc cand) ->
  r ∈ snd acc \/ r = downgraded cand \/ exists corr, Gated cand corr r.
Proof.
  unfold validateOne. destruct acc as [now validated]. simpl.
  destruct (find _ available) as [market|]; [|by left].
  destruct (bool_decide _); [by left|].
  assert (forall now' : nat, r ∈ snd (now', validated ++ [downgraded cand]) ->
            r ∈ validated \/ r = downgraded cand \/ exists corr, Gated cand corr r)
    as Hdown.
  { simpl. intros _ Hr. apply elem_of_app in Hr as [Hr|Hr]; [by left|].
    apply list_elem_of_singleton in Hr as ->. right. by left. }
  destruct (extractTokenId JSON_parse market) as [token|]; [|apply Hdown].
  destruct (_ || _); [apply Hdown|].
  destruct (_ <? _)%nat; [apply Hdown|].
  destruct (_ <? _)%nat; [apply Hdown|].
  simpl. intros Hr. apply elem_of_app in Hr as [Hr|Hr]; [by left|]. right. right.
  match type of Hr with r ∈ gate _ ?c ?im =>
    exists c, im; destruct (gate_cases cand c im) as [E|(r' & E & _)];
    rewrite E in Hr end.
  - by apply elem_of_nil in Hr.
  - apply list_elem_of_singleton in Hr as ->. done.
Qed.

Lemma validateOne_results processed acc cand r :
  r ∈ snd (validate processed acc cand) ->
  hasHistoricalData r = true ->
  r ∈ snd acc \/ exists corr, Gated cand corr r.
Proof.
  intros Hr Hd. destruct (validateOne_cases _ _ _ _ Hr) as [?|[->|?]]; auto.
  discriminate Hd.
Qed.

Lemma validateAll_results processed cands : forall acc r,
  r ∈ snd (fold_left (validate processed) cands acc) ->
  hasHistoricalData r = true ->
  r ∈ snd acc \/ Good cands r.
Proof.
  induction cands as [|cand cands IH]; intros acc r Hr Hd; simpl in *; [by left|].
  destruct (IH _ _ Hr Hd) as [Hacc|(c & corr & Hc & HG)].
  - destruct (validateOne_results _ _ _ _ Hacc Hd) as [?|[corr HG]]; [by left|].
    right. exists cand, corr. split; [by left|done].
  - right. exists c, corr. split; [by right|done].
Qed.

Lemma Expanding_weaken cur l k k' st :
  (k <= k')%nat -> Expanding cur l k st -> Expanding cur l k' st.
Proof. intros Hk [? ? ? ? ? ? ?]. split; try done. lia. Qed.

(** One admission keeps the shape and spends one unit of the current
    market's budget. *)
Lemma admission_expanding cur l k st r :
  Expanding (id cur) l k st ->
  (exists cand corr, Proposed cand /\ Gated cand corr r) ->
  Expanding (id cur) l (S k) (admission cur l st r).
Proof.
  intros HE (cand & corr & HP & HG).
  unfold admitOne.
  destruct (find _ available) as [mk|] eqn:Hfind;
    [|by apply (Expanding_weaken _ _ k); [lia|]].
  destruct (bool_decide_reflect (id mk ∈ processedMarkets st)) as [Hin|Hfresh];
    [by apply (Expanding_weaken _ _ k); [lia|]|].
  destruct HE as [[Htrig Hnd Hproc Hlay Hdep Hq Hqnd Hqdep] Hcur Hdepth Hreq Hspent Hbud Hun].
  destruct Htrig as (n0 & ns & Hnodes & Hn0 & Horig & Hlink).
  set (edge := makeEdge tm outcome (length history) cur mk r).
  set (node := pushIncoming edge (makeNode tm outcome mk (l + 1) r)).
  assert (Hfresh' : id mk ∉ map nodeId (st_nodes st)) by (by rewrite <- Hproc).
  pose proof (linkSource_sameCore (id cur) edge (st_nodes st ++ [node])) as Hsame.
  assert (Hsig : signature (linkSource (id cur) edge (st_nodes st ++ [node]))
                 = signature (st_nodes st) ++ [(id mk, S l)]).
  { rewrite signature_linkSource, signature_app. subst node.
    unfold signature at 2, nodeId. cbn [map pushIncoming market layer].
    by rewrite market_makeNode, layer_makeNode, Nat.add_1_r. }
  assert (Hids : map nodeId (linkSource (id cur) edge (st_nodes st ++ [node]))
                 = map nodeId (st_nodes st) ++ [id mk]).
  { rewrite <- !map_fst_signature, Hsig, map_app. done. }
  assert (Hsrc : sourceMarketId edge = id cur) by apply sourceMarketId_makeEdge.
  assert (Htgt : targetMarketId edge = id mk) by apply targetMarketId_makeEdge.
  assert (Hmk : market node = mk) by apply market_makeNode.
  assert (Hly : layer node = S l)
    by (subst node; cbn [pushIncoming layer]; rewrite layer_makeNode; lia).
  assert (Hcur_ne : id mk <> id cur).
  { intros E. apply Hfresh'. rewrite E. by eapply signature_nodeId. }
  assert (Hnew0 : outDegree (id mk) (st_edges st) = 0%nat).
  { apply outDegree_zero. intros e He Hs. apply Hfresh'.
    rewrite <- Hs, <- map_fst_signature. eapply Linked_source; [exact Hlink|done]. }
  split; [split| | | | | |]; simpl.
  - (* trigger, origins, links *)
    pose proof Hsame as Hsame'.
    replace (st_nodes st ++ [node]) with (n0 :: (ns ++ [node])) in Hsame' at 2
      by (by rewrite Hnodes).
    apply Forall2_cons_inv_r in Hsame' as (n0' & ns' & Hs0 & Hss & E).
    exists n0', ns'. split; [done|].
    split; [by eapply sameCore_trans|]. split.
    + eapply Forall2_sameCore_l; [apply Origin_sameCore|exact Hss|].
      apply Forall2_app; [done|]. constructor; [|constructor].
      exists cand, corr, r, (length history), cur. rewrite Hmk, Hly.
      repeat split; try done.
      unfold node. replace (l + 1)%nat with (S l) by lia. apply sameCore_refl.
    + rewrite Hsig.
      eapply Forall2_sameCore_l; [apply Linked_sameCore|exact Hss|].
      apply Forall2_app.
      * eapply Forall2_impl; [exact Hlink|]. intros n e.
        apply Linked_mono. intros x Hx. apply elem_of_app. by left.
      * constructor; [|constructor]. split; [by rewrite Htgt; unfold nodeId; rewrite Hmk|].
        exists l. split; [|done].
        rewrite Hsrc. apply elem_of_app. by left.
  - rewrite Hids. apply NoDup_app. split; [done|]. split.
    + intros x Hx Hx'. apply list_elem_of_singleton in Hx' as ->. done.
    + apply NoDup_singleton.
  - intros i.
    rewrite Hids, elem_of_app, list_elem_of_singleton, elem_of_union, elem_of_singleton, Hproc.
    tauto.
  - apply Forall_forall. intros n Hn.
    destruct (proj1 (list_elem_of_lookup _ _) Hn) as [j Hj].
    destruct (Forall2_lookup_l _ _ _ _ _ Hsame Hj) as (n' & Hj' & Hs').
    rewrite (sameCore_layer _ _ Hs').
    apply list_elem_of_lookup_2 in Hj'. apply elem_of_app in Hj' as [Hold|Hnew].
    + rewrite Forall_forall in Hlay. by apply Hlay.
    + apply list_elem_of_singleton in Hnew as ->. rewrite Hly.
      unfold MAX_DEPTH in *. lia.
  - apply Forall_forall. intros n Hn.
    destruct (proj1 (list_elem_of_lookup _ _) Hn) as [j Hj].
    destruct (Forall2_lookup_l _ _ _ _ _ Hsame Hj) as (n' & Hj' & Hs').
    rewrite (sameCore_layer _ _ Hs').
    apply list_elem_of_lookup_2 in Hj'. apply elem_of_app in Hj' as [Hold|Hnew].
    + rewrite Forall_forall in Hdep. by apply Hdep.
    + apply list_elem_of_singleton in Hnew as ->. rewrite Hly. lia.
  - rewrite Hsig.
    assert (Forall (fun q => (id (fst q), snd q) ∈ signature (st_nodes st) ++ [(id mk, S l)])
                   (marketsToProcess st)) as Hold.
    { eapply Forall_impl; [exact Hq|]. intros q Hq'. apply elem_of_app. by left. }
    destruct (_ && _); [|done].
    apply Forall_app. split; [done|]. constructor; [|constructor]. simpl.
    apply elem_of_app. right. replace (l + 1)%nat with (S l) by lia. constructor.
  - destruct (_ && _); [|done].
    rewrite map_app. simpl. apply NoDup_app. split; [done|]. split.
    + intros x Hx Hx'. apply list_elem_of_singleton in Hx' as ->.
      apply Hfresh'. apply elem_of_map in Hx as (q & -> & Hq').
      rewrite Forall_forall in Hq. eapply signature_nodeId. by apply Hq.
    + apply NoDup_singleton.
  - destruct (Rltb 0.5 (v_strength r)); [|done].
    destruct (Z.ltb_spec (Z.of_nat (l + 1)) (maxDepth params)) as [Hlt|_]; [|done].
    apply Forall_app. split; [done|]. constructor; [|constructor]. by right.
  - rewrite Hsig. apply elem_of_app. by left.
  - done.
  - done.
  - rewrite outDegree_snoc. destruct (decide _); lia.
  - rewrite Hsig. intros i l' Hi Hne.
    rewrite outDegree_snoc, Hsrc. destruct (decide (id cur = i)); [done|].
    rewrite Nat.add_0_r.
    apply elem_of_app in Hi as [Hi|Hi]; [by apply Hbud|].
    apply list_elem_of_singleton in Hi as [= -> ->]. rewrite Hnew0. lia.
  - assert (Forall (fun q => id (fst q) <> id cur
                /\ outDegree (id (fst q)) (st_edges st ++ [edge]) = 0%nat)
                   (marketsToProcess st)) as Hold.
    { eapply Forall_impl; [exact Hun|]. intros q [Hne H0]. split; [done|].
      rewrite outDegree_snoc, Hsrc, H0. destruct (decide _); [done|lia]. }
    destruct (_ && _); [|done].
    apply Forall_app. split; [done|]. constructor; [|constructor]. simpl.
    split; [done|]. rewrite outDegree_snoc, Hsrc, Hnew0.
    destruct (decide _); [done|lia].
Qed.

Lemma admissions_expanding cur l rs : forall k st,
  Expanding (id cur) l k st ->
  Forall (fun r => exists cand corr, Proposed cand /\ Gated cand corr r) rs ->
  Expanding (id cur) l (k + length rs) (fold_left (admission cur l) rs st).
Proof.
  induction rs as [|r rs IH]; intros k st HE Hrs; simpl.
  - by rewrite Nat.add_0_r.
  - apply Forall_cons in Hrs as [Hr Hrs].
    replace (k + S (length rs))%nat with (S k + length rs)%nat by lia.
    apply IH; [|done]. by apply admission_expanding.
Qed.

Lemma admission_pending cur l st r :
  (pending (marketsToProcess (admission cur l st r))
   <= pending (marketsToProcess st) + weight (S l))%nat.
Proof.
  unfold admitOne. destruct (find _ available); [|lia].
  destruct (bool_decide _); [lia|]. cbn [marketsToProcess].
  destruct (_ && _); [|lia].
  rewrite pending_app. cbn [pending fold_right snd]. rewrite Nat.add_1_r. lia.
Qed.

Lemma admissions_pending cur l rs : forall st,
  (pending (marketsToProcess (fold_left (admission cur l) rs st))
   <= pending (marketsToProcess st) + length rs * weight (S l))%nat.
Proof.
  induction rs as [|r rs IH]; intros st; cbn [fold_left length]; [lia|].
  etrans; [apply IH|]. pose proof (admission_pending cur l st r).
  rewrite Nat.mul_succ_l. lia.
Qed.

Lemma continues_true st :
  continues st = true ->
  exists m l rest, marketsToProcess st = (m, l) :: rest /\ (l < MAX_DEPTH)%nat.
Proof.
  unfold continues. destruct (marketsToProcess st) as [|[m l] rest]; [done|].
  intros H. apply Nat.ltb_lt in H. by exists m, l, rest.
Qed.

(** The candidates admitted by one iteration went through the gate and are
    at most as many as the layer allows. *)
Lemma sortedResults_good cap now current pool processed start :
  let validated :=
    snd (fold_left (validate processed)
                   (findInterestingCausalMarkets now current outcome pool) (start, [])) in
  let sortedResults :=
    take cap (sort byKeyDescending (filter (fun r => hasHistoricalData r) validated)) in
  (length sortedResults <= cap)%nat
  /\ Forall (fun r => exists cand corr, Proposed cand /\ Gated cand corr r) sortedResults.
Proof.
  intros validated sorted. split.
  - subst sorted. rewrite length_take. lia.
  - apply Forall_forall. intros r Hr.
    apply elem_of_take in Hr as (j & Hr & _).
    apply list_elem_of_lookup_2, elem_of_sort, list_elem_of_filter in Hr as [Hd Hr].
    apply Is_true_eq_true in Hd.
    destruct (validateAll_results _ _ _ _ Hr Hd) as [Hnil|(cand & corr & Hc & HG)].
    + by apply elem_of_nil in Hnil.
    + exists cand, corr. split; [|done]. by exists now, current, pool.
Qed.

(** One iteration of the loop keeps the invariant and shortens the work
    that is left. *)
Lemma expand_inv st :
  Inv st -> continues st = true ->
  Inv (step st)
  /\ (pending (marketsToProcess (step st)) < pending (marketsToProcess st))%nat.
Proof.
  intros [[Htrig Hnd Hproc Hlay Hdep Hq Hqnd Hqdep] Hbud Hun] Hc.
  destruct (continues_true _ Hc) as (m & l & rest & Hqueue & Hl).
  unfold expand. rewrite Hqueue.
  set (pool := filter _ available).
  destruct (fold_left _ _ _) as [now validated] eqn:Hfold.
  pose proof (sortedResults_good (getMaxNodesForLayer (l + 1)) (tick st) m pool
                (processedMarkets st) (S (tick st))) as Hgood.
  rewrite Hfold in Hgood. simpl in Hgood. destruct Hgood as [Hlen Hgood].
  set (sortedResults := take _ _) in *.
  set (st0 := {| st_nodes := st_nodes st; st_edges := st_edges st;
                 processedMarkets := processedMarkets st;
                 marketsToProcess := rest; tick := now |}).
  rewrite Hqueue in Hq, Hqnd, Hun, Hqdep. simpl in Hqnd.
  apply Forall_cons in Hq as [Hm Hq]. apply Forall_cons in Hun as [Hm0 Hun].
  apply Forall_cons in Hqdep as [Hmdep Hqdep]. simpl in Hmdep.
  apply NoDup_cons in Hqnd as [Hmfresh Hqnd]. simpl in Hm, Hm0.
  assert (Expanding (id m) l 0 st0) as HE.
  { split; [split| | | | | |]; simpl; try done.
    - lia.
    - intros i l' Hi _. by apply Hbud.
    - apply Forall_forall. intros q Hq'. split.
      + intros E. apply Hmfresh. rewrite <- E. apply elem_of_map. by exists q.
      + rewrite Forall_forall in Hun. by apply Hun. }
  pose proof (admissions_expanding m l sortedResults 0 st0 HE Hgood) as HE'.
  pose proof (admissions_pending m l sortedResults st0) as Hpend.
  destruct HE' as [Hshape Hcur Hdepth Hreq Hspent Hbud' Hun'].
  split.
  - split; [done| |].
    + intros i l' Hi. destruct (decide (i = id m)) as [->|Hne]; [|by apply Hbud'].
      rewrite (signature_functional _ _ _ _ (sh_nodup _ _ _ _ _ Hshape) Hi Hcur).
      rewrite Nat.add_1_r in Hlen. cbn [Nat.add] in Hspent. lia.
    + eapply Forall_impl; [exact Hun'|]. by intros q [_ ?].
  - unfold st0 in Hpend. cbn [marketsToProcess] in Hpend.
    change (pending ((m, l) :: rest)) with (weight l + pending rest)%nat.
    rewrite (weight_budget l Hl). rewrite Nat.add_1_r in Hlen.
    assert (length sortedResults * weight (S l)
            <= getMaxNodesForLayer (S l) * weight (S l))%nat
      by (apply Nat.mul_le_mono_r; lia).
    unfold st0. lia.
Qed.

Lemma run_inv fuel : forall st st',
  Inv st -> loop fuel st = Some st' -> Inv st'.
Proof.
  induction fuel as [|fuel IH]; intros st st' HI; simpl.
  - destruct (continues st); [done|]. by intros [= <-].
  - destruct (continues st) eqn:Hc; [|by intros [= <-]].
    apply IH. by apply expand_inv.
Qed.

Lemma run_total fuel : forall st,
  Inv st -> (pending (marketsToProcess st) <= fuel)%nat ->
  exists st', loop fuel st = Some st'.
Proof.
  induction fuel as [|fuel IH]; intros st HI Hp; simpl.
  - destruct (continues st) eqn:Hc; [|by eexists].
    destruct (continues_true _ Hc) as (m & l & rest & Hq & Hl).
    rewrite Hq in Hp. simpl in Hp. rewrite (weight_budget l Hl) in Hp. lia.
  - destruct (continues st) eqn:Hc; [|by eexists].
    destruct (expand_inv st HI Hc) as [HI' Hlt]. apply IH; [done|lia].
Qed.

End BuilderFacts.

Section Built.

Variable JSON_parse : string -> option json.
Variable getPriceHistory : nat -> json -> string -> Z -> list PricePoint.
Variable findInterestingCausalMarkets :
  nat -> PolymarketMarket -> string -> list PolymarketMarket -> list Candidate.

Lemma initialState_inv tm outcome params :
  Inv findInterestingCausalMarkets tm outcome params (initialState tm outcome).
Proof.
  split; [split|..]; simpl.
  - exists (triggerNode tm outcome), []. repeat split; try constructor.
    apply sameCore_refl.
  - apply NoDup_singleton.
  - intros i. by rewrite elem_of_singleton, list_elem_of_singleton.
  - constructor; [|constructor]. simpl. unfold MAX_DEPTH. lia.
  - constructor; [|constructor]. simpl. left. lia.
  - constructor; [|constructor]. simpl. constructor.
  - apply NoDup_singleton.
  - constructor; [|constructor]. by left.
  - intros i l _. unfold outDegree. simpl. lia.
  - constructor; [|constructor]. done.
Qed.

(** The builder always returns, and what it returns satisfies the
    invariant. *)
Lemma createSimulationScenario_built name description tm outcome available params :
  exists st,
    Inv findInterestingCausalMarkets tm outcome params st
    /\ createSimulationScenario JSON_parse getPriceHistory findInterestingCausalMarkets
         name description tm outcome available params
       = Some {| name := name;
                 description := description;
                 triggerMarket := tm;
                 triggerOutcome := outcome;
                 triggerProbability := 1.0;
                 nodes := st_nodes st;
                 edges := st_edges st;
                 metadata := computeMetadata (st_nodes st) (st_edges st) |}.
Proof.
  unfold createSimulationScenario.
  pose proof (initialState_inv tm outcome params) as HI.
  destruct (run_total JSON_parse getPriceHistory findInterestingCausalMarkets
              tm outcome available params
              (triggerHistory JSON_parse getPriceHistory tm) LOOP_BOUND _ HI)
    as [st Hst]; [simpl; unfold LOOP_BOUND; lia|].
  exists st. split; [by eapply run_inv|]. by rewrite Hst.
Qed.

(** *** Consequences of the invariant for a built graph *)

Section Consequences.

Variables (tm : PolymarketMarket) (outcome : string) (params : PropagationParams).
Variable st : BuilderState.
Hypothesis HI : Inv findInterestingCausalMarkets tm outcome params st.

Local Abbreviation Origin := (Origin findInterestingCausalMarkets tm outcome).

Lemma built_nodes :
  exists n0 ns,
    st_nodes st = n0 :: ns
    /\ sameCore n0 (triggerNode tm outcome)
    /\ Forall2 Origin ns (st_edges st)
    /\ Forall2 (Linked (signature (st_nodes st))) ns (st_edges st)
    /\ NoDup (map nodeId (n0 :: ns)).
Proof.
  destruct HI as [[Htrig Hnd _ _ _ _ _ _] _ _].
  destruct Htrig as (n0 & ns & E & H0 & HO & HL).
  exists n0, ns. repeat split; try done. by rewrite <- E.
Qed.

(** The only edge that points at a node is the one created with it. *)
Lemma edge_of_node e n :
  e ∈ st_edges st -> n ∈ st_nodes st -> targetMarketId e = nodeId n ->
  exists n0 ns i,
    st_nodes st = n0 :: ns /\ ns !! i = Some n /\ st_edges st !! i = Some e.
Proof.
  destruct built_nodes as (n0 & ns & E & H0 & HO & HL & ND).
  intros He Hn Ht. exists n0, ns.
  apply list_elem_of_lookup in He as [j Hj].
  destruct (Forall2_lookup_r _ _ _ _ _ HL Hj) as (nj & Hnj & [Htj _]).
  exists j. repeat split; try done.
  rewrite E in Hn. apply list_elem_of_lookup in Hn as [a Ha].
  assert (map nodeId (n0 :: ns) !! a = Some (nodeId n)) as Ha'
    by (by apply lookup_map).
  assert (map nodeId (n0 :: ns) !! S j = Some (nodeId n)) as Hb'.
  { rewrite <- Ht, Htj. by apply (lookup_map nodeId (n0 :: ns) (S j)). }
  pose proof (NoDup_lookup _ _ _ _ ND Ha' Hb') as ->.
  simpl in Ha. congruence.
Qed.

Lemma built_trigger_first :
  exists n0 ns, st_nodes st = n0 :: ns /\ nodeId n0 = id tm /\ layer n0 = 0%nat
    /\ predictedProbability n0 = 1%R
    /\ Forall (fun n => (1 <= layer n)%nat) ns.
Proof.
  destruct built_nodes as (n0 & ns & E & [out H0] & HO & HL & ND).
  exists n0, ns. subst n0. repeat split; try done.
  - simpl. lra.
  - clear -HL. induction HL as [|n e ns es [_ (l & _ & Hl)] _ IH]; constructor; [lia|done].
Qed.

Lemma built_edge_endpoints e :
  e ∈ st_edges st ->
  exists s n, s ∈ st_nodes st /\ n ∈ st_nodes st
    /\ nodeId s = sourceMarketId e /\ nodeId n = targetMarketId e
    /\ layer n = S (layer s).
Proof.
  destruct built_nodes as (n0 & ns & E & H0 & HO & HL & ND).
  intros He. apply list_elem_of_lookup in He as [j Hj].
  destruct (Forall2_lookup_r _ _ _ _ _ HL Hj) as (n & Hn & [Ht (l & Hl & Hly)]).
  apply elem_of_signature in Hl as (s & Hs & Hsid & Hsl).
  exists s, n. repeat split; try done.
  - rewrite E. apply elem_of_cons. right. by eapply list_elem_of_lookup_2.
  - lia.
Qed.

Lemma filter_le_outDegree (Q : SimulationNode -> Prop) `{!forall n, Decision (Q n)}
    parent ns es :
  Forall2 (fun n e => Q n -> sourceMarketId e = parent) ns es ->
  (length (filter Q ns) <= outDegree parent es)%nat.
Proof.
  unfold outDegree.
  induction 1 as [|n e ns es Hne _ IH]; [done|].
  rewrite !filter_cons. destruct (decide (Q n)) as [Hq|_].
  - rewrite decide_True by auto. simpl. lia.
  - destruct (decide _); simpl; lia.
Qed.

Lemma built_children_bound parent k :
  (length (childrenAt parent k (st_nodes st) (st_edges st))
   <= getMaxNodesForLayer k)%nat.
Proof.
  destruct (childrenAt parent k (st_nodes st) (st_edges st)) as [|c cs] eqn:Hch;
    [simpl; lia|].
  rewrite <- Hch.
  assert (c ∈ childrenAt parent k (st_nodes st) (st_edges st)) as Hc
    by (rewrite Hch; constructor).
  apply list_elem_of_filter in Hc as [[Hk Hex] Hcn].
  apply Exists_exists in Hex as (e & He & Hsrc & Htgt).
  destruct (edge_of_node e c He Hcn Htgt) as (n0 & ns & i & E & Hi & Hei).
  destruct built_nodes as (n0' & ns' & E' & H0 & HO & HL & ND).
  rewrite E in E'. injection E' as <- <-.
  destruct (Forall2_lookup_lr _ _ _ _ _ _ HL Hi Hei) as [_ (l & Hl & Hly)].
  rewrite Hsrc in Hl.
  etrans; [|replace k with (S l) by lia; by apply (inv_budget _ _ _ _ _ HI parent l)].
  unfold childrenAt. rewrite E, filter_cons.
  destruct (decide _) as [[_ Hex0]|_].
  { exfalso. apply Exists_exists in Hex0 as (e0 & He0 & _ & Ht0).
    destruct (edge_of_node e0 n0 He0) as (n0'' & ns'' & j & E'' & Hj & _);
      [rewrite E; constructor|done|].
    rewrite E in E''. injection E'' as <- <-.
    apply NoDup_cons in ND as [Hn0 _]. apply Hn0.
    apply elem_of_map. exists n0. split; [done|]. by eapply list_elem_of_lookup_2. }
  apply filter_le_outDegree.
  apply Forall2_same_length_lookup_2; [by eapply Forall2_length|].
  intros j n e' Hn He' [_ Hex'].
  apply Exists_exists in Hex' as (e'' & He'' & Hs'' & Ht'').
  destruct (edge_of_node e'' n He'') as (n0'' & ns'' & j' & E'' & Hj' & Hej');
    [rewrite E; apply elem_of_cons; right; by eapply list_elem_of_lookup_2|done|].
  rewrite E in E''. injection E'' as <- <-.
  assert (j' = j) as ->.
  { apply NoDup_cons in ND as [_ ND].
    eapply (NoDup_lookup _ _ _ _ ND); by apply lookup_map. }
  congruence.
Qed.

Lemma built_layer1_bound : (length (nodesAt 1 (st_nodes st)) <= 3)%nat.
Proof.
  destruct built_nodes as (n0 & ns & E & H0 & HO & HL & ND).
  destruct built_trigger_first as (n0' & ns' & E' & Hid & Hl0 & _ & Hpos).
  rewrite E in E'. injection E' as <- <-.
  unfold nodesAt. rewrite E, filter_cons.
  destruct (decide _) as [H1|_]; [lia|].
  etrans; [|apply (inv_budget _ _ _ _ _ HI (id tm) 0%nat)].
  - apply filter_le_outDegree.
    eapply Forall2_impl; [exact HL|].
    intros n e [_ (l & Hl & Hly)] H1.
    assert (l = 0%nat) as -> by lia.
    rewrite E in Hl. simpl in Hl. apply elem_of_cons in Hl as [[= -> _]|Hl]; [done|].
    apply elem_of_signature in Hl as (s & Hs & _ & Hs0).
    rewrite Forall_forall in Hpos. specialize (Hpos s Hs). lia.
  - rewrite E. simpl. rewrite Hid, Hl0. constructor.
Qed.

End Consequences.

End Built.

End EngineFacts.

(** ** The loop detector *)

Module LoopDetectorFacts.
Import Js JsFacts Types Propagation EngineSpec Examples.

Lemma unseenTargets_le seen edges : (unseenTargets seen edges <= length edges)%nat.
Proof. apply length_filter. Qed.

Lemma unseenTargets_mono (seen seen' : gset string) edges :
  seen ⊆ seen' -> (unseenTargets seen' edges <= unseenTargets seen edges)%nat.
Proof.
  intros Hsub. unfold unseenTargets.
  induction edges as [|e edges IH]; [done|].
  rewrite !filter_cons.
  destruct (decide (targetMarketId e ∉ seen')) as [H'|H'].
  - rewrite decide_True by set_solver. simpl. lia.
  - destruct (decide _); simpl; lia.
Qed.

Lemma unseenTargets_visit (seen : gset string) edges e :
  e ∈ edges -> targetMarketId e ∉ seen ->
  (unseenTargets ({[ targetMarketId e ]} ∪ seen) edges < unseenTargets seen edges)%nat.
Proof.
  intros He Hfresh. unfold unseenTargets.
  induction edges as [|e' edges IH]; [by apply elem_of_nil in He|].
  rewrite !filter_cons.
  apply elem_of_cons in He as [<-|He].
  - rewrite decide_False by set_solver. rewrite decide_True by done. simpl.
    pose proof (unseenTargets_mono seen ({[targetMarketId e]} ∪ seen) edges) as Hm.
    unfold unseenTargets in Hm. specialize (Hm ltac:(set_solver)). lia.
  - specialize (IH He).
    destruct (decide (targetMarketId e' ∉ {[targetMarketId e]} ∪ seen)) as [H'|H'].
    + rewrite decide_True by set_solver. simpl. lia.
    + destruct (decide _); simpl; lia.
Qed.

Lemma follow_None recur path es : fold_left (follow recur path) es None = None.
Proof. by induction es. Qed.

(** With fuel beyond the number of edges that still lead to unvisited
    markets, [dfs] returns. *)
Lemma dfs_total edges fuel : forall nodeId path s,
  (unseenTargets ({[ nodeId ]} ∪ visited s) edges < fuel)%nat ->
  exists s', dfs fuel edges nodeId path s = Some s'
             /\ {[ nodeId ]} ∪ visited s ⊆ visited s'.
Proof.
  induction fuel as [|fuel IH]; intros nodeId path s Hfuel; [lia|].
  cbn [dfs].
  set (entered := {| loops := loops s; visited := {[nodeId]} ∪ visited s;
                     recursionStack := {[nodeId]} ∪ recursionStack s |}).
  assert (forall out s1,
            Forall (fun e => e ∈ edges) out ->
            visited entered ⊆ visited s1 ->
            exists s2, fold_left (follow (dfs fuel edges) (path ++ [nodeId])) out (Some s1)
                       = Some s2 /\ visited s1 ⊆ visited s2) as Hfold.
  { induction out as [|e out IHout]; intros s1 Hout Hsub; cbn [fold_left];
      [by eexists|].
    apply Forall_cons in Hout as [He Hout].
    assert (exists s1', follow (dfs fuel edges) (path ++ [nodeId]) (Some s1) e = Some s1'
                        /\ visited s1 ⊆ visited s1') as (s1' & -> & Hsub').
    { unfold follow.
      destruct (bool_decide_reflect (targetMarketId e ∈ visited s1)) as [Hv|Hv].
      - destruct (bool_decide _); [destruct (_ =? _)%Z|]; eexists; split; done.
      - destruct (IH (targetMarketId e) (path ++ [nodeId]) s1) as (s1' & Hs1' & Hsub').
        + pose proof (unseenTargets_visit (visited s1) edges e He Hv).
          pose proof (unseenTargets_mono _ _ edges Hsub). simpl in *. lia.
        + exists s1'. split; [done|]. etrans; [|exact Hsub']. apply union_subseteq_r. }
    destruct (IHout s1' Hout) as (s2 & -> & Hs2); [by etrans|].
    eexists. split; [done|]. by etrans. }
  destruct (Hfold (filter (fun e => String.eqb (sourceMarketId e) nodeId = true) edges)
                  entered) as (s2 & -> & Hs2).
  - apply Forall_forall. intros e He. by apply list_elem_of_filter in He as [_ ?].
  - done.
  - eexists. split; [done|]. simpl in *. done.
Qed.

(** Along a ranking that every edge climbs, [dfs] finds no loop and leaves
    the recursion stack as it found it. *)
Lemma dfs_ranked rank edges fuel : forall nodeId path s s',
  Ranked rank edges ->
  (forall x, x ∈ recursionStack s -> (rank x < rank nodeId)%nat) ->
  dfs fuel edges nodeId path s = Some s' ->
  loops s' = loops s /\ recursionStack s' = recursionStack s.
Proof.
  induction fuel as [|fuel IH]; intros nodeId path s s' HR Hstack; [done|].
  cbn [dfs].
  set (entered := {| loops := loops s; visited := {[nodeId]} ∪ visited s;
                     recursionStack := {[nodeId]} ∪ recursionStack s |}).
  assert (forall out s1 s2,
            Forall (fun e => e ∈ edges /\ sourceMarketId e = nodeId) out ->
            loops s1 = loops s ->
            recursionStack s1 = {[nodeId]} ∪ recursionStack s ->
            fold_left (follow (dfs fuel edges) (path ++ [nodeId])) out (Some s1) = Some s2 ->
            loops s2 = loops s /\ recursionStack s2 = {[nodeId]} ∪ recursionStack s)
    as Hfold.
  { induction out as [|e out IHout]; intros s1 s2 Hout Hl Hst; simpl;
      [by intros [= <-]|].
    apply Forall_cons in Hout as [[He Hsrc] Hout].
    assert (rank nodeId < rank (targetMarketId e))%nat as Hclimb.
    { unfold Ranked in HR. rewrite Forall_forall in HR.
      specialize (HR e He). by rewrite Hsrc in HR. }
    assert (targetMarketId e ∉ recursionStack s1) as Hoff.
    { rewrite Hst. intros Hin. apply elem_of_union in Hin as [Hin|Hin].
      - apply elem_of_singleton in Hin. rewrite Hin in Hclimb. lia.
      - specialize (Hstack _ Hin). lia. }
    destruct (bool_decide (targetMarketId e ∈ visited s1)).
    - rewrite bool_decide_eq_false_2 by done. by apply IHout.
    - destruct (dfs fuel edges (targetMarketId e) (path ++ [nodeId]) s1) as [s1'|] eqn:Hd;
        [|by rewrite follow_None].
      assert (forall x, x ∈ recursionStack s1 -> (rank x < rank (targetMarketId e))%nat)
        as Hstack1.
      { intros x Hx. rewrite Hst in Hx. apply elem_of_union in Hx as [Hx|Hx].
        - apply elem_of_singleton in Hx as ->. lia.
        - specialize (Hstack _ Hx). lia. }
      destruct (IH _ _ _ _ HR Hstack1 Hd) as [Hl' Hst'].
      apply IHout; [done|congruence|congruence]. }
  destruct (fold_left _ _ _) as [s2|] eqn:Hf; [|done].
  intros [= <-]. simpl.
  assert (Forall (fun e => e ∈ edges /\ sourceMarketId e = nodeId)
            (filter (fun e => String.eqb (sourceMarketId e) nodeId = true) edges)) as Hout.
  { apply Forall_forall. intros e He. apply list_elem_of_filter in He as [Hs He].
    split; [done|]. by apply String.eqb_eq. }
  destruct (Hfold _ entered s2 Hout eq_refl eq_refl Hf) as [Hl2 Hst2].
  split; [done|]. rewrite Hst2.
  assert (nodeId ∉ recursionStack s) by (intros Hin; specialize (Hstack _ Hin); lia).
  apply set_eq. intros x.
  rewrite elem_of_difference, elem_of_union, elem_of_singleton.
  split; [tauto|]. intros Hx. split; [by right|]. by intros ->.
Qed.

(** [detectFeedbackLoops] always returns. *)
Lemma detectFeedbackLoops_total nodes edges :
  exists found, detectFeedbackLoops nodes edges = Some found.
Proof.
  unfold detectFeedbackLoops.
  assert (forall s, exists s', fold_left (startFrom edges) nodes (Some s) = Some s') as H.
  { induction nodes as [|n nodes IH]; intros s; cbn [fold_left startFrom];
      [by eexists|].
    destruct (bool_decide _); [apply IH|].
    destruct (dfs_total edges (S (length edges)) (id (market n)) [] s) as (s' & -> & _).
    - pose proof (unseenTargets_le ({[id (market n)]} ∪ visited s) edges). lia.
    - apply IH. }
  destruct (H {| loops := []; visited := ∅; recursionStack := ∅ |}) as [s' ->].
  by eexists.
Qed.

(** On a ranked edge set the detector reports nothing. *)
Lemma detectFeedbackLoops_ranked rank nodes edges :
  Ranked rank edges -> detectFeedbackLoops nodes edges = Some [].
Proof.
  intros HR. unfold detectFeedbackLoops.
  assert (forall s, loops s = [] -> recursionStack s = ∅ ->
            exists s', fold_left (startFrom edges) nodes (Some s) = Some s'
                       /\ loops s' = []) as H.
  { induction nodes as [|n nodes IH]; intros s Hl Hst; cbn [fold_left startFrom];
      [by eexists|].
    destruct (bool_decide _); [by apply IH|].
    destruct (dfs_total edges (S (length edges)) (id (market n)) [] s) as (s' & Hd & _).
    - pose proof (unseenTargets_le ({[id (market n)]} ∪ visited s) edges). lia.
    - rewrite Hd.
      assert (forall x, x ∈ recursionStack s -> (rank x < rank (id (market n)))%nat)
        as Hempty.
      { intros x Hx. rewrite Hst in Hx. by apply not_elem_of_empty in Hx. }
      destruct (dfs_ranked rank edges _ _ _ _ _ HR Hempty Hd) as [Hl' Hst'].
      apply IH; congruence. }
  destruct (H {| loops := []; visited := ∅; recursionStack := ∅ |}) as (s' & -> & Hl);
    [done|done|].
  simpl. by rewrite Hl.
Qed.

(** A ranked edge set has no cycle. *)
Lemma Ranked_Reach rank edges i j :
  Ranked rank edges -> Reach edges i j -> (rank i < rank j)%nat.
Proof.
  intros HR. unfold Ranked in HR. rewrite Forall_forall in HR.
  induction 1 as [e He|e j He _ IH].
  - apply HR. by apply list_elem_of_In.
  - specialize (HR e (proj2 (list_elem_of_In _ _) He)). lia.
Qed.

(** On a two-cycle the detector reports the cycle. *)
Example detectFeedbackLoops_finds_cycle :
  detectFeedbackLoops exGraphNodes
    [exPlainEdge "trigger" "target"; exPlainEdge "target" "trigger"]
  = Some [["target"; "trigger"]].
Proof. vm_compute. reflexivity. Qed.

End LoopDetectorFacts.

(** ** The propagator *)

Module PropagatorFacts.
Import Js JsFacts Types Propagation EngineSpec Examples.

Lemma Propagated_refl edges n : Propagated edges n n.
Proof. repeat split; auto. Qed.

Lemma updateNode_cases edges state n :
  updateNode edges state n = n
  \/ (incomingTo edges n <> []
      /\ market (updateNode edges state n) = market n
      /\ layer (updateNode edges state n) = layer n
      /\ currentProbability (updateNode edges state n) = currentProbability n
      /\ (0.01 <= predictedProbability (updateNode edges state n) <= 0.99)%R).
Proof.
  unfold updateNode. fold (incomingTo edges n).
  destruct (incomingTo edges n) as [|e es] eqn:E; [by left|].
  destruct (fold_left _ _ _) as [totalInfluence totalWeight].
  destruct (Rltb 0 totalWeight); [|by left].
  right. repeat split; try done; simpl; apply clamp_range.
Qed.

Lemma updateNode_Propagated edges state n' n :
  layer n' <> 0%nat -> Propagated edges n' n ->
  Propagated edges (updateNode edges state n') n.
Proof.
  intros Hpos (Hm & Hl & Hc & Hfix & Hclamp).
  destruct (updateNode_cases edges state n') as [->|(Hin & Hm' & Hl' & Hc' & Hr)];
    [done|].
  repeat split; try congruence.
  - intros [H0|Hnone]; [congruence|].
    exfalso. apply Hin. unfold incomingTo in *. by rewrite Hm.
  - by right.
Qed.

Lemma visit_Propagated edges currentLayer state original i :
  (1 <= currentLayer)%nat ->
  Forall2 (Propagated edges) state original ->
  Forall2 (Propagated edges) (visit edges currentLayer state i) original.
Proof.
  intros Hpos HF. unfold visit.
  destruct (state !! i) as [n'|] eqn:Hi; [|done].
  destruct (Nat.eqb_spec (layer n') currentLayer) as [El|_]; [|done].
  destruct (Forall2_lookup_l _ _ _ _ _ HF Hi) as (n & Hn & HP).
  rewrite <- (list_insert_id original i n Hn).
  apply Forall2_insert; [done|].
  apply updateNode_Propagated; [lia|done].
Qed.

Lemma processLayer_Propagated edges currentLayer state original :
  (1 <= currentLayer)%nat ->
  Forall2 (Propagated edges) state original ->
  Forall2 (Propagated edges) (processLayer edges state currentLayer) original.
Proof.
  intros Hpos. unfold processLayer.
  generalize (seq 0 (length state)). intros idxs. revert state.
  induction idxs as [|i idxs IH]; intros state HF; simpl; [done|].
  apply IH. by apply visit_Propagated.
Qed.

Lemma layers_Propagated edges layers : forall state original,
  Forall (fun l => (1 <= l)%nat) layers ->
  Forall2 (Propagated edges) state original ->
  Forall2 (Propagated edges) (fold_left (processLayer edges) layers state) original.
Proof.
  induction layers as [|l layers IH]; intros state original Hl HF; simpl; [done|].
  apply Forall_cons in Hl as [Hl Hls].
  apply IH; [done|]. by apply processLayer_Propagated.
Qed.

(** C8: [propagateProbabilities] returns the nodes in layer order (a stable
    sort of its input), position by position the same markets, layers and
    current probabilities; a node on layer 0 and a node without incoming
    edge is returned exactly as it was (so with its predicted probability,
    probability change, percent change and impact level); and a node that
    was changed has its predicted probability in [0.01, 0.99]. *)
Theorem propagateProbabilities_frame (nodes : list SimulationNode)
    (edges : list CausalLink) :
  sort byLayer nodes ≡ₚ nodes
  /\ Forall2 (fun n' n =>
        market n' = market n
        /\ layer n' = layer n
        /\ currentProbability n' = currentProbability n
        /\ (layer n = 0%nat \/ incomingTo edges n = [] ->
            n' = n
            /\ predictedProbability n' = predictedProbability n
            /\ probabilityChange n' = probabilityChange n
            /\ percentChange n' = percentChange n
            /\ impactLevel n' = impactLevel n)
        /\ (n' = n \/ (0.01 <= predictedProbability n' <= 0.99)%R))
       (propagateProbabilities nodes edges) (sort byLayer nodes).
Proof.
  split; [apply sort_perm|].
  unfold propagateProbabilities.
  eapply Forall2_impl.
  - apply layers_Propagated.
    + apply Forall_forall. intros l Hl.
      apply list_elem_of_In, in_seq in Hl. lia.
    + apply Forall2_same_length_lookup_2; [done|].
      intros i x y Hx Hy. rewrite Hx in Hy. injection Hy as <-.
      apply Propagated_refl.
  - intros n' n (Hm & Hl & Hc & Hfix & Hclamp).
    split; [done|]. split; [done|]. split; [done|]. split; [|done].
    intros Hkeep. by rewrite (Hfix Hkeep).
Qed.

Lemma exGraph_update :
  predictedProbability
    (updateNode exGraphEdges
       [exPlainNode exTrigger 0.20 1 0; exPlainNode exTarget 0.30 0.30 1]
       (exPlainNode exTarget 0.30 0.30 1))
  = 0.70%R.
Proof.
  unfold updateNode.
  change (filter _ exGraphEdges) with exGraphEdges.
  unfold exGraphEdges. cbn [fold_left]. unfold addInfluence.
  change (find _ _) with (Some (exPlainNode exTrigger 0.20 1 0)).
  cbn [exPlainNode exPlainEdge predictedProbability currentProbability strength
       direction confidenceLevel String.eqb Ascii.eqb Bool.eqb].
  rewrite (proj2 (Rltb_true 0 (0 + 1.0))) by lra.
  cbn [predictedProbability].
  rewrite clamp_id; lra.
Qed.

(** The propagator at work: the nodes come back in layer order, the trigger
    untouched, and the target moved from 0.30 to 0.70 by its one incoming
    edge (shock 0.80, strength 0.5, direction "increase", weight 1.0). *)
Example propagateProbabilities_example :
  map (fun n => id (market n)) (propagateProbabilities exGraphNodes exGraphEdges)
    = ["trigger"; "target"]
  /\ map predictedProbability (propagateProbabilities exGraphNodes exGraphEdges)
    = [1%R; 0.70%R].
Proof.
  unfold propagateProbabilities.
  change (sort byLayer exGraphNodes)
    with [exPlainNode exTrigger 0.20 1 0; exPlainNode exTarget 0.30 0.30 1].
  change (fold_right Nat.max 0%nat (map layer _)) with 1%nat.
  cbn [seq fold_left]. unfold processLayer.
  cbn [length seq fold_left].
  change (visit exGraphEdges 1
            [exPlainNode exTrigger 0.20 1 0; exPlainNode exTarget 0.30 0.30 1] 0)
    with [exPlainNode exTrigger 0.20 1 0; exPlainNode exTarget 0.30 0.30 1].
  unfold visit. cbn [lookup list_lookup exPlainNode layer Nat.eqb].
  cbn [insert list_insert map predictedProbability].
  split.
  - unfold updateNode. change (filter _ exGraphEdges) with exGraphEdges.
    unfold exGraphEdges. cbn [fold_left].
    destruct (addInfluence _ _ _) as [ti tw]. by destruct (Rltb 0 tw).
  - f_equal. f_equal. apply exGraph_update.
Qed.

End PropagatorFacts.
(** ** Where the nodes and edges of a built graph come from *)

Module ProvenanceFacts.
Import Js JsFacts PriceHistory Types Engine EngineSpec Vocabulary EngineFacts.

Section Provenance.

Variable JSON_parse : string -> option json.
Variable getPriceHistory : nat -> json -> string -> Z -> list PricePoint.
Variable findInterestingCausalMarkets :
  nat -> PolymarketMarket -> string -> list PolymarketMarket -> list Candidate.
Variables (tm : PolymarketMarket) (outcome : string).
Variables (available : list PolymarketMarket) (params : PropagationParams).
Variable history : list PricePoint.

Local Abbreviation Proposed := (Proposed findInterestingCausalMarkets outcome).
Local Abbreviation Measured := (Measured JSON_parse getPriceHistory available history).
Local Abbreviation Traced :=
  (Traced JSON_parse getPriceHistory findInterestingCausalMarkets tm outcome
          available history).
Local Abbreviation Inv := (Inv findInterestingCausalMarkets tm outcome params).
Local Abbreviation Expanding := (Expanding findInterestingCausalMarkets tm outcome params).
Local Abbreviation validate := (validateOne JSON_parse getPriceHistory history available).
Local Abbreviation admission := (admitOne tm outcome available params (length history)).
Local Abbreviation step := (expand JSON_parse getPriceHistory findInterestingCausalMarkets
                               tm outcome available params history).
Local Abbreviation loop fuel :=
  (run JSON_parse getPriceHistory findInterestingCausalMarkets fuel
       tm outcome available params history).

Lemma Measured_Gated market cand corr r : Measured market cand corr r -> Gated cand corr r.
Proof. intros (_ & token & now & _ & _ & _ & H). by eexists. Qed.

(** The market a candidate names is the one the admission finds again. *)
Lemma Measured_market market cand corr r :
  Measured market cand corr r ->
  find (fun m => String.eqb (id m) (v_marketId r)) available = Some market
  /\ c_marketId cand = id market.
Proof.
  intros (Hfind & token & now & _ & _ & _ & H).
  apply gate_accepts in H as (_ & _ & ->). cbn [v_marketId]. split; [done|].
  apply find_Some in Hfind as [E _]. apply String.eqb_eq in E. done.
Qed.

(** What the validator does with a candidate whose market can be measured:
    the gate decides. *)
Lemma validateOne_measures processed now validated cand market tokenId :
  find (fun m => String.eqb (id m) (c_marketId cand)) available = Some market ->
  id market ∉ processed ->
  extractTokenId JSON_parse market = Some tokenId ->
  truthy tokenId = true ->
  (10 <= length history)%nat ->
  (10 <= length (getPriceHistory now tokenId "1w" 60))%nat ->
  let aligned := alignPriceSeries history (getPriceHistory now tokenId "1w" 60) in
  (10 <= length (prices1 aligned))%nat ->
  validate processed (now, validated) cand
  = (S now,
     validated ++ gate cand (calculateCorrelation (prices1 aligned) (prices2 aligned))
                       (calculateImpactMagnitude (prices1 aligned) (prices2 aligned) 0.05)).
Proof.
  intros Hfind Hfresh Htoken Htruthy Hh Hm aligned Ha. subst aligned.
  unfold validateOne. rewrite Hfind, bool_decide_eq_false_2, Htoken, Htruthy by done.
  destruct (Nat.ltb_spec (length history) 10) as [|_]; [lia|]. cbn [negb orb].
  destruct (Nat.ltb_spec (length (getPriceHistory now tokenId "1w" 60)) 10) as [|_]; [lia|].
  destruct (Nat.ltb_spec
              (length (prices1 (alignPriceSeries history
                                  (getPriceHistory now tokenId "1w" 60)))) 10)
    as [|_]; [lia|].
  done.
Qed.

(** A data-backed result that one candidate adds was measured. *)
Lemma validateOne_measured processed acc cand r :
  r ∈ snd (validate processed acc cand) ->
  hasHistoricalData r = true ->
  r ∈ snd acc \/ exists market corr, Measured market cand corr r.
Proof.
  unfold validateOne. destruct acc as [now validated]. simpl.
  destruct (find _ available) as [market|] eqn:Hfind; [|by left].
  destruct (bool_decide _); [by left|].
  assert (forall now' : nat, r ∈ snd (now', validated ++ [downgraded cand]) ->
            hasHistoricalData r = true ->
            r ∈ validated \/ exists market corr, Measured market cand corr r)
    as Hdown.
  { simpl. intros _ Hr Hd. apply elem_of_app in Hr as [Hr|Hr]; [by left|].
    apply list_elem_of_singleton in Hr as ->. discriminate Hd. }
  destruct (extractTokenId JSON_parse market) as [token|] eqn:Htoken; [|apply Hdown].
  destruct (_ || _); [apply Hdown|].
  destruct (_ <? _)%nat; [apply Hdown|].
  destruct (_ <? _)%nat eqn:Hlen; [apply Hdown|]. apply Nat.ltb_ge in Hlen.
  simpl. intros Hr _. apply elem_of_app in Hr as [Hr|Hr]; [by left|]. right.
  match type of Hr with r ∈ gate _ ?c ?im =>
    destruct (gate_cases cand c im) as [E|(r' & E & _)]; rewrite E in Hr end.
  - by apply elem_of_nil in Hr.
  - apply list_elem_of_singleton in Hr as ->.
    eexists market, _. split; [done|]. exists token, now. split; [done|].
    cbv zeta. split; [done|]. split; [reflexivity|done].
Qed.

Lemma validateAll_measured processed cands : forall acc r,
  r ∈ snd (fold_left (validate processed) cands acc) ->
  hasHistoricalData r = true ->
  r ∈ snd acc \/ exists cand market corr, In cand cands /\ Measured market cand corr r.
Proof.
  induction cands as [|cand cands IH]; intros acc r Hr Hd; simpl in *; [by left|].
  destruct (IH _ _ Hr Hd) as [Hacc|(c & market & corr & Hc & HM)].
  - destruct (validateOne_measured _ _ _ _ Hacc Hd) as [?|(market & corr & HM)];
      [by left|].
    right. exists cand, market, corr. split; [by left|done].
  - right. exists c, market, corr. split; [by right|done].
Qed.

(** The candidates admitted by one iteration were proposed and measured. *)
Lemma sortedResults_measured cap now current pool processed start :
  let validated :=
    snd (fold_left (validate processed)
                   (findInterestingCausalMarkets now current outcome pool) (start, [])) in
  let sortedResults :=
    take cap (sort byKeyDescending (filter (fun r => hasHistoricalData r) validated)) in
  Forall (fun r => exists cand market corr, Proposed cand /\ Measured market cand corr r)
         sortedResults.
Proof.
  intros validated sorted.
  apply Forall_forall. intros r Hr.
  apply elem_of_take in Hr as (j & Hr & _).
  apply list_elem_of_lookup_2, elem_of_sort, list_elem_of_filter in Hr as [Hd Hr].
  apply Is_true_eq_true in Hd.
  destruct (validateAll_measured _ _ _ _ Hr Hd) as [Hnil|(cand & market & corr & Hc & HM)].
  - by apply elem_of_nil in Hnil.
  - exists cand, market, corr. split; [|done]. by exists now, current, pool.
Qed.

Lemma Traced_sameCore n n' e : sameCore n' n -> Traced n e -> Traced n' e.
Proof.
  intros Hs (cand & corr & r & sample & cur & HP & HM & He & Hn).
  exists cand, corr, r, sample, cur.
  rewrite (sameCore_market _ _ Hs), (sameCore_layer _ _ Hs).
  split; [done|]. split; [done|]. split; [done|]. by eapply sameCore_trans.
Qed.

(** One admission traces the pair it creates and keeps the earlier pairs. *)
Lemma admission_traced cur l k st r :
  Expanding (id cur) l k st ->
  (exists cand market corr, Proposed cand /\ Measured market cand corr r) ->
  Forall2 Traced (tail (st_nodes st)) (st_edges st) ->
  Forall2 Traced (tail (st_nodes (admission cur l st r))) (st_edges (admission cur l st r)).
Proof.
  intros HE (cand & mk & corr & HP & HM) HT.
  destruct (Measured_market _ _ _ _ HM) as [Hfind Hid].
  unfold admitOne. rewrite Hfind.
  destruct (bool_decide _); [done|]. cbn [st_nodes st_edges].
  destruct HE as [[Htrig _ _ _ _ _ _ _] _ _ _ _ _ _].
  destruct Htrig as (n0 & ns & Hnodes & _).
  rewrite Hnodes in HT |- *. cbn [tail] in HT.
  set (edge := makeEdge tm outcome (length history) cur mk r).
  set (node := pushIncoming edge (makeNode tm outcome mk (l + 1) r)).
  pose proof (linkSource_sameCore (id cur) edge ((n0 :: ns) ++ [node])) as Hsame.
  rewrite <- app_comm_cons in Hsame |- *.
  apply Forall2_cons_inv_r in Hsame as (n0' & ns' & _ & Hss & ->). cbn [tail].
  eapply Forall2_sameCore_l; [apply Traced_sameCore|exact Hss|].
  apply Forall2_app; [done|]. constructor; [|constructor].
  assert (market node = mk) as Hmk by apply market_makeNode.
  assert (layer node = (l + 1)%nat) as Hly
    by (subst node; cbn [pushIncoming layer]; apply layer_makeNode).
  exists cand, corr, r, (length history), cur. rewrite Hmk, Hly.
  split; [done|]. split; [done|]. split; [done|]. apply sameCore_refl.
Qed.

Lemma admissions_traced cur l rs : forall k st,
  Expanding (id cur) l k st ->
  Forall (fun r => exists cand market corr, Proposed cand /\ Measured market cand corr r) rs ->
  Forall2 Traced (tail (st_nodes st)) (st_edges st) ->
  Forall2 Traced (tail (st_nodes (fold_left (admission cur l) rs st)))
          (st_edges (fold_left (admission cur l) rs st)).
Proof.
  induction rs as [|r rs IH]; intros k st HE Hrs HT; [done|].
  apply Forall_cons in Hrs as [Hr Hrs]. cbn [fold_left].
  apply (IH (S k) (admission cur l st r)).
  - apply (admission_expanding JSON_parse getPriceHistory); [done|].
    destruct Hr as (cand & mk & corr & HP & HM).
    exists cand, corr. split; [done|]. by eapply Measured_Gated.
  - done.
  - by apply (admission_traced cur l k).
Qed.

Lemma expand_traced st :
  Inv st -> continues st = true ->
  Forall2 Traced (tail (st_nodes st)) (st_edges st) ->
  Forall2 Traced (tail (st_nodes (step st))) (st_edges (step st)).
Proof.
  intros [[Htrig Hnd Hproc Hlay Hdep Hq Hqnd Hqdep] Hbud Hun] Hc HT.
  destruct (continues_true _ Hc) as (m & l & rest & Hqueue & Hl).
  unfold expand. rewrite Hqueue.
  set (pool := filter _ available).
  destruct (fold_left _ _ _) as [now validated] eqn:Hfold.
  pose proof (sortedResults_measured (getMaxNodesForLayer (l + 1)) (tick st) m pool
                (processedMarkets st) (S (tick st))) as Hgood.
  rewrite Hfold in Hgood. simpl in Hgood.
  set (sortedResults := take _ _) in *.
  set (st0 := {| st_nodes := st_nodes st; st_edges := st_edges st;
                 processedMarkets := processedMarkets st;
                 marketsToProcess := rest; tick := now |}).
  rewrite Hqueue in Hq, Hqnd, Hun, Hqdep. simpl in Hqnd.
  apply Forall_cons in Hq as [Hm Hq]. apply Forall_cons in Hun as [Hm0 Hun].
  apply Forall_cons in Hqdep as [Hmdep Hqdep]. simpl in Hmdep.
  apply NoDup_cons in Hqnd as [Hmfresh Hqnd]. simpl in Hm, Hm0.
  assert (Expanding (id m) l 0 st0) as HE.
  { split; [split| | | | | |]; simpl; try done.
    - lia.
    - intros i l' Hi _. by apply Hbud.
    - apply Forall_forall. intros q Hq'. split.
      + intros E. apply Hmfresh. rewrite <- E. apply elem_of_map. by exists q.
      + rewrite Forall_forall in Hun. by apply Hun. }
  by apply (admissions_traced m l sortedResults 0 st0 HE Hgood).
Qed.

Lemma run_traced fuel : forall st st',
  Inv st -> loop fuel st = Some st' ->
  Forall2 Traced (tail (st_nodes st)) (st_edges st) ->
  Forall2 Traced (tail (st_nodes st')) (st_edges st').
Proof.
  induction fuel as [|fuel IH]; intros st st' HI; cbn [run].
  - destruct (continues st); [done|]. by intros [= <-].
  - destruct (continues st) eqn:Hc; [|by intros [= <-]].
    intros Hr HT.
    apply (IH _ _ (proj1 (expand_inv JSON_parse getPriceHistory findInterestingCausalMarkets
                            tm outcome available params history st HI Hc)) Hr).
    by apply expand_traced.
Qed.

End Provenance.

End ProvenanceFacts.

(** ** The impact estimator, the validator and the built graph *)

Module GraphFacts.
Import Js JsFacts PriceHistory PriceHistoryFacts Types Engine EngineSpec Vocabulary
       EngineFacts ProvenanceFacts Propagation LoopDetectorFacts Examples.

Ltac rabs := unfold Rabs; destruct Rcase_abs; lra.

Lemma exValidated_gated d : gate (exCandidate d) 0.50 0 = [exValidated d].
Proof.
  unfold gate, exCandidate. cbn [c_strength].
  rewrite (proj2 (Rleb_true 0.20 (Rabs 0.50))) by rabs.
  rewrite (proj2 (Rleb_true 0.5 0.6)) by lra.
  reflexivity.
Qed.

Lemma exValidated_backed d : backedCorrelation (exValidated d) = Some 0.50%R.
Proof.
  unfold backedCorrelation, exValidated. cbn [hasHistoricalData v_correlation].
  by rewrite (proj2 (Reqb_false 0.50 0)) by lra.
Qed.

Lemma exTrigger_price : triggerPrice exTrigger "Yes" = 0.20%R.
Proof. apply triggerPrice_listed; [reflexivity|lra]. Qed.

Lemma exTarget_current d :
  currentProbability (makeNode exTrigger "Yes" exTarget 1 (exValidated d)) = 0.30%R.
Proof.
  rewrite makeNode_current. unfold or_default, at_index. simpl.
  by rewrite (proj2 (Reqb_false 0.30 0)) by lra.
Qed.

Lemma exTarget_predicted d :
  predictedProbability (makeNode exTrigger "Yes" exTarget 1 (exValidated d))
  = clamp (0.30 + claimedDirection d * 0.20).
Proof.
  rewrite makeNode_prediction, exTarget_current.
  rewrite (estimateImpact_backed _ _ _ _ (exValidated_backed d)), exTrigger_price.
  cbn [fst snd exValidated v_impactDirection]. f_equal.
  replace (Rabs 0.50) with 0.50%R by rabs. lra.
Qed.

Lemma claimedDirection_increase : claimedDirection "increase" = 1%R.
Proof. reflexivity. Qed.

Lemma claimedDirection_decrease : claimedDirection "decrease" = (-1)%R.
Proof. reflexivity. Qed.

(** The worked example of the specification: correlation 0.50, claimed
    strength 0.6 and claimed direction "increase" give final strength 0.55
    and move the target from 0.30 to 0.50. *)
Example worked_example :
  v_strength (exValidated "increase") = 0.55%R
  /\ predictedProbability (makeNode exTrigger "Yes" exTarget 1 (exValidated "increase"))
     = 0.50%R.
Proof.
  split.
  - cbn [exValidated v_strength]. replace (Rabs 0.50) with 0.50%R by rabs. lra.
  - rewrite exTarget_predicted, claimedDirection_increase.
    rewrite clamp_id; lra.
Qed.

(** The same candidate with the claimed direction "decrease": it passes the
    gate with the positive correlation 0.50, the direction applied is -1 and
    the target's probability is lowered from 0.30 to 0.10, while the edge is
    labelled "increase" after the sign of the correlation. *)
Example worked_example_decrease :
  gate (exCandidate "decrease") 0.50 0 = [exValidated "decrease"]
  /\ backedCorrelation (exValidated "decrease") = Some 0.50%R
  /\ snd (estimateImpact exTrigger "Yes" (exValidated "decrease")) = (-1)%R
  /\ currentProbability (makeNode exTrigger "Yes" exTarget 1 (exValidated "decrease"))
     = 0.30%R
  /\ predictedProbability (makeNode exTrigger "Yes" exTarget 1 (exValidated "decrease"))
     = 0.10%R
  /\ direction (makeEdge exTrigger "Yes" 20 exTrigger exTarget (exValidated "decrease"))
     = "increase".
Proof.
  split; [apply exValidated_gated|]. split; [apply exValidated_backed|].
  split; [by rewrite estimateImpact_direction|].
  split; [apply exTarget_current|]. split.
  - rewrite exTarget_predicted, claimedDirection_decrease.
    rewrite clamp_id; lra.
  - destruct (makeEdge_fields exTrigger "Yes" 20 exTrigger exTarget (exValidated "decrease"))
      as (_ & -> & _).
    rewrite exValidated_backed. by rewrite (proj2 (Rltb_true 0 0.50)) by lra.
Qed.

(** *** A run of the builder *)

Lemma exSeries_aligned :
  alignPriceSeries exSeries exSeries
  = {| prices1 := swinging; prices2 := swinging;
       timestamps := [0; 3600; 7200; 10800; 14400; 18000; 21600; 25200; 28800; 32400]%Z |}.
Proof. reflexivity. Qed.

Lemma variance_swinging : variance swinging = 0.0625%R.
Proof.
  unfold variance, swinging, sum. cbn [length map fold_left].
  replace (INR 10) with 10%R by (simpl; lra). lra.
Qed.

Lemma exSeries_correlation : calculateCorrelation swinging swinging = 1%R.
Proof.
  apply calculateCorrelation_self; [simpl; lia|].
  rewrite variance_swinging. lra.
Qed.

Lemma exGate_accepts im :
  gate (exCandidate "decrease") 1 im
  = [ {| v_marketId := "target"; v_reasoning := "shared driver"; v_timelag := "days";
         v_strength := ((Rabs 1 + 0.6) / 2)%R; v_impactDirection := "decrease";
         v_correlation := Some 1%R; v_impactMagnitude := Some im;
         hasHistoricalData := true |} ].
Proof.
  unfold gate, exCandidate. cbn [c_strength].
  rewrite (proj2 (Rleb_true 0.20 (Rabs 1))) by rabs.
  rewrite (proj2 (Rleb_true 0.5 0.6)) by lra.
  reflexivity.
Qed.

Lemma exAccepted_backed : backedCorrelation exAccepted = Some 1%R.
Proof.
  unfold backedCorrelation, exAccepted. cbn [hasHistoricalData v_correlation].
  by rewrite (proj2 (Reqb_false 1 0)) by lra.
Qed.

Lemma exAccepted_strong : Rltb 0.5 (v_strength exAccepted) = true.
Proof. apply Rltb_true. cbn [exAccepted v_strength]. replace (Rabs 1) with 1%R by rabs. lra. Qed.

Lemma ex_sorted :
  take 3 (sort byKeyDescending (filter (fun r => hasHistoricalData r) [exAccepted]))
  = [exAccepted].
Proof. reflexivity. Qed.

Lemma ex_admission now :
  admitOne exTrigger "Yes" [exTarget] exParams 10 exTrigger 0
           {| st_nodes := [triggerNode exTrigger "Yes"];
              st_edges := [];
              processedMarkets := {[ "trigger" ]};
              marketsToProcess := [];
              tick := now |}
           exAccepted
  = {| st_nodes := [pushOutgoing exEdge (triggerNode exTrigger "Yes"); exNode];
       st_edges := [exEdge];
       processedMarkets := {[ "target" ]} ∪ {[ "trigger" ]};
       marketsToProcess := [(exTarget, 1%nat)];
       tick := now |}.
Proof.
  unfold admitOne.
  change (find _ [exTarget]) with (Some exTarget). cbv iota.
  cbn [processedMarkets].
  rewrite bool_decide_eq_false_2 by (rewrite elem_of_singleton; done).
  rewrite exAccepted_strong.
  change (Z.of_nat (0 + 1) <? maxDepth exParams)%Z with true.
  reflexivity.
Qed.

(** The runs below hold for every parser that reads the token texts of the
    two example markets as [JSON.parse] does. *)
Section Run.

Variable parse : string -> option json.
Hypothesis parse_trigger :
  parse (tokenText "trigger-token") = Some (JArr [JStr "trigger-token"]).
Hypothesis parse_target :
  parse (tokenText "target-token") = Some (JArr [JStr "target-token"]).

Lemma exTrigger_token : extractTokenId parse exTrigger = Some (JStr "trigger-token").
Proof.
  unfold extractTokenId, exTrigger. cbn [clobTokenIds]. by rewrite parse_trigger.
Qed.

Lemma exTarget_token : extractTokenId parse exTarget = Some (JStr "target-token").
Proof.
  unfold extractTokenId, exTarget. cbn [clobTokenIds]. by rewrite parse_target.
Qed.

Lemma exAccepted_validated processed now :
  "target" ∉ processed ->
  validateOne parse exHistory exSeries [exTarget] processed (now, [])
              (exCandidate "decrease")
  = (S now, [exAccepted]).
Proof.
  intros Hp. unfold validateOne.
  change (find _ [exTarget]) with (Some exTarget). cbv iota.
  change (id exTarget) with "target".
  rewrite bool_decide_eq_false_2 by done.
  rewrite exTarget_token.
  change (negb (truthy (JStr "target-token")) || (length exSeries <? 10)%nat) with false.
  unfold exHistory. change (length exSeries <? 10)%nat with false.
  rewrite exSeries_aligned. cbn [prices1 prices2].
  change (length swinging <? 10)%nat with false. cbv iota.
  rewrite exSeries_correlation, exGate_accepts. reflexivity.
Qed.

(** The first iteration admits the target; the second finds nothing. *)
Lemma ex_first_iteration :
  expand parse exHistory exGenerator exTrigger "Yes" [exTarget] exParams exSeries
         (initialState exTrigger "Yes")
  = {| st_nodes := [pushOutgoing exEdge (triggerNode exTrigger "Yes"); exNode];
       st_edges := [exEdge];
       processedMarkets := {[ "target" ]} ∪ {[ "trigger" ]};
       marketsToProcess := [(exTarget, 1%nat)];
       tick := 3 |}.
Proof.
  unfold expand, initialState.
  cbn [marketsToProcess tick processedMarkets st_nodes st_edges].
  set (pool := filter _ _).
  change (exGenerator 1 exTrigger "Yes" pool) with [exCandidate "decrease"].
  cbn [fold_left]. change (id exTrigger) with "trigger".
  rewrite exAccepted_validated by (rewrite elem_of_singleton; done).
  change (getMaxNodesForLayer (0 + 1)) with 3%nat.
  rewrite ex_sorted. cbn [fold_left].
  apply ex_admission.
Qed.

Lemma ex_second_iteration (st : BuilderState) :
  marketsToProcess st = [(exTarget, 1%nat)] ->
  expand parse exHistory exGenerator exTrigger "Yes" [exTarget] exParams exSeries st
  = {| st_nodes := st_nodes st;
       st_edges := st_edges st;
       processedMarkets := processedMarkets st;
       marketsToProcess := [];
       tick := S (tick st) |}.
Proof. intros Hq. unfold expand. rewrite Hq. reflexivity. Qed.

Lemma ex_history : triggerHistory parse exHistory exTrigger = exSeries.
Proof. unfold triggerHistory. by rewrite exTrigger_token. Qed.

Lemma ex_run :
  run parse exHistory exGenerator LOOP_BOUND exTrigger "Yes" [exTarget] exParams
      exSeries (initialState exTrigger "Yes")
  = Some {| st_nodes := [pushOutgoing exEdge (triggerNode exTrigger "Yes"); exNode];
            st_edges := [exEdge];
            processedMarkets := {[ "target" ]} ∪ {[ "trigger" ]};
            marketsToProcess := [];
            tick := 4 |}.
Proof.
  unfold LOOP_BOUND. cbn [run].
  change (continues (initialState exTrigger "Yes")) with true. cbv iota.
  rewrite ex_first_iteration.
  cbn [continues marketsToProcess]. change (1 <? MAX_DEPTH)%nat with true. cbv iota.
  rewrite ex_second_iteration by reflexivity.
  reflexivity.
Qed.

Lemma ex_scenario :
  createSimulationScenario parse exHistory exGenerator "run" "example"
                           exTrigger "Yes" [exTarget] exParams
  = Some {| name := "run"; description := "example";
            triggerMarket := exTrigger; triggerOutcome := "Yes";
            triggerProbability := 1.0;
            nodes := [pushOutgoing exEdge (triggerNode exTrigger "Yes"); exNode];
            edges := [exEdge];
            metadata :=
              computeMetadata [pushOutgoing exEdge (triggerNode exTrigger "Yes"); exNode]
                              [exEdge] |}.
Proof. unfold createSimulationScenario. rewrite ex_history, ex_run. reflexivity. Qed.

(** *** A run without price history *)

Lemma exBare_validated processed now :
  "target" ∉ processed ->
  validateOne parse exHistory exSeries [exBare] processed (now, [])
              (exCandidate "decrease")
  = (now, [downgraded (exCandidate "decrease")]).
Proof.
  intros Hp. unfold validateOne.
  change (find _ [exBare]) with (Some exBare). cbv iota.
  change (id exBare) with "target".
  rewrite bool_decide_eq_false_2 by done.
  reflexivity.
Qed.

Lemma exBare_run :
  run parse exHistory exGenerator LOOP_BOUND exTrigger "Yes" [exBare] exParams
      exSeries (initialState exTrigger "Yes")
  = Some {| st_nodes := [triggerNode exTrigger "Yes"];
            st_edges := [];
            processedMarkets := {[ "trigger" ]};
            marketsToProcess := [];
            tick := 2 |}.
Proof.
  unfold LOOP_BOUND. cbn [run].
  change (continues (initialState exTrigger "Yes")) with true. cbv iota.
  unfold expand at 1, initialState.
  cbn [marketsToProcess tick processedMarkets st_nodes st_edges].
  set (pool := filter _ _).
  change (exGenerator 1 exTrigger "Yes" pool) with [exCandidate "decrease"].
  cbn [fold_left]. change (id exTrigger) with "trigger".
  rewrite exBare_validated by (rewrite elem_of_singleton; done).
  reflexivity.
Qed.

Lemma exBare_scenario :
  createSimulationScenario parse exHistory exGenerator "run" "example"
                           exTrigger "Yes" [exBare] exParams
  = Some {| name := "run"; description := "example";
            triggerMarket := exTrigger; triggerOutcome := "Yes";
            triggerProbability := 1.0;
            nodes := [triggerNode exTrigger "Yes"];
            edges := [];
            metadata := computeMetadata [triggerNode exTrigger "Yes"] [] |}.
Proof. unfold createSimulationScenario. rewrite ex_history, exBare_run. reflexivity. Qed.

End Run.

(** [exParse] reads the two token texts as [JSON.parse] does. *)
Lemma exParse_tokens :
  exParse (tokenText "trigger-token") = Some (JArr [JStr "trigger-token"])
  /\ exParse (tokenText "target-token") = Some (JArr [JStr "target-token"]).
Proof. split; reflexivity. Qed.

Lemma exEdge_fields :
  cd_correlation <$> historicalCorrelation exEdge = Some 1%R
  /\ direction exEdge = "increase"
  /\ strength exEdge = 0.8%R.
Proof.
  destruct (makeEdge_fields exTrigger "Yes" 10 exTrigger exTarget exAccepted)
    as (Es & Ed & Eh & _).
  unfold exEdge. rewrite Es, Ed, Eh, exAccepted_backed.
  rewrite (proj2 (Rltb_true 0 1)) by lra.
  repeat split. cbn [exAccepted v_strength]. replace (Rabs 1) with 1%R by rabs. lra.
Qed.

Lemma exNode_probabilities :
  currentProbability exNode = 0.30%R /\ predictedProbability exNode = 0.01%R.
Proof.
  unfold exNode. cbn [pushIncoming currentProbability predictedProbability].
  rewrite makeNode_prediction, makeNode_current.
  rewrite (estimateImpact_backed _ _ _ _ exAccepted_backed), exTrigger_price.
  cbn [fst snd exAccepted v_impactDirection]. rewrite claimedDirection_decrease.
  assert (or_default (at_index (outcomePrices exTarget) 0) 0.5 = 0.30%R) as ->.
  { unfold or_default, at_index. simpl. by rewrite (proj2 (Reqb_false 0.30 0)) by lra. }
  split; [done|].
  replace (Rabs 1) with 1%R by rabs.
  unfold clamp, Rmax, Rmin. repeat destruct Rle_dec; lra.
Qed.


(** C2, as stated, fails for a candidate without historical data.  The
    target has no price-series token, so the validator halves the claimed
    strength 0.6 and marks the result as not data-backed; the fallback
    magnitude of that result is 0.3 * 0.10 = 0.03, not 0.6 * 0.10; and the
    builder, which keeps data-backed results only, creates no node for the
    target at all. *)
Lemma fallback_is_halved_and_dropped :
  validateOne exParse exHistory exSeries [exBare] {[ "trigger" ]} (2%nat, [])
              (exCandidate "decrease")
  = (2%nat, [downgraded (exCandidate "decrease")])
  /\ hasHistoricalData (downgraded (exCandidate "decrease")) = false
  /\ fst (fst (estimateImpact exTrigger "Yes" (downgraded (exCandidate "decrease"))))
     = 0.03%R
  /\ (c_strength (exCandidate "decrease") * 0.10)%R = 0.06%R
  /\ createSimulationScenario exParse exHistory exGenerator "run" "example"
                              exTrigger "Yes" [exBare] exParams
     = Some {| name := "run"; description := "example";
               triggerMarket := exTrigger; triggerOutcome := "Yes";
               triggerProbability := 1.0;
               nodes := [triggerNode exTrigger "Yes"];
               edges := [];
               metadata := computeMetadata [triggerNode exTrigger "Yes"] [] |}.
Proof.
  destruct exParse_tokens as [Ht Hg].
  split; [apply exBare_validated; rewrite elem_of_singleton; done|].
  split; [reflexivity|].
  split; [|split].
  - rewrite estimateImpact_unbacked by reflexivity.
    cbn [fst downgraded exCandidate v_strength c_strength]. lra.
  - cbn [exCandidate c_strength]. lra.
  - by apply exBare_scenario.
Qed.

Section Graph.

Variable JSON_parse : string -> option json.
Variable getPriceHistory : nat -> json -> string -> Z -> list PricePoint.
Variable findInterestingCausalMarkets :
  nat -> PolymarketMarket -> string -> list PolymarketMarket -> list Candidate.

Local Abbreviation build :=
  (createSimulationScenario JSON_parse getPriceHistory findInterestingCausalMarkets).
Local Abbreviation Proposed := (Proposed findInterestingCausalMarkets).
Local Abbreviation Origin := (Origin findInterestingCausalMarkets).
Local Abbreviation Traced tm outcome available :=
  (Traced JSON_parse getPriceHistory findInterestingCausalMarkets tm outcome available
          (triggerHistory JSON_parse getPriceHistory tm)).

(** What one admission fixes about the node and the edge it creates. *)
Lemma Origin_facts tm outcome n e :
  Origin tm outcome n e ->
  exists cand corr,
    Proposed outcome cand
    /\ (0.20 <= Rabs corr)%R /\ (0.5 <= c_strength cand)%R
    /\ strength e = ((Rabs corr + c_strength cand) / 2)%R
    /\ direction e = (if Rltb 0 corr then "increase" else "decrease")
    /\ cd_correlation <$> historicalCorrelation e = Some corr
    /\ llmGenerated e = false
    /\ currentProbability n = or_default (at_index (outcomePrices (market n)) 0) 0.5
    /\ predictedProbability n
       = clamp (currentProbability n
                + claimedDirection (c_impactDirection cand)
                  * (Rabs corr * (1.0 - triggerPrice tm outcome) * 0.5)).
Proof.
  intros (cand & corr & r & sample & cur & HP & HG & He & [out Hn]).
  pose proof (Gated_backed _ _ _ HG) as Hb.
  destruct HG as [im HG]. apply gate_accepts in HG as (Hc & Hs & Hr).
  destruct (makeEdge_fields tm outcome sample cur (market n) r) as (Es & Ed & Eh & El).
  rewrite <- He in Es, Ed, Eh, El.
  pose proof (f_equal currentProbability Hn) as Hcur.
  pose proof (f_equal predictedProbability Hn) as Hpred.
  cbn [withOutgoing pushIncoming currentProbability predictedProbability] in Hcur, Hpred.
  rewrite makeNode_current in Hcur.
  rewrite makeNode_prediction, makeNode_current, <- Hcur in Hpred.
  rewrite (estimateImpact_backed _ _ _ _ Hb) in Hpred.
  exists cand, corr. rewrite Es, Ed, Eh, El, Hb, Hpred.
  subst r. cbn [fst snd v_strength v_impactDirection hasHistoricalData negb].
  repeat split; try done.
Qed.

(** The returned scenario, its trigger node and what one admission fixes
    about every other node and its edge. *)
Lemma built_graph name description tm outcome available params :
  exists st trigger rest,
    Inv findInterestingCausalMarkets tm outcome params st
    /\ build name description tm outcome available params
       = Some {| name := name; description := description;
                 triggerMarket := tm; triggerOutcome := outcome;
                 triggerProbability := 1.0;
                 nodes := st_nodes st; edges := st_edges st;
                 metadata := computeMetadata (st_nodes st) (st_edges st) |}
    /\ st_nodes st = trigger :: rest
    /\ sameCore trigger (triggerNode tm outcome)
    /\ Forall2 (Origin tm outcome) rest (st_edges st)
    /\ Forall2 (Linked (signature (st_nodes st))) rest (st_edges st).
Proof.
  destruct (createSimulationScenario_built JSON_parse getPriceHistory
              findInterestingCausalMarkets name description tm outcome available params)
    as (st & HI & Hb).
  destruct (built_nodes _ _ _ _ _ HI) as (n0 & ns & E & H0 & HO & HL & _).
  by exists st, n0, ns.
Qed.

(** What one admission fixes about the node and the edge it creates, with
    the candidate and the measurement they stem from. *)
Lemma Traced_facts tm outcome available n e :
  Traced tm outcome available n e ->
  exists cand tokenId now corr,
    Proposed outcome cand
    /\ find (fun m => String.eqb (id m) (c_marketId cand)) available = Some (market n)
    /\ c_marketId cand = nodeId n
    /\ extractTokenId JSON_parse (market n) = Some tokenId
    /\ (10 <= length (prices1 (alignPriceSeries
                                 (triggerHistory JSON_parse getPriceHistory tm)
                                 (getPriceHistory now tokenId "1w" 60))))%nat
    /\ corr = calculateCorrelation
                (prices1 (alignPriceSeries (triggerHistory JSON_parse getPriceHistory tm)
                                           (getPriceHistory now tokenId "1w" 60)))
                (prices2 (alignPriceSeries (triggerHistory JSON_parse getPriceHistory tm)
                                           (getPriceHistory now tokenId "1w" 60)))
    /\ (0.20 <= Rabs corr)%R /\ (0.5 <= c_strength cand)%R
    /\ strength e = ((Rabs corr + c_strength cand) / 2)%R
    /\ direction e = (if Rltb 0 corr then "increase" else "decrease")
    /\ cd_correlation <$> historicalCorrelation e = Some corr
    /\ predictedProbability n
       = clamp (currentProbability n
                + claimedDirection (c_impactDirection cand)
                  * (Rabs corr * (1.0 - triggerPrice tm outcome) * 0.5)).
Proof.
  intros (cand & corr & r & sample & cur & HP & HM & He & [out Hn]).
  pose proof (Gated_backed _ _ _ (Measured_Gated _ _ _ _ _ _ _ _ HM)) as Hb.
  destruct (Measured_market _ _ _ _ _ _ _ _ HM) as [_ Hid].
  destruct HM as (Hfind & token & now & Htoken & Hlen & Hcorr & HG).
  apply gate_accepts in HG as (Hc & Hs & Hr).
  destruct (makeEdge_fields tm outcome sample cur (market n) r) as (Es & Ed & Eh & El).
  rewrite <- He in Es, Ed, Eh, El.
  pose proof (f_equal currentProbability Hn) as Hcur.
  pose proof (f_equal predictedProbability Hn) as Hpred.
  cbn [withOutgoing pushIncoming currentProbability predictedProbability] in Hcur, Hpred.
  rewrite makeNode_current in Hcur.
  rewrite makeNode_prediction, makeNode_current, <- Hcur in Hpred.
  rewrite (estimateImpact_backed _ _ _ _ Hb) in Hpred.
  exists cand, token, now, corr. rewrite Es, Ed, Eh, Hb, Hpred.
  rewrite Hr. cbn [fst snd v_strength v_impactDirection].
  repeat split; done.
Qed.

(** The returned scenario: besides the trigger, every node was created with
    its edge by the admission of a measured candidate. *)
Lemma built_traced name description tm outcome available params :
  exists st trigger rest,
    build name description tm outcome available params
    = Some {| name := name; description := description;
              triggerMarket := tm; triggerOutcome := outcome;
              triggerProbability := 1.0;
              nodes := st_nodes st; edges := st_edges st;
              metadata := computeMetadata (st_nodes st) (st_edges st) |}
    /\ st_nodes st = trigger :: rest
    /\ sameCore trigger (triggerNode tm outcome)
    /\ Forall2 (Traced tm outcome available) rest (st_edges st)
    /\ Forall2 (Linked (signature (st_nodes st))) rest (st_edges st).
Proof.
  unfold createSimulationScenario.
  pose proof (initialState_inv findInterestingCausalMarkets tm outcome params) as HI.
  destruct (run_total JSON_parse getPriceHistory findInterestingCausalMarkets
              tm outcome available params
              (triggerHistory JSON_parse getPriceHistory tm) LOOP_BOUND _ HI)
    as [st Hst]; [simpl; unfold LOOP_BOUND; lia|].
  pose proof (run_inv _ _ _ _ _ _ _ _ _ _ _ HI Hst) as HI'.
  pose proof (run_traced _ _ _ _ _ _ _ _ _ _ _ HI Hst) as HT.
  destruct (built_nodes _ _ _ _ _ HI') as (n0 & ns & E & H0 & _ & HL & _).
  exists st, n0, ns. rewrite Hst. split; [done|]. split; [done|]. split; [done|].
  split; [|done].
  rewrite E in HT. apply HT. constructor.
Qed.


(** C2 (amended): for a candidate admitted with the historical correlation
    c the magnitude is |c| * shock * 0.5, where shock = 1.0 - the trigger
    node's current probability (the listed price of the simulated outcome
    when that is not 0), and the predicted probability is the current one
    plus or minus the magnitude, clamped to [0.01, 0.99].  Without
    historical data the validator halves the claimed strength, and the
    fallback magnitude is that halved strength * 0.10; the builder keeps
    data-backed results only, so in every built graph each node but the
    trigger was computed by the first formula and each edge is data-backed. *)
Theorem impact_magnitude name description tm outcome available params :
  (forall result c,
     backedCorrelation result = Some c ->
     fst (fst (estimateImpact tm outcome result))
     = (Rabs c * (1.0 - currentProbability (triggerNode tm outcome)) * 0.5)%R)
  /\ (forall price,
        at_index (outcomePrices tm) (indexOf (outcomes tm) outcome) = Some price ->
        price <> 0%R -> currentProbability (triggerNode tm outcome) = price)
  /\ (forall result,
        backedCorrelation result = None ->
        fst (fst (estimateImpact tm outcome result)) = (v_strength result * 0.10)%R)
  /\ (forall cand,
        hasHistoricalData (downgraded cand) = false
        /\ fst (fst (estimateImpact tm outcome (downgraded cand)))
           = (c_strength cand * 0.5 * 0.10)%R)
  /\ (forall mk l result,
        let node := makeNode tm outcome mk l result in
        let magnitude := fst (fst (estimateImpact tm outcome result)) in
        (predictedProbability node = clamp (currentProbability node + magnitude)
         \/ predictedProbability node = clamp (currentProbability node - magnitude))
        /\ (0.01 <= predictedProbability node <= 0.99)%R)
  /\ exists scenario trigger rest,
       build name description tm outcome available params = Some scenario
       /\ nodes scenario = trigger :: rest
       /\ currentProbability trigger = currentProbability (triggerNode tm outcome)
       /\ Forall2 (fun n e =>
             llmGenerated e = false
             /\ exists corr,
                  cd_correlation <$> historicalCorrelation e = Some corr
                  /\ let magnitude :=
                       (Rabs corr * (1.0 - currentProbability trigger) * 0.5)%R in
                     (predictedProbability n = clamp (currentProbability n + magnitude)
                      \/ predictedProbability n = clamp (currentProbability n - magnitude))
                     /\ (0.01 <= predictedProbability n <= 0.99)%R)
            rest (edges scenario).
Proof.
  split; [intros result c H; by rewrite (estimateImpact_backed _ _ _ _ H)|].
  split; [apply triggerPrice_listed|].
  split; [intros result H; by rewrite (estimateImpact_unbacked _ _ _ H)|].
  split.
  { intros cand. split; [done|]. by rewrite estimateImpact_unbacked. }
  split.
  { intros mk l result node magnitude. subst node magnitude.
    rewrite makeNode_prediction, estimateImpact_direction.
    split; [|apply clamp_range].
    destruct (claimedDirection_cases (v_impactDirection result)) as [-> | ->];
      [left|right]; f_equal; lra. }
  destruct (built_graph name description tm outcome available params)
    as (st & trigger & rest & HI & Hb & E & [out H0] & HO & HL).
  eexists _, trigger, rest. split; [exact Hb|]. split; [done|].
  split; [by rewrite H0|]. cbn [edges].
  eapply Forall2_impl; [exact HO|].
  intros n e Hne. destruct (Origin_facts _ _ _ _ Hne)
    as (cand & corr & _ & _ & _ & _ & _ & Hh & Hllm & _ & Hp).
  split; [done|]. exists corr. split; [done|]. cbv zeta.
  replace (currentProbability trigger) with (triggerPrice tm outcome) by (by rewrite H0).
  rewrite Hp. split; [|apply clamp_range].
  destruct (claimedDirection_cases (c_impactDirection cand)) as [-> | ->];
    [left|right]; f_equal; lra.
Qed.

(** In a built graph a market whose measured correlation is below the
    threshold has no node besides the trigger's and no edge, when the price
    series fetched for a token does not depend on the time of the request. *)
Lemma unmeasured_absent tm outcome available st trigger rest :
  st_nodes st = trigger :: rest ->
  sameCore trigger (triggerNode tm outcome) ->
  Forall2 (Traced tm outcome available) rest (st_edges st) ->
  Forall2 (Linked (signature (st_nodes st))) rest (st_edges st) ->
  (forall now now' tokenId,
     getPriceHistory now tokenId "1w" 60 = getPriceHistory now' tokenId "1w" 60) ->
  forall cand mk tokenId,
    find (fun m => String.eqb (id m) (c_marketId cand)) available = Some mk ->
    extractTokenId JSON_parse mk = Some tokenId ->
    (Rabs (calculateCorrelation
             (prices1 (alignPriceSeries (triggerHistory JSON_parse getPriceHistory tm)
                                        (getPriceHistory 0 tokenId "1w" 60)))
             (prices2 (alignPriceSeries (triggerHistory JSON_parse getPriceHistory tm)
                                        (getPriceHistory 0 tokenId "1w" 60))))
     < 0.20)%R ->
    Forall (fun n => nodeId n <> c_marketId cand) rest
    /\ Forall (fun e => targetMarketId e <> c_marketId cand
                        /\ (c_marketId cand <> id tm ->
                            sourceMarketId e <> c_marketId cand))
              (st_edges st).
Proof.
  intros E H0 HT HL Htime cand mk token Hfind Htoken Hweak.
  assert (Forall (fun n => nodeId n <> c_marketId cand) rest) as Hnodes.
  { apply Forall_forall. intros n Hn Eid.
    apply list_elem_of_lookup in Hn as [i Hi].
    destruct (Forall2_lookup_l _ _ _ _ _ HT Hi) as (e & _ & Hne).
    destruct (Traced_facts _ _ _ _ _ Hne)
      as (cand' & token' & now' & corr & _ & Hfind' & Hid & Htoken' & _ & Hcorr & Hc & _).
    rewrite Hid, Eid, Hfind in Hfind'. injection Hfind' as ->.
    rewrite Htoken in Htoken'. injection Htoken' as <-.
    rewrite (Htime now' 0%nat token) in Hcorr. subst corr. lra. }
  split; [done|].
  apply Forall_forall. intros e He.
  apply list_elem_of_lookup in He as [i Hi].
  destruct (Forall2_lookup_r _ _ _ _ _ HL Hi) as (n & Hn & [Ht (l & Hs & _)]).
  rewrite Forall_forall in Hnodes.
  split.
  - rewrite Ht. apply Hnodes. by eapply list_elem_of_lookup_2.
  - intros Hne. apply signature_nodeId in Hs. rewrite E in Hs. cbn [map] in Hs.
    apply elem_of_cons in Hs as [Hs|Hs].
    + rewrite Hs, (sameCore_nodeId _ _ H0). intros Heq. by apply Hne.
    + apply elem_of_map in Hs as (n' & -> & Hn'). by apply Hnodes.
Qed.


(** C4: in every built graph layer 1 holds at most 3 nodes, every market has
    at most 2 children on layer 2 and at most 1 child on layer 3 (and in
    general at most [getMaxNodesForLayer k] children on layer k), and no
    node lies beyond layer [MAX_DEPTH] = 3, the depth limit of the loop; nor
    beyond the requested [params.maxDepth] when that is at least 1. *)
Theorem fan_out_bounds name description tm outcome available params :
  exists scenario,
    build name description tm outcome available params = Some scenario
    /\ (length (nodesAt 1 (nodes scenario)) <= 3)%nat
    /\ (forall parent,
          (length (childrenAt parent 2 (nodes scenario) (edges scenario)) <= 2)%nat)
    /\ (forall parent,
          (length (childrenAt parent 3 (nodes scenario) (edges scenario)) <= 1)%nat)
    /\ (forall parent k,
          (length (childrenAt parent k (nodes scenario) (edges scenario))
           <= getMaxNodesForLayer k)%nat)
    /\ Forall (fun n => (layer n <= MAX_DEPTH)%nat) (nodes scenario)
    /\ Forall (fun n => (layer n <= 1)%nat
                        \/ (Z.of_nat (layer n) <= maxDepth params)%Z) (nodes scenario).
Proof.
  destruct (built_graph name description tm outcome available params)
    as (st & trigger & rest & HI & Hb & E & H0 & HO & HL).
  eexists. split; [exact Hb|]. cbn [nodes edges].
  split; [by eapply built_layer1_bound|].
  split; [intros parent; by eapply (built_children_bound _ _ _ _ _ HI parent 2)|].
  split; [intros parent; by eapply (built_children_bound _ _ _ _ _ HI parent 3)|].
  split; [intros parent k; by eapply built_children_bound|].
  by destruct HI as [[]].
Qed.

(** C5: in every built graph no two nodes share a market id, both endpoints
    of every edge are market ids of nodes, and the first node is the trigger
    market's, on layer 0 with predicted probability 1.0. *)
Theorem graph_shape name description tm outcome available params :
  exists scenario trigger,
    build name description tm outcome available params = Some scenario
    /\ NoDup (map nodeId (nodes scenario))
    /\ Forall (fun e => sourceMarketId e ∈ map nodeId (nodes scenario)
                        /\ targetMarketId e ∈ map nodeId (nodes scenario))
              (edges scenario)
    /\ nodes scenario !! 0%nat = Some trigger
    /\ market trigger = tm
    /\ layer trigger = 0%nat
    /\ predictedProbability trigger = 1.0%R.
Proof.
  destruct (built_graph name description tm outcome available params)
    as (st & trigger & rest & HI & Hb & E & [out H0] & HO & HL).
  eexists _, trigger. split; [exact Hb|]. cbn [nodes edges].
  split; [by destruct HI as [[]]|].
  split; [|rewrite E, H0; done].
  apply Forall_forall. intros e He.
  destruct (built_edge_endpoints _ _ _ _ _ HI e He) as (s & n & Hs & Hn & Es & En & _).
  split; apply elem_of_map; eauto.
Qed.

(** C10: in every built graph each edge runs from a node on some layer L to
    a node on layer L+1, no market id occurs twice among the nodes, no path
    of edges leads from a market back to itself, and [detectFeedbackLoops]
    returns the empty list. *)
Theorem graph_acyclic name description tm outcome available params :
  exists scenario,
    build name description tm outcome available params = Some scenario
    /\ Forall (fun e =>
          exists s n, s ∈ nodes scenario /\ n ∈ nodes scenario
            /\ nodeId s = sourceMarketId e /\ nodeId n = targetMarketId e
            /\ layer n = S (layer s))
         (edges scenario)
    /\ NoDup (map nodeId (nodes scenario))
    /\ (forall i, ~ Reach (edges scenario) i i)
    /\ detectFeedbackLoops (nodes scenario) (edges scenario) = Some [].
Proof.
  destruct (built_graph name description tm outcome available params)
    as (st & trigger & rest & HI & Hb & E & H0 & HO & HL).
  eexists. split; [exact Hb|]. cbn [nodes edges].
  assert (NoDup (map nodeId (st_nodes st))) as ND by (by destruct HI as [[]]).
  assert (Forall (fun e =>
            exists s n, s ∈ st_nodes st /\ n ∈ st_nodes st
              /\ nodeId s = sourceMarketId e /\ nodeId n = targetMarketId e
              /\ layer n = S (layer s)) (st_edges st)) as Hedges.
  { apply Forall_forall. intros e He. by eapply built_edge_endpoints. }
  assert (Ranked (layerOf (signature (st_nodes st))) (st_edges st)) as HR.
  { eapply Forall_impl; [exact Hedges|].
    intros e (s & n & Hs & Hn & Es & En & Hl). simpl.
    rewrite (layerOf_signature _ (sourceMarketId e) (layer s) ND)
      by (apply elem_of_signature; eauto).
    rewrite (layerOf_signature _ (targetMarketId e) (layer n) ND)
      by (apply elem_of_signature; eauto).
    lia. }
  split; [done|]. split; [done|]. split.
  - intros i Hi. pose proof (Ranked_Reach _ _ _ _ HR Hi). lia.
  - by eapply detectFeedbackLoops_ranked.
Qed.

End Graph.

End GraphFacts.

(** ** The caller-facing entry point *)

Module RouteFacts.
Import Js JsFacts PriceHistory Types Engine EngineSpec EngineFacts Route Examples.

(** C9, as stated, fails: the request names a listed outcome of a trigger
    market that is found, and is still answered with an error when the
    market database returns fewer than 100 markets; so is a request without
    a market id, whatever the outcome. *)
Lemma POST_other_fatal_conditions :
  includes (outcomes exTrigger) "Yes" = true
  /\ POST (fun _ => None) (fun _ _ _ _ => []) (fun _ _ _ _ => [])
          (fun _ => Some exTrigger) (fun _ _ => Some [])
          (Some exRequest)
     = ErrorResponse 500 "Only fetched 0 markets - expected thousands"
  /\ POST (fun _ => None) (fun _ _ _ _ => []) (fun _ _ _ _ => [])
          (fun _ => Some exTrigger) (fun _ _ => Some [])
          (Some {| marketId := None; outcome := Some "Yes"; scenarioName := None;
                   scenarioDescription := None; params := None |})
     = ErrorResponse 400 "Missing required fields: marketId, outcome".
Proof. repeat split; reflexivity. Qed.

Section Handler.

Variable JSON_parse : string -> option json.
Variable getPriceHistory : nat -> json -> string -> Z -> list PricePoint.
Variable findInterestingCausalMarkets :
  nat -> PolymarketMarket -> string -> list PolymarketMarket -> list Candidate.
Variable getMarketDetails : string -> option PolymarketMarket.
Variable getMarkets : Z -> bool -> option (list PolymarketMarket).

Local Abbreviation handle :=
  (POST JSON_parse getPriceHistory findInterestingCausalMarkets
        getMarketDetails getMarkets).

(** C9 (amended): when the simulated outcome is not among the outcomes of
    the trigger market that was found, the handler answers 400 "Invalid
    outcome for this market", whatever the market database and the
    collaborators of the graph builder would have answered: nothing is
    built.  It is one of five error answers; the others are 400 for a
    missing market id or outcome, 404 for a trigger market that is not
    found, 500 with the number fetched when the market database returns
    fewer than 100 markets, and 500 "Failed to run simulation" when reading
    the body or fetching the markets throws.  A scenario is returned only
    when none of them applies. *)
Theorem POST_invalid_outcome (request : option RequestBody) :
  (forall body marketId outcome triggerMarket,
     request = Some body ->
     present (Route.marketId body) = Some marketId ->
     present (Route.outcome body) = Some outcome ->
     getMarketDetails marketId = Some triggerMarket ->
     includes (outcomes triggerMarket) outcome = false ->
     forall parse history generator markets,
       POST parse history generator getMarketDetails markets request
       = ErrorResponse 400 "Invalid outcome for this market")
  /\ (request = None ->
      handle request = ErrorResponse 500 "Failed to run simulation")
  /\ (forall body,
        request = Some body ->
        present (Route.marketId body) = None \/ present (Route.outcome body) = None ->
        handle request = ErrorResponse 400 "Missing required fields: marketId, outcome")
  /\ (forall body marketId outcome,
        request = Some body ->
        present (Route.marketId body) = Some marketId ->
        present (Route.outcome body) = Some outcome ->
        getMarketDetails marketId = None ->
        handle request = ErrorResponse 404 "Trigger market not found")
  /\ (forall body marketId outcome triggerMarket,
        request = Some body ->
        present (Route.marketId body) = Some marketId ->
        present (Route.outcome body) = Some outcome ->
        getMarketDetails marketId = Some triggerMarket ->
        includes (outcomes triggerMarket) outcome = true ->
        (getMarkets 100000 true = None ->
         handle request = ErrorResponse 500 "Failed to run simulation")
        /\ (forall availableMarkets,
              getMarkets 100000 true = Some availableMarkets ->
              (length availableMarkets < 100)%nat ->
              handle request
              = ErrorResponse 500
                  ("Only fetched " +:+ decimal (length availableMarkets)
                   +:+ " markets - expected thousands")))
  /\ (forall scenario,
        handle request = Success scenario ->
        exists body marketId outcome triggerMarket availableMarkets,
          request = Some body
          /\ present (Route.marketId body) = Some marketId
          /\ present (Route.outcome body) = Some outcome
          /\ getMarketDetails marketId = Some triggerMarket
          /\ includes (outcomes triggerMarket) outcome = true
          /\ getMarkets 100000 true = Some availableMarkets
          /\ (100 <= length availableMarkets)%nat).
Proof.
  unfold POST. repeat apply conj.
  - intros body mid o m -> Hm Ho Hd Hi parse history generator markets.
    by rewrite Hm, Ho, Hd, Hi.
  - by intros ->.
  - intros body -> [H|H]; rewrite H; [done|].
    by destruct (present (Route.marketId body)).
  - intros body mid o -> Hm Ho Hd. by rewrite Hm, Ho, Hd.
  - intros body mid o m -> Hm Ho Hd Hi. rewrite Hm, Ho, Hd, Hi. simpl. split.
    + by intros ->.
    + intros avail -> Hlen.
      by destruct (Nat.ltb_spec (length avail) 100) as [_|]; [|lia].
  - intros scenario H.
    destruct request as [body|]; [|done].
    destruct (present (Route.marketId body)) as [mid|] eqn:Hm; [|done].
    destruct (present (Route.outcome body)) as [o|] eqn:Ho; [|done].
    destruct (getMarketDetails mid) as [m|] eqn:Hd; [|done].
    destruct (includes (outcomes m) o) eqn:Hi; [|done]. simpl in H.
    destruct (getMarkets 100000 true) as [avail|] eqn:Hg; [|done].
    destruct (Nat.ltb_spec (length avail) 100) as [|Hlen]; [done|].
    by exists body, mid, o, m, avail.
Qed.

End Handler.

End RouteFacts.

(** * Further properties of the code *)

Module ListFacts.
Import Js JsFacts.

Lemma lookup_map_eq {A B : Type} (f : A -> B) (l : list A) (i : nat) :
  map f l !! i = option_map f (l !! i).
Proof.
  revert i. induction l as [|y l IH]; intros [|i]; simpl; done.
Qed.

Lemma sum_cons x l : sum (x :: l) = (x + sum l)%R.
Proof. unfold sum. simpl. rewrite sum_from. unfold sum. lra. Qed.

Lemma StronglySorted_across {A : Type} (R : A -> A -> Prop) (l1 l2 : list A) x1 x2 :
  StronglySorted R (l1 ++ l2) -> x1 ∈ l1 -> x2 ∈ l2 -> R x1 x2.
Proof.
  induction l1 as [|y l1 IH]; intros HS H1 H2; [by apply elem_of_nil in H1|].
  cbn [app] in HS. apply StronglySorted_inv in HS as [HS Hy].
  apply elem_of_cons in H1 as [->|H1]; [|by apply IH].
  rewrite Forall_forall in Hy. apply Hy, elem_of_app. by right.
Qed.

End ListFacts.

(** ** More on the series aligner *)

Module AlignerFacts.
Import Js JsFacts ListFacts PriceHistory PriceHistoryFacts Examples.

(** Every matched triple pairs a point of the first series with a point of
    the second no more than [TOLERANCE] seconds away, and carries the earlier
    of their two timestamps. *)
Lemma align_loop_sound s1 : forall s2,
  Forall (fun m => exists a b, a ∈ s1 /\ b ∈ s2
                     /\ m = (p a, p b, Z.min (t a) (t b))
                     /\ (Z.abs (t a - t b) <= TOLERANCE)%Z)
         (align_loop s1 s2).
Proof.
  induction s1 as [|a s1 IH1]; intros s2;
    [rewrite align_loop_nil_l; constructor|].
  induction s2 as [|b s2 IH2]; [rewrite align_loop_nil_r; constructor|].
  rewrite align_loop_cons.
  destruct (Z.leb_spec (Z.abs (t a - t b)) TOLERANCE) as [Hle|_].
  - constructor.
    + exists a, b. repeat split; try done; constructor.
    + eapply Forall_impl; [apply IH1|]. intros m (a' & b' & Ha & Hb & Hm & Hd).
      exists a', b'. repeat split; try done; by constructor.
  - destruct (t a <? t b)%Z.
    + eapply Forall_impl; [apply IH1|]. intros m (a' & b' & Ha & Hb & Hm & Hd).
      exists a', b'. repeat split; try done. by constructor.
    + eapply Forall_impl; [apply IH2|]. intros m (a' & b' & Ha & Hb & Hm & Hd).
      exists a', b'. repeat split; try done. by constructor.
Qed.

Lemma align_loop_length s1 : forall s2,
  (length (align_loop s1 s2) <= Nat.min (length s1) (length s2))%nat.
Proof.
  induction s1 as [|a s1 IH1]; intros s2;
    [rewrite align_loop_nil_l; cbn [length]; lia|].
  induction s2 as [|b s2 IH2]; [rewrite align_loop_nil_r; cbn [length]; lia|].
  rewrite align_loop_cons.
  destruct (Z.abs (t a - t b) <=? TOLERANCE)%Z.
  - cbn [length]. specialize (IH1 s2). lia.
  - destruct (t a <? t b)%Z.
    + specialize (IH1 (b :: s2)). cbn [length] in *. lia.
    + cbn [length] in *. lia.
Qed.

(** On inputs sorted by time the matched timestamps never decrease. *)
Lemma align_loop_monotone s1 : forall s2 lo,
  Sorted Z.le (map t s1) -> Sorted Z.le (map t s2) ->
  Forall (Z.le lo) (map t s1) -> Forall (Z.le lo) (map t s2) ->
  Forall (Z.le lo) (map snd (align_loop s1 s2))
  /\ Sorted Z.le (map snd (align_loop s1 s2)).
Proof.
  induction s1 as [|a s1 IH1]; intros s2;
    [intros; rewrite align_loop_nil_l; simpl; split; constructor|].
  induction s2 as [|b s2 IH2]; intros lo S1 S2 B1 B2;
    [simpl; split; constructor|].
  rewrite align_loop_cons.
  simpl in S1, S2, B1, B2.
  pose proof (Sorted_StronglySorted Z.le_trans S1) as SS1.
  pose proof (Sorted_StronglySorted Z.le_trans S2) as SS2.
  apply StronglySorted_inv in SS1 as [SS1 A1].
  apply StronglySorted_inv in SS2 as [SS2 A2].
  pose proof S1 as S1'. pose proof S2 as S2'.
  apply Sorted_inv in S1 as [S1 _]. apply Sorted_inv in S2 as [S2 _].
  apply Forall_cons in B1 as [Ba B1].
  apply Forall_cons in B2 as [Bb B2].
  destruct (Z.abs (t a - t b) <=? TOLERANCE)%Z.
  - destruct (IH1 s2 (Z.min (t a) (t b))) as [F S]; try done.
    + eapply Forall_impl; [exact A1|]. intros; simpl in *; lia.
    + eapply Forall_impl; [exact A2|]. intros; simpl in *; lia.
    + simpl. split.
      * constructor; [lia|].
        eapply Forall_impl; [exact F|]. intros; simpl in *; lia.
      * constructor; [done|].
        destruct (map snd (align_loop s1 s2)); constructor.
        by apply Forall_cons in F as [? _].
  - destruct (t a <? t b)%Z.
    + apply IH1; try done; simpl; by constructor.
    + apply IH2; try done; simpl; by constructor.
Qed.

Lemma sort_sorted_timestamps h : Sorted Z.le (map t (sort by_timestamp h)).
Proof.
  pose proof (sort_Sorted by_timestamp by_timestamp_total h) as Hs.
  induction Hs as [|x l Hs IH Hx]; simpl; constructor; [done|].
  destruct Hx as [|y l Hxy]; simpl; constructor.
  unfold by_timestamp in Hxy. apply Z.leb_le in Hxy. lia.
Qed.

Lemma Sorted_lower_bound (l : list Z) :
  Sorted Z.le l -> exists lo, Forall (Z.le lo) l.
Proof.
  intros Hs. destruct l as [|x l]; [exists 0%Z; constructor|].
  exists x. apply Sorted_StronglySorted in Hs; [|exact Z.le_trans].
  apply StronglySorted_inv in Hs as [_ Hx]. constructor; [lia|done].
Qed.

(** X1: every entry of the aligned output pairs a point of the first
    history with a point of the second whose timestamps are at most one hour
    (3600 seconds) apart, and is stamped with the earlier of the two. *)
Theorem alignPriceSeries_pairs_within_tolerance (history1 history2 : list PricePoint) :
  let r := alignPriceSeries history1 history2 in
  forall i ts, timestamps r !! i = Some ts ->
    exists a b, a ∈ history1 /\ b ∈ history2
      /\ prices1 r !! i = Some (p a) /\ prices2 r !! i = Some (p b)
      /\ ts = Z.min (t a) (t b)
      /\ (Z.abs (t a - t b) <= 3600)%Z.
Proof.
  intros r i ts Hts. subst r. unfold alignPriceSeries in *. cbn [timestamps prices1 prices2] in *.
  rewrite lookup_map_eq in Hts.
  destruct (align_loop _ _ !! i) as [m|] eqn:Hm; [|done].
  injection Hts as <-.
  pose proof (align_loop_sound (sort by_timestamp history1) (sort by_timestamp history2)) as F.
  rewrite Forall_forall in F.
  destruct (F m (list_elem_of_lookup_2 _ _ _ Hm)) as (a & b & Ha & Hb & -> & Hd).
  exists a, b. rewrite !lookup_map_eq, Hm. cbn.
  rewrite elem_of_sort in Ha. rewrite elem_of_sort in Hb. done.
Qed.

(** X2: the aligned output is never longer than the shorter input, and its
    timestamps come out in non-decreasing order whatever the order of the
    inputs. *)
Theorem alignPriceSeries_bounded_and_ordered (history1 history2 : list PricePoint) :
  let r := alignPriceSeries history1 history2 in
  (length (timestamps r) <= Nat.min (length history1) (length history2))%nat
  /\ Sorted Z.le (timestamps r).
Proof.
  intros r. subst r. unfold alignPriceSeries. cbn [timestamps]. split.
  - rewrite length_map.
    pose proof (align_loop_length (sort by_timestamp history1) (sort by_timestamp history2)) as H.
    by rewrite !length_sort in H.
  - pose proof (sort_sorted_timestamps history1) as S1.
    pose proof (sort_sorted_timestamps history2) as S2.
    destruct (Sorted_lower_bound _ S1) as [lo1 B1].
    destruct (Sorted_lower_bound _ S2) as [lo2 B2].
    apply (align_loop_monotone _ _ (Z.min lo1 lo2)); try done.
    + eapply Forall_impl; [exact B1|]. intros; simpl in *; lia.
    + eapply Forall_impl; [exact B2|]. intros; simpl in *; lia.
Qed.

Lemma alignPriceSeries_pairs_within_tolerance_witness :
  let h1 := [point 7200 0.2; point 0 0.1] in
  let h2 := [point 100 0.3] in
  exists a b, a ∈ h1 /\ b ∈ h2
    /\ prices1 (alignPriceSeries h1 h2) !! 0%nat = Some (p a)
    /\ prices2 (alignPriceSeries h1 h2) !! 0%nat = Some (p b)
    /\ 0%Z = Z.min (t a) (t b)
    /\ (Z.abs (t a - t b) <= 3600)%Z.
Proof.
  intros h1 h2.
  exact (alignPriceSeries_pairs_within_tolerance h1 h2 0%nat 0%Z eq_refl).
Defined.

Lemma insert_sorted_same_time a b : forall l1 l2,
  t a = t b -> Forall2 (fun x y => t x = t y) l1 l2 ->
  Forall2 (fun x y => t x = t y)
    (insert_sorted by_timestamp a l1) (insert_sorted by_timestamp b l2).
Proof.
  intros l1 l2 Hab F. induction F as [|x y l1 l2 Hxy F IH]; simpl.
  - by repeat constructor.
  - unfold by_timestamp at 1 3. rewrite Hab, Hxy.
    destruct (t b - t y <=? 0)%Z; by repeat constructor.
Qed.

Lemma sort_same_time l1 l2 :
  Forall2 (fun x y => t x = t y) l1 l2 ->
  Forall2 (fun x y => t x = t y) (sort by_timestamp l1) (sort by_timestamp l2).
Proof.
  induction 1; simpl; [constructor|]. by apply insert_sorted_same_time.
Qed.

Lemma align_loop_lockstep l1 l2 :
  Forall2 (fun x y => t x = t y) l1 l2 ->
  align_loop l1 l2 = map (fun ab => (p (fst ab), p (snd ab), t (fst ab))) (combine l1 l2).
Proof.
  induction 1 as [|a b l1 l2 Hab F IH]; [by rewrite align_loop_nil_l|].
  rewrite align_loop_cons, Hab, Z.sub_diag. cbn.
  rewrite Z.min_id, <- Hab. by rewrite IH.
Qed.

Lemma sort_sorted_id (h : list PricePoint) :
  Sorted Z.le (map t h) -> sort by_timestamp h = h.
Proof.
  induction h as [|a h IH]; simpl; intros Hs; [done|].
  apply Sorted_inv in Hs as [Hs Hd]. rewrite (IH Hs).
  destruct h as [|b h]; simpl; [done|].
  apply HdRel_inv in Hd. unfold by_timestamp.
  destruct (Z.leb_spec (t a - t b) 0); [done|lia].
Qed.

(** X3: when the two histories carry the same timestamps position by
    position, nothing is dropped: the output lists every point of both, in
    time order; and if the histories were already in time order the two
    price series come back exactly as given. *)
Theorem alignPriceSeries_lockstep (history1 history2 : list PricePoint) :
  Forall2 (fun a b => t a = t b) history1 history2 ->
  let r := alignPriceSeries history1 history2 in
  prices1 r = map p (sort by_timestamp history1)
  /\ prices2 r = map p (sort by_timestamp history2)
  /\ timestamps r = map t (sort by_timestamp history1)
  /\ (Sorted Z.le (map t history1) ->
      prices1 r = map p history1 /\ prices2 r = map p history2).
Proof.
  intros F r.
  assert (prices1 r = map p (sort by_timestamp history1)
          /\ prices2 r = map p (sort by_timestamp history2)
          /\ timestamps r = map t (sort by_timestamp history1)) as (E1 & E2 & E3).
  { subst r. unfold alignPriceSeries. cbn [prices1 prices2 timestamps].
    pose proof (sort_same_time _ _ F) as F'.
    rewrite (align_loop_lockstep _ _ F'). rewrite !map_map. cbn.
    induction F' as [|a b l1 l2 Hab F' IH]; [done|].
    destruct IH as (I1 & I2 & I3). cbn. by rewrite I1, I2, I3. }
  repeat split; try done.
  - rewrite E1, sort_sorted_id; done.
  - rewrite E2, sort_sorted_id; [done|].
    replace (map t history2) with (map t history1); [done|].
    clear -F. induction F; simpl; congruence.
Qed.

Lemma alignPriceSeries_lockstep_witness :
  let h1 := [point 0 0.1; point 7200 0.2] in
  let h2 := [point 0 0.3; point 7200 0.4] in
  Forall2 (fun a b => t a = t b) h1 h2
  /\ prices1 (alignPriceSeries h1 h2) = map p h1.
Proof.
  intros h1 h2.
  assert (Forall2 (fun a b => t a = t b) h1 h2) as F by (repeat constructor).
  split; [exact F|].
  refine (proj1 (proj2 (proj2 (proj2 (alignPriceSeries_lockstep h1 h2 F))) _)).
  subst h1. simpl. repeat constructor. lia.
Defined.

End AlignerFacts.

(** ** More on the correlation analyzer *)

Module CorrelationFacts.
Import Js JsFacts ListFacts PriceHistory PriceHistoryFacts Examples.

(** The three accumulators of the loop form a positive semi-definite
    quadratic form: it is a sum of squares [(u * diff1 + v * diff2)^2]. *)
Lemma accumulate_quadratic m1 m2 (u v : R) l : forall c v1 v2,
  let '(c', v1', v2') := fold_left (accumulate m1 m2) l (c, v1, v2) in
  (0 <= u * u * (v1' - v1) + 2 * u * v * (c' - c) + v * v * (v2' - v2))%R.
Proof.
  induction l as [|[x y] l IH]; intros c v1 v2; simpl; [lra|].
  specialize (IH (c + (x - m1) * (y - m2)) (v1 + (x - m1) * (x - m1))
                 (v2 + (y - m2) * (y - m2)))%R.
  destruct (fold_left _ l _) as [[c' v1'] v2'].
  pose proof (Rle_0_sqr (u * (x - m1) + v * (y - m2))) as Hsq. unfold Rsqr in Hsq.
  lra.
Qed.

Lemma accumulate_cauchy_schwarz m1 m2 l :
  let '(c, v1, v2) := fold_left (accumulate m1 m2) l (0, 0, 0)%R in
  (0 <= v1 /\ 0 <= v2 /\ c * c <= v1 * v2)%R.
Proof.
  pose proof (fun u v => accumulate_quadratic m1 m2 u v l 0 0 0)%R as Q.
  destruct (fold_left _ l _) as [[c v1] v2].
  pose proof (Q 1 0)%R as Q1. pose proof (Q 0 1)%R as Q2.
  split; [lra|]. split; [lra|].
  destruct (Req_dec v1 0) as [Z1|NZ1].
  - (* with no variance on one side the covariance vanishes as well *)
    subst v1. pose proof (Q c (-1))%R as Qa. pose proof (Q c 1)%R as Qb.
    pose proof (Q (- (1 + v2)) c)%R as Qc.
    assert (c = 0)%R as ->; [|lra]. nra.
  - pose proof (Q c (- v1))%R as Qa.
    assert (0 <= v1 * (v1 * v2 - c * c))%R as H by lra.
    assert (0 < v1)%R as P by lra. nra.
Qed.

(** X4: the correlation coefficient always lies between -1 and 1. *)
Theorem calculateCorrelation_range (prices1 prices2 : list R) :
  (-1 <= calculateCorrelation prices1 prices2 <= 1)%R.
Proof.
  unfold calculateCorrelation.
  destruct (negb _ || _) eqn:G; [lra|].
  apply orb_false_elim in G as [_ G]. apply Nat.ltb_ge in G.
  set (n := INR (length prices1)).
  assert (0 < n)%R as Hn by (apply lt_0_INR; lia).
  pose proof (accumulate_cauchy_schwarz (sum prices1 / n) (sum prices2 / n)
                (combine prices1 prices2)) as CS.
  destruct (fold_left _ _ _) as [[c v1] v2]. destruct CS as (P1 & P2 & CS).
  destruct (Reqb (sqrt (v1 / n)) 0) eqn:E1; [cbn; lra|].
  destruct (Reqb (sqrt (v2 / n)) 0) eqn:E2; [cbn; lra|]. cbn [orb].
  apply Reqb_false in E1, E2.
  assert (0 <= v1 / n)%R as Q1 by (apply Rle_mult_inv_pos; lra).
  assert (0 <= v2 / n)%R as Q2 by (apply Rle_mult_inv_pos; lra).
  pose proof (sqrt_pos (v1 / n)) as S1. pose proof (sqrt_pos (v2 / n)) as S2.
  set (s1 := sqrt (v1 / n)) in *. set (s2 := sqrt (v2 / n)) in *.
  set (D := (n * s1 * s2)%R).
  assert (0 < D)%R as HD.
  { subst D. apply Rmult_lt_0_compat; [apply Rmult_lt_0_compat|]; lra. }
  assert (D * D = v1 * v2)%R as HDD.
  { subst D. transitivity (n * n * (s1 * s1) * (s2 * s2))%R; [ring|].
    subst s1 s2. rewrite !sqrt_sqrt by done. field. lra. }
  assert (- D <= c <= D)%R as Hc by nra.
  split.
  - apply Rmult_le_reg_r with D; [done|]. unfold Rdiv.
    rewrite Rmult_assoc, Rinv_l by lra. lra.
  - apply Rmult_le_reg_r with D; [done|]. unfold Rdiv.
    rewrite Rmult_assoc, Rinv_l by lra. lra.
Qed.

Lemma sum_affine a b xs :
  sum (map (fun x => a * x + b)%R xs) = (a * sum xs + INR (length xs) * b)%R.
Proof.
  induction xs as [|x xs IH]; [unfold sum; simpl; lra|].
  cbn [map length]. rewrite !sum_cons, IH, S_INR. lra.
Qed.

Lemma accumulate_affine a b m xs : forall c v1 v2,
  fold_left (accumulate m (a * m + b)) (combine xs (map (fun x => a * x + b)%R xs))
            (c, v1, v2)
  = let s := sum (map (fun x => (x - m) * (x - m))%R xs) in
    (c + a * s, v1 + s, v2 + a * a * s)%R.
Proof.
  induction xs as [|x xs IH]; intros c v1 v2; cbn [map combine fold_left].
  - unfold sum. simpl. f_equal; [f_equal|]; lra.
  - unfold accumulate at 2. cbn [fst snd]. rewrite IH. cbv zeta.
    rewrite sum_cons. f_equal; [f_equal|]; lra.
Qed.

(** X6: a series and an affine image of it, [a * x + b] with [a <> 0], are
    perfectly correlated: the coefficient is 1 for a rising image and -1 for
    a falling one (such as the complementary outcome [1 - x]). *)
Theorem calculateCorrelation_affine (a b : R) (prices : list R) :
  (10 <= length prices)%nat -> variance prices <> 0%R -> a <> 0%R ->
  calculateCorrelation prices (map (fun x => a * x + b)%R prices)
  = if Rltb 0 a then 1%R else (-1)%R.
Proof.
  intros Hlen Hvar Ha. unfold calculateCorrelation.
  rewrite length_map, Nat.eqb_refl. cbn [negb orb].
  destruct (Nat.ltb_spec (length prices) 10) as [|_]; [lia|].
  set (n := INR (length prices)) in *.
  assert (0 < n)%R as Hn by (apply lt_0_INR; lia).
  rewrite sum_affine. fold n.
  replace ((a * sum prices + n * b) / n)%R with (a * (sum prices / n) + b)%R by (field; lra).
  rewrite accumulate_affine. cbv beta iota zeta.
  unfold variance in Hvar. fold n in Hvar.
  set (V := sum _) in *.
  assert (0 <= V)%R as HV.
  { subst V. apply (sum_squares_nonneg (fun x => x - sum prices / n)%R). }
  assert (0 < V / n)%R as Hpos.
  { destruct (Rle_lt_or_eq_dec _ _ HV) as [Hlt | Heq].
    - by apply Rdiv_lt_0_compat.
    - exfalso. apply Hvar. rewrite <- Heq. unfold Rdiv. ring. }
  rewrite !Rplus_0_l.
  replace (a * a * V / n)%R with (Rsqr a * (V / n))%R by (unfold Rsqr; field; lra).
  rewrite sqrt_mult by (try apply Rle_0_sqr; lra).
  rewrite sqrt_Rsqr_abs.
  pose proof (sqrt_lt_R0 _ Hpos) as Hs.
  pose proof (Rabs_pos_lt a Ha) as Habs.
  assert (Reqb (sqrt (V / n)) 0 = false) as E1 by (apply Reqb_false; lra).
  assert (Reqb (Rabs a * sqrt (V / n)) 0 = false) as E2 by (apply Reqb_false; nra).
  rewrite E1, E2. cbn [orb].
  replace (n * sqrt (V / n) * (Rabs a * sqrt (V / n)))%R
    with (n * Rabs a * (sqrt (V / n) * sqrt (V / n)))%R by ring.
  rewrite sqrt_sqrt by lra.
  assert (V <> 0)%R as HV0.
  { intros HV0. rewrite HV0 in Hpos. unfold Rdiv in Hpos. lra. }
  destruct (Rltb 0 a) eqn:Sa.
  - apply Rltb_true in Sa. rewrite Rabs_right by lra. field. lra.
  - apply Rltb_false in Sa. rewrite Rabs_left by lra. field. lra.
Qed.

Lemma calculateCorrelation_affine_witness :
  calculateCorrelation alternating (map (fun x => (-1) * x + 1)%R alternating) = (-1)%R.
Proof.
  assert (Rltb 0 (-1) = false) as E by (apply Rltb_false; lra).
  assert (10 <= length alternating)%nat as Hlen by (simpl; lia).
  assert (variance alternating <> 0%R) as Hvar by (rewrite variance_alternating; lra).
  assert ((-1) <> 0)%R as Ha by lra.
  pose proof (calculateCorrelation_affine (-1) 1 alternating Hlen Hvar Ha) as H.
  rewrite E in H. exact H.
Defined.

End CorrelationFacts.

(** ** The impact estimator *)

Module ImpactFacts.
Import Js JsFacts ListFacts PriceHistory PriceHistoryFacts Vocabulary Examples.

Lemma impact_loop_recorded threshold restA : forall restB prevA prevB,
  Forall (recorded threshold (prevA :: restA) (prevB :: restB))
         (impact_loop threshold prevA prevB restA restB).
Proof.
  induction restA as [|a restA IH]; intros [|b restB] prevA prevB; simpl;
    try constructor.
  assert (Forall (recorded threshold (prevA :: a :: restA) (prevB :: b :: restB))
                 (impact_loop threshold a b restA restB)) as Htail.
  { eapply Forall_impl; [apply IH|].
    intros r (i & x & x' & y & y' & H1 & H2 & H3 & H4 & H5 & H6).
    by exists (S i), x, x', y, y'. }
  destruct (Rleb threshold _) eqn:E; [|done].
  constructor; [|done].
  exists 0%nat, prevA, a, prevB, b. apply Rleb_true in E. done.
Qed.

Lemma impact_loop_quiet threshold restA : forall restB prevA prevB,
  (forall i a a', (prevA :: restA) !! i = Some a -> (prevA :: restA) !! S i = Some a' ->
     (Rabs ((a' - a) / a) < threshold)%R) ->
  impact_loop threshold prevA prevB restA restB = [].
Proof.
  induction restA as [|a restA IH]; intros [|b restB] prevA prevB Q; simpl; try done.
  destruct (Rleb threshold _) eqn:E.
  - apply Rleb_true in E. specialize (Q 0%nat prevA a eq_refl eq_refl). lra.
  - apply IH. intros i x x' H1 H2. exact (Q (S i) x x' H1 H2).
Qed.

(** X7: for two series of the same length without a price of 0 and a
    positive threshold, the impact magnitude is either 0 or the ratio
    (relative change of B) / (relative change of A) recorded at some step
    where A moved by at least the threshold; it is 0 whenever A never moves
    that much, and so in particular for series of fewer than two points. *)
Theorem calculateImpactMagnitude_recorded (pricesA pricesB : list R) (threshold : R) :
  length pricesA = length pricesB ->
  Forall (fun a => a <> 0%R) pricesA ->
  Forall (fun b => b <> 0%R) pricesB ->
  (0 < threshold)%R ->
  let r := calculateImpactMagnitude pricesA pricesB threshold in
  (r = 0%R \/ recorded threshold pricesA pricesB r)
  /\ ((forall i a a', pricesA !! i = Some a -> pricesA !! S i = Some a' ->
         (Rabs ((a' - a) / a) < threshold)%R) -> r = 0%R)
  /\ ((length pricesA < 2)%nat -> r = 0%R).
Proof.
  intros _ _ _ _ r. subst r. unfold calculateImpactMagnitude.
  destruct pricesA as [|a0 restA]; [by repeat split; try left|].
  destruct pricesB as [|b0 restB]; [by repeat split; try left|].
  split; [|split].
  - pose proof (impact_loop_recorded threshold restA restB a0 b0) as F.
    destruct (impact_loop _ _ _ _ _) as [|x l] eqn:E; [by left|]. right.
    rewrite Forall_forall in F. apply F.
    apply (elem_of_sort (fun x y => Rleb (x - y) 0)).
    apply list_elem_of_In, nth_In. rewrite length_sort.
    apply Nat.div_lt; cbn [length]; lia.
  - intros Q. by rewrite impact_loop_quiet.
  - intros Hlen. destruct restA; [|cbn [length] in Hlen; lia].
    by destruct restB.
Qed.

(** A step from 0.50 to 0.60 of A, by 20 percent, while B goes from 0.20 to
    0.30, by 50 percent: the ratio recorded is 2.5. *)
Lemma calculateImpactMagnitude_recorded_witness :
  length [0.50; 0.60]%R = length [0.20; 0.30]%R
  /\ Forall (fun a => a <> 0%R) [0.50; 0.60]%R
  /\ Forall (fun b => b <> 0%R) [0.20; 0.30]%R
  /\ (0 < 0.05)%R
  /\ (calculateImpactMagnitude [0.50; 0.60]%R [0.20; 0.30]%R 0.05 = 0%R
      \/ recorded 0.05 [0.50; 0.60]%R [0.20; 0.30]%R
                  (calculateImpactMagnitude [0.50; 0.60]%R [0.20; 0.30]%R 0.05)).
Proof.
  assert (Forall (fun a => a <> 0%R) [0.50; 0.60]%R) as HA
    by (repeat constructor; lra).
  assert (Forall (fun b => b <> 0%R) [0.20; 0.30]%R) as HB
    by (repeat constructor; lra).
  assert (0 < 0.05)%R as Ht by lra.
  split; [reflexivity|]. split; [exact HA|]. split; [exact HB|]. split; [exact Ht|].
  exact (proj1 (calculateImpactMagnitude_recorded [0.50; 0.60]%R [0.20; 0.30]%R 0.05
                  eq_refl HA HB Ht)).
Defined.

Example calculateImpactMagnitude_example :
  calculateImpactMagnitude [0.50; 0.60]%R [0.20; 0.30]%R 0.05 = 2.5%R.
Proof.
  unfold calculateImpactMagnitude. cbn [impact_loop].
  rewrite (proj2 (Rleb_true 0.05 (Rabs ((0.60 - 0.50) / 0.50))))
    by (unfold Rabs; destruct Rcase_abs; lra).
  cbn [sort fold_right insert_sorted length Nat.div nth]. simpl. lra.
Qed.

End ImpactFacts.

(** ** Confidence intervals and scenario variants *)

Module IntervalFacts.
Import Js JsFacts ListFacts Types Propagation Examples.

Lemma addConfidence_range links : forall acc,
  (acc + 0.5 * INR (length links) <= fold_left addConfidence links acc
   <= acc + 0.9 * INR (length links))%R.
Proof.
  induction links as [|e links IH]; intros acc; cbn [fold_left length].
  - simpl. lra.
  - specialize (IH (addConfidence acc e)). rewrite S_INR.
    unfold addConfidence in *. destruct (confidenceLevel e); lra.
Qed.

(** The total uncertainty of a node below the trigger is at least 0.065:
    0.05 per layer, and 0.15 times the lack of confidence, which is at least
    0.1 whatever the links. *)
Lemma uncertainty_positive (links : list CausalLink) (l : nat) :
  l <> 0%nat ->
  (0.065 <= INR l * 0.05
            + (1 - fold_left addConfidence links 0
                   / INR (if (length links =? 0)%nat then 1 else length links)) * 0.15)%R.
Proof.
  intros Hl.
  assert (1 <= INR l)%R as Hl1.
  { destruct l; [done|]. rewrite S_INR. pose proof (pos_INR l). lra. }
  pose proof (addConfidence_range links 0) as [_ Hu].
  destruct (Nat.eqb_spec (length links) 0) as [E|NE].
  - destruct links; [|done]. simpl. lra.
  - assert (1 <= INR (length links))%R as Hn.
    { destruct (length links); [done|]. rewrite S_INR. pose proof (pos_INR n). lra. }
    assert (fold_left addConfidence links 0 / INR (length links) <= 0.9)%R.
    { apply Rmult_le_reg_r with (INR (length links)); [lra|].
      unfold Rdiv. rewrite Rmult_assoc, Rinv_l by lra. lra. }
    lra.
Qed.

(** The interval of one node. *)
Lemma intervalOf_bounds (edges : list CausalLink) (n : SimulationNode) :
  node (intervalOf edges n) = n
  /\ (layer n = 0%nat ->
      lower (intervalOf edges n) = predictedProbability n
      /\ upper (intervalOf edges n) = predictedProbability n)
  /\ (layer n <> 0%nat ->
      (0.01 <= lower (intervalOf edges n))%R /\ (upper (intervalOf edges n) <= 0.99)%R
      /\ ((0.01 <= predictedProbability n <= 0.99)%R ->
          (lower (intervalOf edges n) <= predictedProbability n
           <= upper (intervalOf edges n))%R
          /\ (lower (intervalOf edges n) < predictedProbability n
              \/ lower (intervalOf edges n) = 0.01)%R
          /\ (predictedProbability n < upper (intervalOf edges n)
              \/ upper (intervalOf edges n) = 0.99)%R)).
Proof.
  unfold intervalOf.
  destruct (Nat.eqb_spec (layer n) 0) as [E|NE]; cbn [node lower upper].
  - repeat split; done.
  - split; [done|]. split; [done|]. intros _.
    pose proof (uncertainty_positive
      (filter (fun e => String.eqb (targetMarketId e) (id (market n)) = true) edges)
      (layer n) NE) as Hu.
    set (u := (INR (layer n) * 0.05 + _)%R) in *.
    split; [apply Rmax_l|]. split; [apply Rmin_l|]. intros Hp.
    unfold Rmax, Rmin. repeat destruct Rle_dec; lra.
Qed.

(** X8: [calculateConfidenceIntervals] returns one interval per node, in
    order.  The trigger layer gets the degenerate interval at its predicted
    probability.  Below it the interval is cut to [0.01, 0.99], and it
    brackets a predicted probability that lies in that range, strictly so on
    each side that was not cut. *)
Theorem calculateConfidenceIntervals_bounds (nodes : list SimulationNode)
    (edges : list CausalLink) (i : nat) (iv : Interval) :
  calculateConfidenceIntervals nodes edges !! i = Some iv ->
  length (calculateConfidenceIntervals nodes edges) = length nodes
  /\ exists n, nodes !! i = Some n /\ node iv = n
     /\ (layer n = 0%nat ->
         lower iv = predictedProbability n /\ upper iv = predictedProbability n)
     /\ (layer n <> 0%nat ->
         (0.01 <= lower iv)%R /\ (upper iv <= 0.99)%R
         /\ ((0.01 <= predictedProbability n <= 0.99)%R ->
             (lower iv <= predictedProbability n <= upper iv)%R
             /\ (lower iv < predictedProbability n \/ lower iv = 0.01)%R
             /\ (predictedProbability n < upper iv \/ upper iv = 0.99)%R)).
Proof.
  unfold calculateConfidenceIntervals. intros Hiv.
  split; [apply length_map|].
  rewrite lookup_map_eq in Hiv.
  destruct (nodes !! i) as [n|]; [|done]. injection Hiv as <-.
  exists n. split; [done|]. apply intervalOf_bounds.
Qed.

Lemma calculateConfidenceIntervals_bounds_witness :
  let n := exPlainNode exTarget 0.30 0.30 1 in
  (0.01 <= lower (intervalOf exGraphEdges n))%R
  /\ (upper (intervalOf exGraphEdges n) <= 0.99)%R.
Proof.
  intros n.
  destruct (calculateConfidenceIntervals_bounds exGraphNodes exGraphEdges 0%nat
              (intervalOf exGraphEdges n) eq_refl)
    as (_ & n' & Hn & _ & _ & Hb).
  cbn in Hn. injection Hn as <-.
  assert (layer n <> 0%nat) as NE by (cbn; discriminate).
  destruct (Hb NE) as (Hl & Hu & _). split; [exact Hl|exact Hu].
Defined.

Lemma withBound_trigger bound n : layer n = 0%nat -> withBound bound n = n.
Proof. intros E. unfold withBound. destruct n; cbn in *. by subst. Qed.

(** X9: [generateScenarioVariants] leaves the expected scenario as given and
    builds the other two node by node: same market, layer, current
    probability, impact level and links; the trigger layer is copied
    unchanged; below it the predicted probability is the lower (upper) end
    of the node's interval, the probability change is recomputed from it,
    and the three scenarios are ordered conservative <= expected <=
    aggressive whenever the expected prediction lies in [0.01, 0.99]. *)
Theorem generateScenarioVariants_ordered (nodes : list SimulationNode)
    (edges : list CausalLink) (i : nat) (n : SimulationNode) :
  nodes !! i = Some n ->
  let v := generateScenarioVariants nodes edges in
  expected v = nodes
  /\ exists c a,
       conservative v !! i = Some c /\ aggressive v !! i = Some a
       /\ Forall (fun x => market x = market n /\ layer x = layer n
                           /\ currentProbability x = currentProbability n
                           /\ impactLevel x = impactLevel n
                           /\ incomingLinks x = incomingLinks n
                           /\ outgoingLinks x = outgoingLinks n
                           /\ (layer n = 0%nat -> x = n)
                           /\ (layer n <> 0%nat ->
                               probabilityChange x
                               = (predictedProbability x - currentProbability x)%R))
                [c; a]
       /\ ((0.01 <= predictedProbability n <= 0.99)%R ->
           (0.01 <= predictedProbability c)%R
           /\ (predictedProbability c <= predictedProbability n)%R
           /\ (predictedProbability n <= predictedProbability a)%R
           /\ (predictedProbability a <= 0.99)%R).
Proof.
  intros Hn v. subst v. unfold generateScenarioVariants.
  cbn [expected conservative aggressive]. split; [done|].
  assert (combine nodes (calculateConfidenceIntervals nodes edges) !! i
          = Some (n, intervalOf edges n)) as Hc.
  { unfold calculateConfidenceIntervals. clear -Hn. revert i Hn.
    induction nodes as [|x nodes IH]; intros [|i] Hn; simpl in *; try done.
    - by injection Hn as ->.
    - by apply IH. }
  eexists _, _. rewrite !lookup_map_eq, Hc. cbn [option_map fst snd].
  split; [reflexivity|]. split; [reflexivity|].
  destruct (intervalOf_bounds edges n) as (_ & H0 & H1).
  split.
  - repeat constructor; try (intros E; by apply withBound_trigger);
      intros NE; unfold withBound; cbn;
      by destruct (Nat.eqb_spec (layer n) 0).
  - intros Hp. unfold withBound; cbn.
    destruct (Nat.eqb_spec (layer n) 0) as [E|NE]; [lra|].
    destruct (H1 NE) as (Hl & Hu & Hb). destruct (Hb Hp) as ([? ?] & _). lra.
Qed.

Lemma generateScenarioVariants_ordered_witness :
  let v := generateScenarioVariants exGraphNodes exGraphEdges in
  expected v = exGraphNodes
  /\ exists c a,
       conservative v !! 0%nat = Some c /\ aggressive v !! 0%nat = Some a
       /\ (predictedProbability c <= 0.30 <= predictedProbability a)%R.
Proof.
  intros v.
  destruct (generateScenarioVariants_ordered exGraphNodes exGraphEdges 0%nat _ eq_refl)
    as (He & c & a & Hc & Ha & _ & Ho).
  split; [exact He|]. exists c, a. split; [exact Hc|]. split; [exact Ha|].
  assert (0.01 <= 0.30 <= 0.99)%R as Hp by lra.
  destruct (Ho Hp) as (_ & H1 & H2 & _). split; [exact H1|exact H2].
Defined.

(** The intervals of the two-node graph: the target, on layer 1 with one
    HIGH link, gets 0.30 -/+ (0.05 + 0.1 * 0.15); the trigger gets none. *)
Example calculateConfidenceIntervals_example :
  map (fun iv => (lower iv, upper iv))
      (calculateConfidenceIntervals exGraphNodes exGraphEdges)
  = [(0.235, 0.365); (1, 1)]%R.
Proof.
  unfold calculateConfidenceIntervals, exGraphNodes. cbn [map].
  unfold intervalOf. cbn [exPlainNode layer Nat.eqb predictedProbability market lower upper].
  change (filter _ exGraphEdges) with exGraphEdges.
  unfold exGraphEdges. cbn [fold_left length Nat.eqb]. unfold addConfidence.
  cbn [exPlainEdge confidenceLevel].
  replace (INR 1) with 1%R by (simpl; lra).
  repeat f_equal.
  - unfold Rmax. destruct Rle_dec; lra.
  - unfold Rmin. destruct Rle_dec; lra.
Qed.

End IntervalFacts.

(** ** What the loop detector reports *)

Module LoopReportFacts.
Import Js JsFacts ListFacts Types Propagation EngineSpec Vocabulary LoopDetectorFacts Examples.

Lemma indexOf_lookup (l : list string) (x : string) :
  indexOf l x <> (-1)%Z ->
  (0 <= indexOf l x)%Z /\ l !! Z.to_nat (indexOf l x) = Some x.
Proof.
  induction l as [|y l IH]; cbn [indexOf]; [done|].
  destruct (String.eqb_spec y x) as [->|_]; [done|].
  destruct (Z.ltb_spec (indexOf l x) 0) as [|Hpos]; [done|]. intros _.
  destruct IH as [_ IH]; [lia|]. split; [lia|].
  replace (Z.to_nat (indexOf l x + 1)) with (S (Z.to_nat (indexOf l x))) by lia.
  exact IH.
Qed.

Lemma Chain_cons edges i j rest :
  Chain edges (i :: j :: rest)
  <-> (exists e, e ∈ edges /\ sourceMarketId e = i /\ targetMarketId e = j)
      /\ Chain edges (j :: rest).
Proof. done. Qed.

Lemma Chain_drop edges k : forall path, Chain edges path -> Chain edges (drop k path).
Proof.
  induction k as [|k IH]; intros [|i path] Hc; try done.
  cbn [drop]. apply IH. destruct path; [done|]. by apply Chain_cons in Hc as [_ ?].
Qed.

Lemma Chain_snoc edges path i j e :
  Chain edges path -> last path = Some i ->
  e ∈ edges -> sourceMarketId e = i -> targetMarketId e = j ->
  Chain edges (path ++ [j]).
Proof.
  intros Hc Hl He Hs Ht. induction path as [|x path IH]; [done|].
  destruct path as [|y path].
  - cbn in Hl. injection Hl as ->. cbn. split; [by exists e|done].
  - change ((x :: y :: path) ++ [j]) with (x :: y :: (path ++ [j])).
    apply Chain_cons in Hc as [Hxy Hc]. apply Chain_cons. split; [done|].
    apply IH; [done|]. by rewrite last_cons_cons in Hl.
Qed.

Lemma Cycle_found edges path nodeId e :
  Chain edges (path ++ [nodeId]) ->
  e ∈ edges -> sourceMarketId e = nodeId ->
  indexOf (path ++ [nodeId]) (targetMarketId e) <> (-1)%Z ->
  Cycle edges (drop (Z.to_nat (indexOf (path ++ [nodeId]) (targetMarketId e)))
                    (path ++ [nodeId])).
Proof.
  intros Hc He Hs Hi. apply indexOf_lookup in Hi as [_ Hk].
  set (k := Z.to_nat _) in *.
  split; [by apply Chain_drop|].
  exists (targetMarketId e), nodeId, e.
  pose proof (lookup_lt_Some _ _ _ Hk) as Hlt.
  split; [|split; [|done]].
  - by rewrite head_lookup, lookup_drop, Nat.add_0_r.
  - rewrite last_lookup, lookup_drop, length_drop.
    replace (k + Init.Nat.pred (length (path ++ [nodeId]) - k))%nat
      with (Init.Nat.pred (length (path ++ [nodeId]))) by lia.
    by rewrite <- last_lookup, last_snoc.
Qed.

(** Whatever [dfs] adds to [loops] is a closed walk, provided the path it
    was called with leads to [nodeId] along edges. *)
Lemma dfs_sound edges fuel : forall nodeId path s s',
  Chain edges (path ++ [nodeId]) ->
  Forall (Cycle edges) (loops s) ->
  dfs fuel edges nodeId path s = Some s' ->
  Forall (Cycle edges) (loops s').
Proof.
  induction fuel as [|fuel IH]; intros nodeId path s s' Hc Hs; [done|].
  cbn [dfs].
  set (entered := {| loops := loops s; visited := {[nodeId]} ∪ visited s;
                     recursionStack := {[nodeId]} ∪ recursionStack s |}).
  assert (forall out s1 s2,
            Forall (fun e => e ∈ edges /\ sourceMarketId e = nodeId) out ->
            Forall (Cycle edges) (loops s1) ->
            fold_left (follow (dfs fuel edges) (path ++ [nodeId])) out (Some s1) = Some s2 ->
            Forall (Cycle edges) (loops s2)) as Hfold.
  { induction out as [|e out IHout]; intros s1 s2 Hout Hl; cbn [fold_left];
      [by intros [= <-]|].
    apply Forall_cons in Hout as [[He Hsrc] Hout].
    unfold follow at 2.
    destruct (bool_decide (targetMarketId e ∈ visited s1)).
    - destruct (bool_decide (targetMarketId e ∈ recursionStack s1)); [|by apply IHout].
      destruct (Z.eqb_spec (indexOf (path ++ [nodeId]) (targetMarketId e)) (-1))
        as [|Hi]; [by apply IHout|].
      apply IHout; [done|]. cbn [loops].
      apply Forall_app. split; [done|]. constructor; [|constructor].
      by apply Cycle_found.
    - destruct (dfs fuel edges (targetMarketId e) (path ++ [nodeId]) s1) as [s1'|] eqn:Hd;
        [|by rewrite follow_None].
      apply IHout; [done|].
      apply (IH _ _ _ _ (Chain_snoc _ _ nodeId _ e Hc (last_snoc _ _) He Hsrc eq_refl) Hl Hd). }
  destruct (fold_left _ _ _) as [s2|] eqn:Hf; [|done].
  intros [= <-]. cbn [loops].
  refine (Hfold _ entered s2 _ Hs Hf).
  apply Forall_forall. intros e He. apply list_elem_of_filter in He as [Hsrc He].
  split; [done|]. by apply String.eqb_eq.
Qed.

(** X10: [detectFeedbackLoops] always returns, and every list it reports is
    a closed walk of the graph: each market of the list has an edge to the
    next one, and the last has an edge back to the first. *)
Theorem detectFeedbackLoops_reports_cycles (nodes : list SimulationNode)
    (edges : list CausalLink) :
  exists found, detectFeedbackLoops nodes edges = Some found
                /\ Forall (Cycle edges) found.
Proof.
  destruct (detectFeedbackLoops_total nodes edges) as [found Hf].
  exists found. split; [done|]. revert Hf. unfold detectFeedbackLoops.
  assert (forall s s', Forall (Cycle edges) (loops s) ->
            fold_left (startFrom edges) nodes (Some s) = Some s' ->
            Forall (Cycle edges) (loops s')) as H.
  { induction nodes as [|n nodes IH]; intros s s' Hs; cbn [fold_left startFrom];
      [by intros [= <-]|].
    destruct (bool_decide _); [by apply IH|].
    destruct (dfs _ edges (id (market n)) [] s) as [s1|] eqn:Hd.
    - apply IH. by eapply (dfs_sound edges _ (id (market n)) [] s s1); [| |exact Hd].
    - clear. induction nodes; simpl; done. }
  destruct (fold_left _ _ _) as [s'|] eqn:Hfold; [|done].
  intros [= <-]. refine (H _ _ _ Hfold). constructor.
Qed.

End LoopReportFacts.

(** ** More on the graph builder *)

Module BuilderMoreFacts.
Import Js JsFacts ListFacts PriceHistory Types Engine EngineSpec Vocabulary EngineFacts Examples.

Lemma length_linkSource i e l : length (linkSource i e l) = length l.
Proof.
  induction l as [|n l IH]; [done|]. cbn [linkSource].
  destruct (String.eqb _ _); cbn [length]; by rewrite ?IH.
Qed.

Lemma links_makeNode tm o mk l r :
  incomingLinks (makeNode tm o mk l r) = [] /\ outgoingLinks (makeNode tm o mk l r) = [].
Proof. unfold makeNode. by destruct (estimateImpact tm o r) as [[? ?] ?]. Qed.

Lemma leaving_snoc i es e :
  leaving i (es ++ [e]) = leaving i es ++ (if decide (sourceMarketId e = i) then [e] else []).
Proof.
  unfold leaving. rewrite filter_app, filter_cons, filter_nil.
  by destruct (decide _).
Qed.

Lemma leaving_nil i es :
  (forall e, e ∈ es -> sourceMarketId e <> i) -> leaving i es = [].
Proof.
  intros H. unfold leaving. induction es as [|e es IH]; [done|].
  rewrite filter_cons, decide_False; [|apply H; constructor].
  apply IH. intros e' He'. apply H. by constructor.
Qed.

(** Pushing the new edge on its source node keeps the outgoing lists in
    step with the edge list. *)
Lemma linkSource_leaving i edge es nodes :
  sourceMarketId edge = i ->
  NoDup (map nodeId nodes) ->
  OutAgree nodes es ->
  OutAgree (linkSource i edge nodes) (es ++ [edge]).
Proof.
  intros Hsrc. unfold OutAgree.
  induction nodes as [|n nodes IH]; intros ND F; [constructor|].
  cbn [map] in ND. apply NoDup_cons in ND as [Hn ND].
  apply Forall_cons in F as [Hout F]. cbn [linkSource].
  destruct (String.eqb_spec (id (market n)) i) as [E|NE].
  - constructor.
    + unfold nodeId. cbn [pushOutgoing market outgoingLinks].
      rewrite leaving_snoc, decide_True by congruence. by rewrite Hout.
    + apply Forall_forall. intros x Hx.
      rewrite leaving_snoc, decide_False.
      * rewrite app_nil_r. rewrite Forall_forall in F. by apply F.
      * rewrite Hsrc, <- E. intros Ex. apply Hn.
        change (nodeId n) with (id (market n)). rewrite Ex.
        apply elem_of_map. by exists x.
  - constructor; [|by apply IH].
    rewrite leaving_snoc, decide_False by (by rewrite Hsrc; intros Ex).
    by rewrite app_nil_r.
Qed.

Lemma filter_unbacked (validated : list ValidatedResult) :
  Forall (fun r => hasHistoricalData r = false) validated ->
  filter (fun r => hasHistoricalData r) validated = [].
Proof.
  induction 1 as [|r rs Hr _ IH]; [done|].
  rewrite filter_cons, IH, Hr. by destruct (decide _).
Qed.

Lemma capacity_app (q1 q2 : list (PolymarketMarket * nat)) :
  fold_right (fun q acc => (capacity (snd q) + acc)%nat) 0%nat (q1 ++ q2)
  = (fold_right (fun q acc => (capacity (snd q) + acc)%nat) 0%nat q1
     + fold_right (fun q acc => (capacity (snd q) + acc)%nat) 0%nat q2)%nat.
Proof. induction q1 as [|q q1 IH]; cbn [app fold_right]; [done|]. rewrite IH. lia. Qed.

Lemma capacity_budget l :
  (l < MAX_DEPTH)%nat ->
  (getMaxNodesForLayer (S l) * (1 + capacity (S l)) <= capacity l)%nat.
Proof.
  unfold MAX_DEPTH. intros Hl.
  destruct l as [|[|[|l]]]; cbn; lia.
Qed.

Lemma Reach_snoc edges i e :
  Reach edges i (sourceMarketId e) -> In e edges -> Reach edges i (targetMarketId e).
Proof.
  intros HR He. remember (sourceMarketId e) as j eqn:Ej.
  induction HR as [e' He'|e' j He' _ IH].
  - apply (Reach_step edges e' _ He'). rewrite Ej. by apply Reach_edge.
  - apply (Reach_step edges e' _ He'). by apply IH.
Qed.

Lemma entering_unique (es : list CausalLink) : forall i e,
  NoDup (map targetMarketId es) -> es !! i = Some e ->
  entering (targetMarketId e) es = [e].
Proof.
  unfold entering.
  induction es as [|x es IH]; intros [|i] e ND Hi; cbn in Hi; cbn [map] in ND; try done.
  - injection Hi as ->. apply NoDup_cons in ND as [Hx ND].
    rewrite filter_cons, decide_True by done. f_equal.
    clear IH ND. induction es as [|y es IH]; [done|].
    rewrite filter_cons, decide_False.
    + apply IH. intros H. apply Hx. by constructor.
    + intros E. apply Hx. rewrite <- E. constructor.
  - apply NoDup_cons in ND as [Hx ND].
    rewrite filter_cons, decide_False; [by eapply IH|].
    intros E. apply Hx. rewrite E. apply elem_of_map. exists e.
    split; [done|]. by eapply list_elem_of_lookup_2.
Qed.

Lemma entering_none (es : list CausalLink) i :
  i ∉ map targetMarketId es -> entering i es = [].
Proof.
  unfold entering. induction es as [|x es IH]; [done|]. intros H.
  rewrite filter_cons, decide_False.
  - apply IH. intros Hin. apply H. by constructor.
  - intros E. apply H. rewrite <- E. constructor.
Qed.

Section Builder.

Variable JSON_parse : string -> option json.
Variable getPriceHistory : nat -> json -> string -> Z -> list PricePoint.
Variable findInterestingCausalMarkets :
  nat -> PolymarketMarket -> string -> list PolymarketMarket -> list Candidate.
Variables (tm : PolymarketMarket) (outcome : string).
Variables (available : list PolymarketMarket) (params : PropagationParams).
Variable history : list PricePoint.

Local Abbreviation Proposed := (Proposed findInterestingCausalMarkets outcome).
Local Abbreviation Inv := (Inv findInterestingCausalMarkets tm outcome params).
Local Abbreviation Expanding := (Expanding findInterestingCausalMarkets tm outcome params).
Local Abbreviation admission := (admitOne tm outcome available params (length history)).
Local Abbreviation step := (expand JSON_parse getPriceHistory findInterestingCausalMarkets
                               tm outcome available params history).
Local Abbreviation loop fuel :=
  (run JSON_parse getPriceHistory findInterestingCausalMarkets fuel
       tm outcome available params history).

(** *** The size of the graph *)

Lemma admission_potential cur l st r :
  (potential (admission cur l st r) <= potential st + (1 + capacity (S l)))%nat.
Proof.
  unfold admitOne, potential. destruct (find _ available); [|lia].
  destruct (bool_decide _); [lia|]. cbn [st_nodes marketsToProcess].
  rewrite length_linkSource, length_app. cbn [length].
  destruct (_ && _); [|lia].
  rewrite capacity_app. cbn [fold_right snd].
  replace (l + 1)%nat with (S l) by lia. lia.
Qed.

Lemma admissions_potential cur l rs : forall st,
  (potential (fold_left (admission cur l) rs st)
   <= potential st + length rs * (1 + capacity (S l)))%nat.
Proof.
  induction rs as [|r rs IH]; intros st; cbn [fold_left length]; [lia|].
  etrans; [apply IH|]. pose proof (admission_potential cur l st r). lia.
Qed.

Lemma expand_potential st :
  continues st = true -> (potential (step st) <= potential st)%nat.
Proof.
  intros Hc. destruct (continues_true _ Hc) as (m & l & rest & Hqueue & Hl).
  unfold expand. rewrite Hqueue.
  destruct (fold_left _ _ _) as [now validated].
  set (sortedResults := take _ _).
  etrans; [apply admissions_potential|].
  assert (length sortedResults <= getMaxNodesForLayer (S l))%nat as Hlen.
  { subst sortedResults. rewrite length_take, Nat.add_1_r. lia. }
  pose proof (capacity_budget l Hl) as Hcap.
  assert (length sortedResults * (1 + capacity (S l))
          <= getMaxNodesForLayer (S l) * (1 + capacity (S l)))%nat
    by (apply Nat.mul_le_mono_r; lia).
  unfold potential. rewrite Hqueue. cbn [st_nodes marketsToProcess fold_right snd]. lia.
Qed.

Lemma run_potential fuel : forall st st',
  loop fuel st = Some st' -> (potential st' <= potential st)%nat.
Proof.
  induction fuel as [|fuel IH]; intros st st'; cbn [run].
  - destruct (continues st); [done|]. by intros [= <-].
  - destruct (continues st) eqn:Hc; [|by intros [= <-]].
    intros Hr. etrans; [by apply IH|]. by apply expand_potential.
Qed.

(** *** Properties kept by every admission *)

Section Preserved.

Variable Q : list SimulationNode -> list CausalLink -> Prop.
Hypothesis Q_admission : forall cur l k st r,
  Expanding (id cur) l k st -> Q (st_nodes st) (st_edges st) ->
  Q (st_nodes (admission cur l st r)) (st_edges (admission cur l st r)).

Lemma admissions_preserve cur l rs : forall k st,
  Expanding (id cur) l k st ->
  Forall (fun r => exists cand corr, Proposed cand /\ Gated cand corr r) rs ->
  Q (st_nodes st) (st_edges st) ->
  Q (st_nodes (fold_left (admission cur l) rs st))
    (st_edges (fold_left (admission cur l) rs st)).
Proof.
  induction rs as [|r rs IH]; intros k st HE Hrs HQ; [done|].
  apply Forall_cons in Hrs as [Hr Hrs]. cbn [fold_left].
  apply (IH (S k)); [|done|by eapply Q_admission].
  by apply admission_expanding.
Qed.

Lemma expand_preserves st :
  Inv st -> continues st = true ->
  Q (st_nodes st) (st_edges st) ->
  Q (st_nodes (step st)) (st_edges (step st)).
Proof.
  intros [[Htrig Hnd Hproc Hlay Hdep Hq Hqnd Hqdep] Hbud Hun] Hc HQ.
  destruct (continues_true _ Hc) as (m & l & rest & Hqueue & Hl).
  unfold expand. rewrite Hqueue.
  set (pool := filter _ available).
  destruct (fold_left _ _ _) as [now validated] eqn:Hfold.
  pose proof (sortedResults_good JSON_parse getPriceHistory findInterestingCausalMarkets
                outcome available history
                (getMaxNodesForLayer (l + 1)) (tick st) m pool
                (processedMarkets st) (S (tick st))) as Hgood.
  rewrite Hfold in Hgood. simpl in Hgood. destruct Hgood as [Hlen Hgood].
  set (sortedResults := take _ _) in *.
  set (st0 := {| st_nodes := st_nodes st; st_edges := st_edges st;
                 processedMarkets := processedMarkets st;
                 marketsToProcess := rest; tick := now |}).
  rewrite Hqueue in Hq, Hqnd, Hun, Hqdep. simpl in Hqnd.
  apply Forall_cons in Hq as [Hm Hq]. apply Forall_cons in Hun as [Hm0 Hun].
  apply Forall_cons in Hqdep as [Hmdep Hqdep]. simpl in Hmdep.
  apply NoDup_cons in Hqnd as [Hmfresh Hqnd]. simpl in Hm, Hm0.
  assert (Expanding (id m) l 0 st0) as HE.
  { split; [split| | | | | |]; simpl; try done.
    - lia.
    - intros i l' Hi _. by apply Hbud.
    - apply Forall_forall. intros q Hq'. split.
      + intros E. apply Hmfresh. rewrite <- E. apply elem_of_map. by exists q.
      + rewrite Forall_forall in Hun. by apply Hun. }
  by apply (admissions_preserve m l sortedResults 0 st0 HE Hgood).
Qed.

Lemma run_preserves fuel : forall st st',
  Inv st -> loop fuel st = Some st' ->
  Q (st_nodes st) (st_edges st) -> Q (st_nodes st') (st_edges st').
Proof.
  induction fuel as [|fuel IH]; intros st st' HI; cbn [run].
  - destruct (continues st); [done|]. by intros [= <-].
  - destruct (continues st) eqn:Hc; [|by intros [= <-]].
    intros Hr HQ.
    apply (IH _ _ (proj1 (expand_inv JSON_parse getPriceHistory findInterestingCausalMarkets
                            tm outcome available params history st HI Hc)) Hr).
    by apply expand_preserves.
Qed.

End Preserved.

Lemma admission_leaving cur l k st r :
  Expanding (id cur) l k st -> OutAgree (st_nodes st) (st_edges st) ->
  OutAgree (st_nodes (admission cur l st r)) (st_edges (admission cur l st r)).
Proof.
  intros HE HO. unfold admitOne.
  destruct (find _ available) as [mk|] eqn:Hfind; [|done].
  destruct (bool_decide_reflect (id mk ∈ processedMarkets st)) as [Hin|Hfresh]; [done|].
  cbn [st_nodes st_edges].
  destruct HE as [[Htrig Hnd Hproc _ _ _ _ _] _ _ _ _ _ _].
  destruct Htrig as (n0 & ns & Hnodes & Hn0 & Horig & Hlink).
  set (edge := makeEdge tm outcome (length history) cur mk r).
  set (node := pushIncoming edge (makeNode tm outcome mk (l + 1) r)).
  assert (Hfresh' : id mk ∉ map nodeId (st_nodes st)) by (by rewrite <- Hproc).
  assert (Hid : nodeId node = id mk).
  { unfold nodeId, node. cbn [pushIncoming market]. by rewrite market_makeNode. }
  apply linkSource_leaving.
  - apply sourceMarketId_makeEdge.
  - rewrite map_app. cbn [map]. rewrite Hid. apply NoDup_app. split; [done|]. split.
    + intros x Hx Hx'. apply list_elem_of_singleton in Hx' as ->. done.
    + apply NoDup_singleton.
  - apply Forall_app. split; [done|]. constructor; [|constructor].
    rewrite Hid. unfold node. cbn [pushIncoming outgoingLinks].
    rewrite (proj2 (links_makeNode _ _ _ _ _)). symmetry. apply leaving_nil.
    intros e He Hs. apply Hfresh'.
    rewrite <- Hs, <- map_fst_signature. eapply Linked_source; [exact Hlink|done].
Qed.

Lemma admission_from_pool cur l k st r :
  Expanding (id cur) l k st -> FromPool tm available (st_nodes st) (st_edges st) ->
  FromPool tm available (st_nodes (admission cur l st r)) (st_edges (admission cur l st r)).
Proof.
  intros _ HQ. unfold admitOne.
  destruct (find _ available) as [mk|] eqn:Hfind; [|done].
  destruct (bool_decide _); [done|]. cbn [st_nodes st_edges].
  set (edge := makeEdge tm outcome (length history) cur mk r).
  set (node := pushIncoming edge (makeNode tm outcome mk (l + 1) r)).
  pose proof (linkSource_sameCore (id cur) edge (st_nodes st ++ [node])) as Hsame.
  unfold FromPool in *. apply Forall_forall. intros n Hn.
  apply list_elem_of_lookup in Hn as [i Hi].
  destruct (Forall2_lookup_l _ _ _ _ _ Hsame Hi) as (n' & Hi' & Hs).
  rewrite (sameCore_market _ _ Hs).
  apply list_elem_of_lookup_2, elem_of_app in Hi' as [Hold|Hnew].
  - rewrite Forall_forall in HQ. by apply HQ.
  - apply list_elem_of_singleton in Hnew as ->. right.
    unfold node. cbn [pushIncoming market]. rewrite market_makeNode.
    by apply find_Some in Hfind as [_ ?].
Qed.

(** *** A trigger without enough price history *)

Lemma validateOne_unbacked processed acc cand :
  (length history < 10)%nat ->
  Forall (fun r => hasHistoricalData r = false) (snd acc) ->
  Forall (fun r => hasHistoricalData r = false)
         (snd (validateOne JSON_parse getPriceHistory history available processed acc cand)).
Proof.
  intros Hshort Hacc. unfold validateOne. destruct acc as [now validated].
  cbn [snd] in Hacc.
  destruct (find _ available) as [market|]; [|done].
  destruct (bool_decide _); [done|].
  assert (forall now' : nat,
            Forall (fun r => hasHistoricalData r = false)
                   (snd (now', validated ++ [downgraded cand]))) as Hdown.
  { intros now'. cbn [snd]. apply Forall_app. split; [done|]. by repeat constructor. }
  destruct (extractTokenId JSON_parse market) as [token|]; [|apply Hdown].
  destruct (Nat.ltb_spec (length history) 10) as [_|]; [|lia].
  rewrite orb_true_r. apply Hdown.
Qed.

Lemma validateAll_unbacked processed cands : forall acc,
  (length history < 10)%nat ->
  Forall (fun r => hasHistoricalData r = false) (snd acc) ->
  Forall (fun r => hasHistoricalData r = false)
         (snd (fold_left (validateOne JSON_parse getPriceHistory history available processed)
                         cands acc)).
Proof.
  induction cands as [|cand cands IH]; intros acc Hshort Hacc; cbn [fold_left]; [done|].
  apply IH; [done|]. by apply validateOne_unbacked.
Qed.

(** With fewer than ten points of trigger history an iteration admits
    nothing: it only takes its market off the queue. *)
Lemma expand_unbacked st :
  (length history < 10)%nat ->
  st_nodes (step st) = st_nodes st
  /\ st_edges (step st) = st_edges st
  /\ marketsToProcess (step st) = tail (marketsToProcess st).
Proof.
  intros Hshort. unfold expand.
  destruct (marketsToProcess st) as [|[m l] rest] eqn:Hq; [by rewrite Hq|].
  set (pool := filter _ available).
  pose proof (validateAll_unbacked (processedMarkets st)
                (findInterestingCausalMarkets (tick st) m outcome pool)
                (S (tick st), []) Hshort ltac:(constructor)) as Hall.
  destruct (fold_left _ _ _) as [now validated]. cbn [snd] in Hall.
  rewrite (filter_unbacked validated Hall).
  cbn [sort]. by rewrite take_nil.
Qed.

End Builder.

(** *** What holds of a state that satisfies the invariant *)

Section Tree.

Variable findInterestingCausalMarkets :
  nat -> PolymarketMarket -> string -> list PolymarketMarket -> list Candidate.
Variables (tm : PolymarketMarket) (outcome : string) (params : PropagationParams).
Variable st : BuilderState.
Hypothesis HI : Inv findInterestingCausalMarkets tm outcome params st.

Lemma built_pairs :
  exists n0 ns,
    st_nodes st = n0 :: ns
    /\ nodeId n0 = id tm /\ layer n0 = 0%nat
    /\ incomingLinks n0 = []
    /\ Forall (fun n => (1 <= layer n)%nat) ns
    /\ NoDup (map nodeId (n0 :: ns))
    /\ map targetMarketId (st_edges st) = map nodeId ns
    /\ Forall2 (fun n e => incomingLinks n = [e]
                           /\ probabilityChange n
                              = (predictedProbability n - currentProbability n)%R)
               ns (st_edges st)
    /\ Forall2 (Linked (signature (n0 :: ns))) ns (st_edges st).
Proof.
  destruct (built_nodes _ _ _ _ _ HI) as (n0 & ns & E & H0 & HO & HL & ND).
  destruct (built_trigger_first _ _ _ _ _ HI) as (n0' & ns' & E' & Hid & Hl0 & _ & Hpos).
  rewrite E in E'. injection E' as <- <-.
  exists n0, ns. rewrite E in HL. repeat split; try done.
  - destruct H0 as [out ->]. done.
  - by eapply Linked_targets.
  - eapply Forall2_impl; [exact HO|].
    intros n e (cand & corr & r & sample & cur & _ & _ & _ & [out ->]).
    unfold withOutgoing, pushIncoming, makeNode.
    destruct (estimateImpact tm outcome r) as [[? ?] ?]. by cbn.
Qed.

Lemma built_reach :
  exists n0 ns,
    st_nodes st = n0 :: ns
    /\ Forall (fun n => Reach (st_edges st) (id tm) (nodeId n)) ns.
Proof.
  destruct built_pairs as (n0 & ns & E & Hid & Hl0 & _ & Hpos & ND & _ & _ & HL).
  exists n0, ns. split; [done|].
  assert (forall l n, n ∈ ns -> layer n = S l ->
            Reach (st_edges st) (id tm) (nodeId n)) as H.
  { induction l as [|l IH]; intros n Hn Hl.
    - apply list_elem_of_lookup in Hn as [i Hi].
      destruct (Forall2_lookup_l _ _ _ _ _ HL Hi) as (e & He & Ht & l' & Hs & Hl').
      assert (l' = 0%nat) as -> by lia.
      apply elem_of_signature in Hs as (s & Hs & Hsid & Hsl).
      apply elem_of_cons in Hs as [->|Hs].
      + rewrite <- Ht, <- Hid, Hsid. apply Reach_edge.
        apply list_elem_of_In. by eapply list_elem_of_lookup_2.
      + rewrite Forall_forall in Hpos. specialize (Hpos s Hs). lia.
    - apply list_elem_of_lookup in Hn as [i Hi].
      destruct (Forall2_lookup_l _ _ _ _ _ HL Hi) as (e & He & Ht & l' & Hs & Hl').
      assert (l' = S l) as -> by lia.
      apply elem_of_signature in Hs as (s & Hs & Hsid & Hsl).
      apply elem_of_cons in Hs as [->|Hs]; [lia|].
      rewrite <- Ht. apply Reach_snoc.
      + rewrite <- Hsid. by apply IH.
      + apply list_elem_of_In. by eapply list_elem_of_lookup_2. }
  apply Forall_forall. intros n Hn.
  rewrite Forall_forall in Hpos. specialize (Hpos n Hn).
  apply (H (Init.Nat.pred (layer n))); [done|lia].
Qed.

End Tree.

End BuilderMoreFacts.

(** ** The scenario as a whole *)

Module ScenarioFacts.
Import Js JsFacts ListFacts PriceHistory Types Engine EngineSpec Vocabulary EngineFacts
       BuilderMoreFacts Examples.

Lemma sum_bounds (lo hi : R) (l : list R) :
  Forall (fun x => lo <= x <= hi)%R l ->
  (INR (length l) * lo <= sum l <= INR (length l) * hi)%R.
Proof.
  induction 1 as [|x l Hx _ IH]; [unfold sum; simpl; lra|].
  rewrite sum_cons. cbn [length]. rewrite S_INR. lra.
Qed.

Lemma sum_le_max (l : list R) :
  Forall (fun x => 0 <= x)%R l ->
  (0 <= sum l <= INR (length l) * fold_right Rmax 0%R l)%R.
Proof.
  induction 1 as [|x l Hx _ IH]; [unfold sum; simpl; lra|].
  rewrite sum_cons. cbn [length fold_right]. rewrite S_INR.
  pose proof (pos_INR (length l)) as Hn.
  pose proof (Rmax_l x (fold_right Rmax 0%R l)) as H1.
  pose proof (Rmax_r x (fold_right Rmax 0%R l)) as H2.
  split; [lra|]. nra.
Qed.

Lemma byKeyDescending_total a b :
  byKeyDescending a b = false -> byKeyDescending b a = true.
Proof.
  unfold byKeyDescending. rewrite Rleb_false, Rleb_true. lra.
Qed.


Section Graph.

Variable JSON_parse : string -> option json.
Variable getPriceHistory : nat -> json -> string -> Z -> list PricePoint.
Variable findInterestingCausalMarkets :
  nat -> PolymarketMarket -> string -> list PolymarketMarket -> list Candidate.

Local Abbreviation build :=
  (createSimulationScenario JSON_parse getPriceHistory findInterestingCausalMarkets).

(** The returned scenario with what the loop keeps besides its invariant. *)
Lemma built_scenario name description tm outcome available params :
  exists st,
    Inv findInterestingCausalMarkets tm outcome params st
    /\ (potential st <= 16)%nat
    /\ OutAgree (st_nodes st) (st_edges st)
    /\ build name description tm outcome available params
       = Some {| name := name; description := description;
                 triggerMarket := tm; triggerOutcome := outcome;
                 triggerProbability := 1.0;
                 nodes := st_nodes st; edges := st_edges st;
                 metadata := computeMetadata (st_nodes st) (st_edges st) |}.
Proof.
  unfold createSimulationScenario.
  pose proof (initialState_inv findInterestingCausalMarkets tm outcome params) as HI.
  destruct (run_total JSON_parse getPriceHistory findInterestingCausalMarkets
              tm outcome available params
              (triggerHistory JSON_parse getPriceHistory tm) LOOP_BOUND _ HI)
    as [st Hst]; [simpl; unfold LOOP_BOUND; lia|].
  exists st. rewrite Hst. split; [by eapply run_inv|]. split; [|split; [|done]].
  - etrans; [by eapply run_potential|]. cbn. lia.
  - eapply (run_preserves JSON_parse getPriceHistory findInterestingCausalMarkets
              tm outcome available params _ OutAgree); [|exact HI|exact Hst|].
    + intros cur l k st0 r. apply admission_leaving.
    + repeat constructor.
Qed.

(** X11: every scenario has at most 16 nodes (the trigger, 3 on layer 1, 6
    on layer 2 and 6 on layer 3), exactly one edge per node other than the
    trigger, and reports that number as the markets affected. *)
Theorem scenario_size name description tm outcome available params :
  exists scenario,
    createSimulationScenario JSON_parse getPriceHistory findInterestingCausalMarkets
      name description tm outcome available params = Some scenario
    /\ (length (nodes scenario) <= 16)%nat
    /\ length (nodes scenario) = S (length (edges scenario))
    /\ totalMarketsAffected (metadata scenario) = length (edges scenario).
Proof.
  destruct (built_scenario name description tm outcome available params)
    as (st & HI & Hp & _ & ->).
  eexists. split; [done|]. cbn [nodes edges metadata].
  destruct (built_pairs _ _ _ _ _ HI) as (n0 & ns & E & _ & _ & _ & _ & _ & _ & HP & _).
  apply Forall2_length in HP.
  split; [unfold potential in Hp; lia|].
  unfold computeMetadata. cbn [totalMarketsAffected]. rewrite E. cbn [length]. lia.
Qed.

(** X12: in every scenario the link lists kept on the nodes agree with the
    edge list: a node's [incomingLinks] are exactly the edges that point at
    its market and its [outgoingLinks] exactly the edges that leave it, in
    the order of the edge list. *)
Theorem scenario_links_agree name description tm outcome available params :
  exists scenario,
    build name description tm outcome available params = Some scenario
    /\ LinksAgree (nodes scenario) (edges scenario).
Proof.
  destruct (built_scenario name description tm outcome available params)
    as (st & HI & _ & HO & ->).
  eexists. split; [done|]. cbn [nodes edges].
  destruct (built_pairs _ _ _ _ _ HI)
    as (n0 & ns & E & Hid & _ & Hin0 & _ & ND & HT & HP & _).
  unfold LinksAgree, OutAgree in *. rewrite E in *.
  cbn [map] in ND. apply NoDup_cons in ND as [Hn0 ND].
  apply Forall_cons in HO as [HO0 HO]. constructor.
  - split; [|done]. rewrite Hin0. symmetry. apply entering_none. by rewrite HT.
  - apply Forall_forall. intros n Hn. split.
    + apply list_elem_of_lookup in Hn as [i Hi].
      destruct (Forall2_lookup_l _ _ _ _ _ HP Hi) as (e & He & -> & _).
      assert (targetMarketId e = nodeId n) as <-.
      { pose proof (lookup_map targetMarketId _ _ _ He) as H1.
        pose proof (lookup_map nodeId _ _ _ Hi) as H2.
        rewrite HT, H2 in H1. by injection H1. }
      symmetry. apply (entering_unique _ i); [by rewrite HT|done].
    + rewrite Forall_forall in HO. by apply HO.
Qed.

(** X13: every scenario is a tree rooted at the trigger: no edge points at
    the trigger, the i-th node after the trigger is the target of the i-th
    edge and of no other, and it is reachable from the trigger along
    edges. *)
Theorem scenario_is_tree name description tm outcome available params :
  exists scenario trigger rest,
    build name description tm outcome available params = Some scenario
    /\ nodes scenario = trigger :: rest
    /\ nodeId trigger = id tm
    /\ entering (id tm) (edges scenario) = []
    /\ Forall2 (fun n e => entering (nodeId n) (edges scenario) = [e]
                           /\ Reach (edges scenario) (id tm) (nodeId n))
               rest (edges scenario).
Proof.
  destruct (built_scenario name description tm outcome available params)
    as (st & HI & _ & _ & ->).
  destruct (built_pairs _ _ _ _ _ HI)
    as (n0 & ns & E & Hid & _ & _ & _ & ND & HT & HP & _).
  destruct (built_reach _ _ _ _ _ HI) as (n0' & ns' & E' & HR).
  rewrite E in E'. injection E' as <- <-.
  eexists _, n0, ns. split; [done|]. cbn [nodes edges].
  cbn [map] in ND. apply NoDup_cons in ND as [Hn0 ND].
  split; [done|]. split; [done|]. split.
  - apply entering_none. by rewrite HT, <- Hid.
  - apply Forall2_same_length_lookup_2; [by eapply Forall2_length|].
    intros i n e Hi He. split.
    + assert (targetMarketId e = nodeId n) as <-.
      { pose proof (lookup_map targetMarketId _ _ _ He) as H1.
        pose proof (lookup_map nodeId _ _ _ Hi) as H2.
        rewrite HT, H2 in H1. by injection H1. }
      apply (entering_unique _ i); [by rewrite HT|done].
    + rewrite Forall_forall in HR. apply HR. by eapply list_elem_of_lookup_2.
Qed.

(** X14: the summary of a scenario: the average shift is non-negative and
    at most the largest shift; with no edge all three figures are 0 and the
    time horizon is "immediate"; with at least one edge the confidence
    score lies between 50 and 90 and the horizon is not "immediate". *)
Theorem scenario_summary name description tm outcome available params :
  exists scenario,
    createSimulationScenario JSON_parse getPriceHistory findInterestingCausalMarkets
      name description tm outcome available params = Some scenario
    /\ let m := metadata scenario in
       (0 <= avgProbabilityShift m <= maxProbabilityShift m)%R
       /\ (edges scenario = [] ->
           avgProbabilityShift m = 0%R /\ maxProbabilityShift m = 0%R
           /\ confidenceScore m = 0%R /\ timeHorizon m = "immediate")
       /\ (edges scenario <> [] ->
           (50 <= confidenceScore m <= 90)%R /\ timeHorizon m <> "immediate").
Proof.
  destruct (built_scenario name description tm outcome available params)
    as (st & HI & _ & _ & ->).
  eexists. split; [done|]. cbn [nodes edges metadata].
  destruct (built_pairs _ _ _ _ _ HI)
    as (n0 & ns & E & _ & Hl0 & _ & Hpos & _ & _ & HP & _).
  pose proof (Forall2_length _ _ _ HP) as Hlen.
  unfold computeMetadata. rewrite E.
  cbn [length drop avgProbabilityShift maxProbabilityShift confidenceScore timeHorizon map
       fold_right].
  replace (S (length ns) - 1)%nat with (length ns) by lia.
  rewrite Hl0, drop_0. cbn [Nat.max].
  set (shifts := map (fun n => Rabs (probabilityChange n)) ns).
  assert (Forall (fun x => 0 <= x)%R shifts) as Hnn.
  { apply Forall_forall. intros x Hx. apply elem_of_map in Hx as (n & -> & _).
    apply Rabs_pos. }
  pose proof (sum_le_max shifts Hnn) as [Hs0 Hsm].
  assert (length shifts = length ns) as Hsl by apply length_map.
  split; [|split].
  - destruct (Nat.eqb_spec (length ns) 0) as [E0|NE].
    + destruct ns; [|done]. unfold sum; simpl. lra.
    + rewrite Hsl in Hsm.
      assert (0 < INR (length ns))%R as Hn by (apply lt_0_INR; lia).
      split.
      * apply Rmult_le_reg_r with (INR (length ns)); [done|].
        unfold Rdiv. rewrite Rmult_assoc, Rinv_l by lra. lra.
      * apply Rmult_le_reg_r with (INR (length ns)); [done|].
        unfold Rdiv. rewrite Rmult_assoc, Rinv_l by lra. lra.
  - intros Hnil. rewrite Hnil in *. destruct ns; [|done].
    unfold sum; simpl. repeat split; lra.
  - intros Hne.
    assert (length (st_edges st) <> 0)%nat as NE by (by destruct (st_edges st)).
    split.
    + rewrite length_map.
      destruct (Nat.eqb_spec (length (st_edges st)) 0) as [|_]; [done|].
      assert (0 < INR (length (st_edges st)))%R as Hn by (apply lt_0_INR; lia).
      pose proof (sum_bounds 50 90 (map confidencePoints (st_edges st))) as Hb.
      rewrite length_map in Hb. destruct Hb as [Hlo Hhi].
      { apply Forall_forall. intros x Hx. apply elem_of_map in Hx as (e & -> & _).
        unfold confidencePoints. destruct (confidenceLevel e); lra. }
      split.
      * apply Rmult_le_reg_r with (INR (length (st_edges st))); [done|].
        unfold Rdiv. rewrite Rmult_assoc, Rinv_l by lra. lra.
      * apply Rmult_le_reg_r with (INR (length (st_edges st))); [done|].
        unfold Rdiv. rewrite Rmult_assoc, Rinv_l by lra. lra.
    + destruct ns as [|n ns]; [by rewrite <- Hlen in NE|].
      apply Forall_cons in Hpos as [Hn _]. cbn [map fold_right].
      set (deepest := Nat.max (layer n) _).
      assert (1 <= deepest)%nat as Hd by (subst deepest; lia).
      destruct (Nat.leb_spec 3 deepest); [discriminate|].
      destruct (Nat.leb_spec 2 deepest); [discriminate|].
      destruct (Nat.leb_spec 1 deepest); [discriminate|lia].
Qed.


(** X27: every node of a scenario other than the trigger stands for one of
    the markets the builder was given, and for another market than the
    trigger. *)
Theorem scenario_markets name description tm outcome available params :
  exists scenario trigger rest,
    createSimulationScenario JSON_parse getPriceHistory findInterestingCausalMarkets
      name description tm outcome available params = Some scenario
    /\ nodes scenario = trigger :: rest
    /\ market trigger = tm
    /\ Forall (fun n => market n ∈ available /\ id (market n) <> id tm) rest.
Proof.
  unfold createSimulationScenario.
  pose proof (initialState_inv findInterestingCausalMarkets tm outcome params) as HI.
  destruct (run_total JSON_parse getPriceHistory findInterestingCausalMarkets
              tm outcome available params
              (triggerHistory JSON_parse getPriceHistory tm) LOOP_BOUND _ HI)
    as [st Hst]; [simpl; unfold LOOP_BOUND; lia|].
  rewrite Hst.
  pose proof (run_inv _ _ _ _ _ _ _ _ _ _ _ HI Hst) as HI'.
  assert (FromPool tm available (st_nodes st) (st_edges st)) as HQ.
  { eapply (run_preserves JSON_parse getPriceHistory findInterestingCausalMarkets
              tm outcome available params _ (FromPool tm available));
      [|exact HI|exact Hst|].
    - intros cur l k st0 r. apply admission_from_pool.
    - repeat constructor. }
  destruct (built_nodes _ _ _ _ _ HI') as (n0 & ns & E & [out H0] & _ & _ & ND).
  destruct (built_trigger_first _ _ _ _ _ HI') as (n0' & ns' & E' & Hid & _).
  rewrite E in E'. injection E' as <- <-.
  eexists _, n0, ns. split; [done|]. cbn [nodes]. split; [done|].
  split; [by rewrite H0|].
  unfold FromPool in HQ. rewrite E in HQ. apply Forall_cons in HQ as [_ HQ].
  cbn [map] in ND. apply NoDup_cons in ND as [Hn0 _].
  apply Forall_forall. intros n Hn. rewrite Forall_forall in HQ.
  assert (id (market n) <> id tm) as Hne.
  { intros Heq. apply Hn0. rewrite Hid, <- Heq. apply elem_of_map. by exists n. }
  split; [|done]. destruct (HQ n Hn) as [Htm|?]; [|done]. by rewrite Htm in Hne.
Qed.

End Graph.


End ScenarioFacts.

(** ** What the entry point answers *)

Module ResponseFacts.
Import Js JsFacts ListFacts PriceHistory Types Engine EngineSpec EngineFacts Route Examples.

Lemma includes_indexOf (l : list string) (x : string) :
  includes l x = true ->
  exists k, indexOf l x = Z.of_nat k /\ l !! k = Some x.
Proof.
  unfold includes. induction l as [|y l IH]; cbn [existsb indexOf]; [done|].
  destruct (String.eqb_spec y x) as [->|NE]; [by exists 0%nat|].
  cbn [orb]. intros H. destruct (IH H) as (k & Hk & Hl).
  exists (S k). rewrite Hk. destruct (Z.ltb_spec (Z.of_nat k) 0); [lia|].
  split; [lia|done].
Qed.

Section Handler.

Variable JSON_parse : string -> option json.
Variable getPriceHistory : nat -> json -> string -> Z -> list PricePoint.
Variable findInterestingCausalMarkets :
  nat -> PolymarketMarket -> string -> list PolymarketMarket -> list Candidate.
Variable getMarketDetails : string -> option PolymarketMarket.
Variable getMarkets : Z -> bool -> option (list PolymarketMarket).

Local Abbreviation handle :=
  (POST JSON_parse getPriceHistory findInterestingCausalMarkets
        getMarketDetails getMarkets).

(** X16: every answer of the handler is an error with status 400, 404 or
    500, or a scenario for the market and the outcome the request names:
    the outcome is listed for that market, the name and the description are
    the requested ones or the defaults built from the question and the
    outcome, and the first node is the trigger market's, whose current
    probability is the listed price of the outcome unless that price is
    missing or 0. *)
Theorem POST_answers (request : option RequestBody) :
  match handle request with
  | ErrorResponse status _ => status = 400%Z \/ status = 404%Z \/ status = 500%Z
  | Success scenario =>
      exists body marketId outcome tm k trigger,
        request = Some body
        /\ present (Route.marketId body) = Some marketId
        /\ present (Route.outcome body) = Some outcome
        /\ getMarketDetails marketId = Some tm
        /\ triggerMarket scenario = tm
        /\ triggerOutcome scenario = outcome
        /\ triggerProbability scenario = 1%R
        /\ outcomes tm !! k = Some outcome
        /\ indexOf (outcomes tm) outcome = Z.of_nat k
        /\ name scenario
           = default (question tm +:+ " → " +:+ outcome) (present (scenarioName body))
        /\ description scenario
           = default ("Simulation of " +:+ outcome +:+ " occurring")
                     (present (scenarioDescription body))
        /\ nodes scenario !! 0%nat = Some trigger
        /\ market trigger = tm
        /\ (forall price, outcomePrices tm !! k = Some price -> price <> 0%R ->
              currentProbability trigger = price)
  end.
Proof.
  unfold POST.
  destruct request as [body|]; [|by right; right].
  destruct (present (Route.marketId body)) as [mid|] eqn:Hm; [|by destruct (present _); left].
  destruct (present (Route.outcome body)) as [o|] eqn:Ho; [|by left].
  destruct (getMarketDetails mid) as [m|] eqn:Hd; [|by right; left].
  destruct (includes (outcomes m) o) eqn:Hi; [|by left]. cbn [negb].
  destruct (getMarkets 100000 true) as [avail|] eqn:Hg; [|by right; right].
  destruct (length avail <? 100)%nat; [by right; right|].
  match goal with |- context [createSimulationScenario ?a ?b ?c ?n ?d ?t ?u ?v ?w] =>
    destruct (createSimulationScenario_built a b c n d t u v w) as (st & HI & ->) end.
  destruct (includes_indexOf _ _ Hi) as (k & Hk & Hl).
  destruct (built_nodes _ _ _ _ _ HI) as (n0 & ns & E & [out H0] & _).
  exists body, mid, o, m, k, n0. cbn [triggerMarket triggerOutcome triggerProbability
                                      name description nodes].
  rewrite E. repeat split; try done.
  - lra.
  - by rewrite H0.
  - intros price Hp Hne. rewrite H0. cbn [withOutgoing currentProbability triggerNode].
    apply triggerPrice_listed; [|done].
    unfold at_index. rewrite Hk. destruct (Z.ltb_spec (Z.of_nat k) 0); [lia|].
    by rewrite Nat2Z.id.
Qed.

End Handler.

End ResponseFacts.

(** ** The client's cache *)

Module CacheFacts.
Import Js Types Client.

(** X17: an entry written at time [now] is served until 60 seconds (60000
    milliseconds) have passed and is deleted by the first read after that;
    reads and writes of one key never change what is stored under another,
    and nothing is served from a cleared cache. *)
Theorem cache_round_trip {A : Type} (cache : gmap string (Cached A))
    (key : string) (d : A) (now later : Z) :
  let stored := setCache now key d cache in
  ((later - now < 60000)%Z -> getCached later key stored = (Some d, stored))
  /\ ((60000 <= later - now)%Z -> getCached later key stored = (None, delete key cache))
  /\ (forall other, other <> key ->
        stored !! other = cache !! other
        /\ snd (getCached later key cache) !! other = cache !! other
        /\ fst (getCached later other stored) = fst (getCached later other cache))
  /\ getCached later key (clearCache stored) = (None, ∅).
Proof.
  intros stored. subst stored. unfold setCache, getCached, clearCache, CACHE_TTL.
  rewrite lookup_insert_eq. cbn [timestamp data].
  split; [|split; [|split]].
  - intros H. by destruct (Z.ltb_spec (later - now) (60 * 1000)); [|lia].
  - intros H. destruct (Z.ltb_spec (later - now) (60 * 1000)); [lia|].
    by rewrite delete_insert_eq.
  - intros other Hne. rewrite !lookup_insert_ne by done. split; [done|]. split.
    + destruct (cache !! key) as [c|]; [destruct (_ <? _)%Z|]; cbn [snd];
        by rewrite ?lookup_delete_ne.
    + destruct (cache !! other) as [c|]; [destruct (_ <? _)%Z|]; done.
  - rewrite lookup_empty. by rewrite delete_empty.
Qed.

(** X18: [getMarketDetails] answers from the cache or from the request; an
    answer is kept under the key of the market and repeated, without a new
    request, by every call made less than 60 seconds after it was stored; a
    failed request leaves nothing in the cache. *)
Theorem getMarketDetails_cached (fetch : string -> option PolymarketMarket)
    (now later : Z) (marketId : string) (cache : gmap string (Cached PolymarketMarket)) :
  let key := "market_" +:+ marketId in
  match getMarketDetails fetch now later marketId cache with
  | (Some market, cache') =>
      exists stored,
        cache' !! key = Some {| data := market; timestamp := stored |}
        /\ ((cache !! key = Some {| data := market; timestamp := stored |}
             /\ (now - stored < 60000)%Z /\ cache' = cache)
            \/ (fetch marketId = Some market /\ stored = later))
        /\ (forall fetch' now' later',
              (now' - stored < 60000)%Z ->
              getMarketDetails fetch' now' later' marketId cache' = (Some market, cache'))
  | (None, cache') =>
      fetch marketId = None /\ cache' !! key = None
      /\ forall other, other <> key -> cache' !! other = cache !! other
  end.
Proof.
  intros key.
  assert (forall (c : gmap string (Cached PolymarketMarket)) market stored,
            c !! key = Some {| data := market; timestamp := stored |} ->
            forall fetch' now' later', (now' - stored < 60000)%Z ->
              getMarketDetails fetch' now' later' marketId c = (Some market, c)) as Hhit.
  { intros c market stored Hc fetch' now' later' Hlt.
    unfold getMarketDetails, getCached. fold key. rewrite Hc. cbn [timestamp data].
    unfold CACHE_TTL. by destruct (Z.ltb_spec (now' - stored) (60 * 1000)); [|lia]. }
  unfold getMarketDetails at 1. fold key. unfold getCached, CACHE_TTL.
  destruct (cache !! key) as [[market stored]|] eqn:Hc; cbn [timestamp data].
  - destruct (Z.ltb_spec (now - stored) (60 * 1000)) as [Hlt|Hge].
    + exists stored. split; [done|]. split; [left; split; [done|split; [lia|done]]|].
      by apply Hhit.
    + destruct (fetch marketId) as [market'|] eqn:Hf.
      * exists later. unfold setCache. rewrite lookup_insert_eq.
        split; [done|]. split; [by right|].
        apply Hhit. by rewrite lookup_insert_eq.
      * split; [done|]. rewrite lookup_delete_eq. split; [done|].
        intros other Hne. by rewrite lookup_delete_ne.
  - destruct (fetch marketId) as [market'|] eqn:Hf.
    + exists later. unfold setCache. rewrite lookup_insert_eq.
      split; [done|]. split; [by right|].
      apply Hhit. by rewrite lookup_insert_eq.
    + split; [done|]. rewrite lookup_delete_eq. split; [done|].
      intros other Hne. by rewrite lookup_delete_ne.
Qed.

End CacheFacts.

(** ** The correlation store and the lagged analysis *)

Module StoreFacts.
Import Js JsFacts ListFacts PriceHistory Types Correlations Vocabulary EngineFacts
       CorrelationFacts Examples.

Lemma Map_get_set_eq {V : Type} (key : string) (v : V) (m : list (string * V)) :
  Map_get key (Map_set key v m) = Some v.
Proof.
  induction m as [|[k v'] m IH]; cbn [Map_set Map_get].
  - by rewrite String.eqb_refl.
  - destruct (String.eqb_spec k key) as [->|NE]; cbn [Map_get].
    + by rewrite String.eqb_refl.
    + by destruct (String.eqb_spec k key).
Qed.

Lemma Map_get_set_ne {V : Type} (key other : string) (v : V) (m : list (string * V)) :
  other <> key -> Map_get other (Map_set key v m) = Map_get other m.
Proof.
  intros Hne. induction m as [|[k v'] m IH]; cbn [Map_set Map_get].
  - by destruct (String.eqb_spec key other).
  - destruct (String.eqb_spec k key) as [->|NE]; cbn [Map_get].
    + by destruct (String.eqb_spec key other).
    + by rewrite IH.
Qed.

Lemma Map_set_set {V : Type} (key : string) (v v' : V) (m : list (string * V)) :
  Map_set key v' (Map_set key v m) = Map_set key v' m.
Proof.
  induction m as [|[k w] m IH]; cbn [Map_set].
  - by rewrite String.eqb_refl.
  - destruct (String.eqb_spec k key) as [->|NE]; cbn [Map_set].
    + by rewrite String.eqb_refl.
    + destruct (String.eqb_spec k key); [done|]. by rewrite IH.
Qed.

Lemma Map_get_elem {V : Type} (key : string) (v : V) (m : list (string * V)) :
  Map_get key m = Some v -> (key, v) ∈ m.
Proof.
  induction m as [|[k w] m IH]; cbn [Map_get]; [done|].
  destruct (String.eqb_spec k key) as [->|NE].
  - intros [= ->]. constructor.
  - intros H. constructor. by apply IH.
Qed.

(** [storeCorrelation] in one step. *)
Lemma storeCorrelation_set a b d db :
  storeCorrelation a b d db
  = Map_set a (Map_set b d (default [] (Map_get a db))) db.
Proof.
  unfold storeCorrelation. destruct (Map_get a db) as [inner|] eqn:Hget.
  - by rewrite Hget.
  - by rewrite Map_get_set_eq, Map_set_set.
Qed.

(** X19: a stored record is what [getCorrelation] returns for its pair of
    markets, storing leaves every other pair as it was, a second record for
    the same pair replaces the first, and an initialized database holds
    nothing. *)
Theorem storeCorrelation_round_trip (marketAId marketBId : string)
    (d : CorrelationData) (db : Database) :
  let db' := storeCorrelation marketAId marketBId d db in
  getCorrelation marketAId marketBId db' = Some d
  /\ (forall a b, a <> marketAId \/ b <> marketBId ->
        getCorrelation a b db' = getCorrelation a b db)
  /\ (forall d', storeCorrelation marketAId marketBId d' db'
                 = storeCorrelation marketAId marketBId d' db)
  /\ d ∈ getMarketCorrelations marketAId db'
  /\ (forall a b, getCorrelation a b initializeCorrelationDatabase = None).
Proof.
  intros db'. subst db'. rewrite storeCorrelation_set.
  unfold getCorrelation, getMarketCorrelations.
  rewrite !Map_get_set_eq.
  split; [done|]. split; [|split; [|split; [|done]]].
  - intros a b Hab. destruct (String.eqb_spec a marketAId) as [->|NE].
    + rewrite Map_get_set_eq. destruct Hab as [?|Hb]; [done|].
      rewrite Map_get_set_ne by done. by destruct (Map_get marketAId db).
    + by rewrite Map_get_set_ne.
  - intros d'. rewrite !storeCorrelation_set, Map_get_set_eq. cbn [default].
    unfold Datatypes.id. by rewrite !Map_set_set.
  - apply elem_of_map. exists (marketBId, d). split; [done|].
    apply Map_get_elem, Map_get_set_eq.
Qed.

Lemma byMagnitude_total a b : byMagnitude a b = false -> byMagnitude b a = true.
Proof. unfold byMagnitude. rewrite Rleb_false, Rleb_true. lra. Qed.

(** X20: [findStrongCorrelations] returns exactly the stored correlations
    of the market whose magnitude reaches the threshold, strongest first;
    for a market without stored correlations it returns nothing. *)
Theorem findStrongCorrelations_sorted (marketId : string) (minCorrelation : R)
    (db : Database) :
  let found := findStrongCorrelations marketId minCorrelation db in
  (forall c, c ∈ found <->
             c ∈ getMarketCorrelations marketId db
             /\ (minCorrelation <= Rabs (cd_correlation c))%R)
  /\ length found <= length (getMarketCorrelations marketId db)
  /\ Sorted (fun a b => Rabs (cd_correlation b) <= Rabs (cd_correlation a))%R found
  /\ (Map_get marketId db = None -> found = []).
Proof.
  intros found. subst found. unfold findStrongCorrelations.
  split; [|split; [|split]].
  - intros c. rewrite elem_of_sort, list_elem_of_filter, Rleb_true. tauto.
  - rewrite length_sort. apply length_filter.
  - pose proof (sort_Sorted byMagnitude byMagnitude_total
      (filter (fun c => Rleb minCorrelation (Rabs (cd_correlation c)) = true)
              (getMarketCorrelations marketId db))) as H.
    induction H as [|x l _ IH Hx]; constructor; [done|].
    destruct Hx as [|y l Hxy]; constructor.
    unfold byMagnitude in Hxy. apply Rleb_true in Hxy. lra.
  - unfold getMarketCorrelations. by intros ->.
Qed.

(** The store keeps insertion order, and a replaced record keeps its
    place; [findStrongCorrelations] then orders by magnitude, so the
    negative correlation of larger magnitude comes first. *)
Example store_example :
  let db := storeCorrelation "a" "b1" (exCorrelation "b1" 0.6)
              (storeCorrelation "a" "b2" (exCorrelation "b2" (-0.8))
                 (storeCorrelation "a" "b1" (exCorrelation "b1" 0.1)
                    initializeCorrelationDatabase)) in
  getMarketCorrelations "a" db = [exCorrelation "b1" 0.6; exCorrelation "b2" (-0.8)]
  /\ findStrongCorrelations "a" 0.5 db
     = [exCorrelation "b2" (-0.8); exCorrelation "b1" 0.6].
Proof.
  intros db.
  assert (getMarketCorrelations "a" db
          = [exCorrelation "b1" 0.6; exCorrelation "b2" (-0.8)]) as E by reflexivity.
  split; [exact E|]. unfold findStrongCorrelations. rewrite E.
  rewrite filter_cons, decide_True.
  2:{ apply Rleb_true. cbn [exCorrelation cd_correlation]. rewrite Rabs_right; lra. }
  rewrite filter_cons, decide_True.
  2:{ apply Rleb_true. cbn [exCorrelation cd_correlation]. rewrite Rabs_left; lra. }
  rewrite filter_nil. cbn [sort insert_sorted]. unfold byMagnitude.
  cbn [exCorrelation cd_correlation].
  rewrite (Rabs_right 0.6), (Rabs_left (-0.8)) by lra.
  by rewrite (proj2 (Rleb_false (- - 0.8 - 0.6) 0)) by lra.
Qed.

End StoreFacts.

Module PearsonFacts.
Import Js JsFacts ListFacts PriceHistory PriceHistoryFacts Types Correlations Vocabulary
       CorrelationFacts Examples.

Lemma fold_sum {A : Type} (g : A -> R) (l : list A) : forall a,
  fold_left (fun acc x => (acc + g x)%R) l a = (a + sum (map g l))%R.
Proof.
  induction l as [|x l IH]; intros a; cbn [fold_left map].
  - unfold sum. simpl. lra.
  - rewrite IH, sum_cons. lra.
Qed.

(** The accumulators of [calculateCorrelation] in terms of the raw sums
    [pearsonCorrelation] works with. *)
Lemma accumulate_moments m1 m2 x : forall y c v1 v2,
  length x = length y ->
  fold_left (accumulate m1 m2) (combine x y) (c, v1, v2)
  = let n := INR (length x) in
    let sxy := sum (map (fun xy => fst xy * snd xy)%R (combine x y)) in
    let sx2 := sum (map (fun xi => xi * xi)%R x) in
    let sy2 := sum (map (fun yi => yi * yi)%R y) in
    (c + (sxy - m2 * sum x - m1 * sum y + n * m1 * m2),
     v1 + (sx2 - 2 * m1 * sum x + n * m1 * m1),
     v2 + (sy2 - 2 * m2 * sum y + n * m2 * m2))%R.
Proof.
  induction x as [|a x IH]; intros [|b y] c v1 v2 Hlen; try done.
  - cbv zeta. unfold sum. simpl. f_equal; [f_equal|]; lra.
  - cbn [combine fold_left map length]. unfold accumulate at 2. cbn [fst snd].
    rewrite IH by (cbn [length] in Hlen; lia). cbv zeta.
    rewrite !sum_cons, S_INR. cbn [fst snd]. f_equal; [f_equal|]; lra.
Qed.

(** [pearsonCorrelation] through the centred sums. *)
Lemma pearsonCorrelation_centred (x y : list R) :
  length x = length y -> length x <> 0%nat ->
  let n := INR (length x) in
  let '(c, v1, v2) :=
    fold_left (accumulate (sum x / n) (sum y / n)) (combine x y) (0, 0, 0)%R in
  pearsonCorrelation x y
  = if Reqb (n * sqrt (v1 * v2)) 0 then 0%R else (c / sqrt (v1 * v2))%R.
Proof.
  intros Hlen Hne n.
  assert (0 < n)%R as Hn by (apply lt_0_INR; lia).
  pose proof (accumulate_cauchy_schwarz (sum x / n) (sum y / n) (combine x y)) as CS.
  rewrite accumulate_moments in * by done. cbv zeta in *. fold n in CS |- *.
  unfold pearsonCorrelation.
  rewrite Hlen, Nat.eqb_refl. rewrite <- Hlen.
  destruct (Nat.eqb_spec (length x) 0) as [|_]; [done|]. cbn [negb orb].
  rewrite !fold_sum, !Rplus_0_l. fold n.
  set (sxy := sum (map _ (combine x y))) in *.
  set (sx2 := sum (map _ x)) in *. set (sy2 := sum (map _ y)) in *.
  set (sx := sum x) in *. set (sy := sum y) in *.
  destruct CS as (P1 & P2 & _).
  set (c := (sxy - sy / n * sx - sx / n * sy + n * (sx / n) * (sy / n))%R) in *.
  set (v1 := (sx2 - 2 * (sx / n) * sx + n * (sx / n) * (sx / n))%R) in *.
  set (v2 := (sy2 - 2 * (sy / n) * sy + n * (sy / n) * (sy / n))%R) in *.
  assert (n * sxy - sx * sy = n * c)%R as -> by (subst c; field; lra).
  assert (n * sx2 - sx * sx = n * v1)%R as -> by (subst v1; field; lra).
  assert (n * sy2 - sy * sy = n * v2)%R as -> by (subst v2; field; lra).
  replace (n * v1 * (n * v2))%R with (Rsqr n * (v1 * v2))%R by (unfold Rsqr; ring).
  rewrite sqrt_mult by (try apply Rle_0_sqr; nra).
  rewrite sqrt_Rsqr by lra.
  destruct (Reqb (n * sqrt (v1 * v2)) 0) eqn:E; [done|].
  apply Reqb_false in E. field. split; [|lra]. intros H0. apply E. rewrite H0. ring.
Qed.

Lemma sqrt_product_over (v1 v2 n : R) :
  (0 <= v1)%R -> (0 <= v2)%R -> (0 < n)%R ->
  (n * sqrt (v1 / n) * sqrt (v2 / n) = sqrt (v1 * v2))%R.
Proof.
  intros H1 H2 Hn.
  assert (0 <= v1 / n)%R as Q1 by (apply Rle_mult_inv_pos; lra).
  assert (0 <= v2 / n)%R as Q2 by (apply Rle_mult_inv_pos; lra).
  rewrite Rmult_assoc, <- sqrt_mult by done.
  replace (v1 / n * (v2 / n))%R with (v1 * v2 / Rsqr n)%R by (unfold Rsqr; field; lra).
  rewrite sqrt_div_alt by (unfold Rsqr; nra).
  rewrite sqrt_Rsqr by lra. field. lra.
Qed.

Lemma pearsonCorrelation_range (x y : list R) : (-1 <= pearsonCorrelation x y <= 1)%R.
Proof.
  destruct (Nat.eq_dec (length x) (length y)) as [Hlen|Hlen].
  2:{ unfold pearsonCorrelation.
      destruct (Nat.eqb_spec (length x) (length y)); [done|]. cbn. lra. }
  destruct (Nat.eq_dec (length x) 0) as [H0|H0].
  { unfold pearsonCorrelation. rewrite H0. rewrite orb_true_r. lra. }
  pose proof (pearsonCorrelation_centred x y Hlen H0) as Hp. cbv zeta in Hp.
  pose proof (accumulate_cauchy_schwarz (sum x / INR (length x)) (sum y / INR (length x))
                (combine x y)) as CS.
  destruct (fold_left _ _ _) as [[c v1] v2]. destruct CS as (P1 & P2 & CS).
  rewrite Hp. destruct (Reqb _ 0) eqn:E; [lra|]. apply Reqb_false in E.
  pose proof (sqrt_pos (v1 * v2)) as Hs.
  assert (0 < sqrt (v1 * v2))%R as Hpos.
  { destruct (Rle_lt_or_eq_dec _ _ Hs) as [|Hz]; [done|].
    exfalso. apply E. rewrite <- Hz. ring. }
  assert (sqrt (v1 * v2) * sqrt (v1 * v2) = v1 * v2)%R as Hsq by (apply sqrt_sqrt; nra).
  assert (- sqrt (v1 * v2) <= c <= sqrt (v1 * v2))%R as Hc by nra.
  split.
  - apply Rmult_le_reg_r with (sqrt (v1 * v2)); [done|]. unfold Rdiv.
    rewrite Rmult_assoc, Rinv_l by lra. lra.
  - apply Rmult_le_reg_r with (sqrt (v1 * v2)); [done|]. unfold Rdiv.
    rewrite Rmult_assoc, Rinv_l by lra. lra.
Qed.

(** X21: the second implementation of the coefficient,
    [pearsonCorrelation], answers 0 for series of different lengths and for
    empty ones; on two series of the same length, neither of them flat, it
    stays within [-1, 1], and with at least ten points it returns exactly
    what [calculateCorrelation] returns. *)
Theorem pearsonCorrelation_agrees (x y : list R) :
  (length x <> length y \/ length x = 0%nat -> pearsonCorrelation x y = 0%R)
  /\ (length x = length y -> variance x <> 0%R -> variance y <> 0%R ->
      (-1 <= pearsonCorrelation x y <= 1)%R
      /\ ((10 <= length x)%nat -> pearsonCorrelation x y = calculateCorrelation x y)).
Proof.
  split.
  { intros H. unfold pearsonCorrelation.
    destruct (Nat.eqb_spec (length x) (length y)) as [E|NE]; [|done].
    destruct H as [H|H]; [done|]. rewrite H. done. }
  intros Hlen _ _.
  split; [apply pearsonCorrelation_range|].
  intros Hten.
    pose proof (pearsonCorrelation_centred x y Hlen ltac:(lia)) as Hp. cbv zeta in Hp.
    pose proof (accumulate_cauchy_schwarz (sum x / INR (length x)) (sum y / INR (length x))
                  (combine x y)) as CS.
    unfold calculateCorrelation.
    rewrite Hlen, Nat.eqb_refl. rewrite <- Hlen. cbn [negb orb].
    destruct (Nat.ltb_spec (length x) 10) as [|_]; [lia|].
    set (n := INR (length x)) in *.
    assert (0 < n)%R as Hn by (apply lt_0_INR; lia).
    destruct (fold_left _ _ _) as [[c v1] v2]. destruct CS as (P1 & P2 & CS).
    rewrite Hp.
    assert (0 <= v1 / n)%R as Q1 by (apply Rle_mult_inv_pos; lra).
    assert (0 <= v2 / n)%R as Q2 by (apply Rle_mult_inv_pos; lra).
    pose proof (sqrt_product_over v1 v2 n P1 P2 Hn) as Hprod.
    pose proof (sqrt_pos (v1 / n)) as S1. pose proof (sqrt_pos (v2 / n)) as S2.
    destruct (Reqb (sqrt (v1 / n)) 0) eqn:E1.
    { apply Reqb_true in E1. rewrite E1 in Hprod.
      rewrite <- Hprod. cbn [orb].
      by rewrite (proj2 (Reqb_true _ 0)) by ring. }
    destruct (Reqb (sqrt (v2 / n)) 0) eqn:E2.
    { apply Reqb_true in E2. rewrite E2 in Hprod.
      rewrite <- Hprod. cbn [orb].
      by rewrite (proj2 (Reqb_true _ 0)) by ring. }
    cbn [orb]. apply Reqb_false in E1, E2. rewrite Hprod.
    assert (0 < sqrt (v1 * v2))%R as Hpos.
    { rewrite <- Hprod. apply Rmult_lt_0_compat; [apply Rmult_lt_0_compat|]; lra. }
    by rewrite (proj2 (Reqb_false _ 0)) by nra.
Qed.

Lemma pearsonCorrelation_agrees_witness :
  pearsonCorrelation alternating alternating = calculateCorrelation alternating alternating.
Proof.
  assert (variance alternating <> 0%R) as Hv by (rewrite variance_alternating; lra).
  assert (10 <= length alternating)%nat as H10 by (simpl; lia).
  exact (proj2 (proj2 (pearsonCorrelation_agrees alternating alternating) eq_refl Hv Hv)
               H10).
Defined.

(** Each [pearsonCorrelation] the loop computes is the coefficient of its
    lag. *)
Lemma lagged_pair (x y : list R) (l : nat) :
  (l < length x)%nat ->
  let xLagged := if (l =? 0)%nat then x else take (length x - l) x in
  let yLagged := drop l y in
  Nat.min (length xLagged) (length yLagged) = overlap x y l
  /\ pearsonCorrelation (take (Nat.min (length xLagged) (length yLagged)) xLagged)
                        (take (Nat.min (length xLagged) (length yLagged)) yLagged)
     = correlationAt x y l.
Proof.
  intros Hl xLagged yLagged.
  assert (xLagged = take (length x - l) x) as ->.
  { subst xLagged. destruct (Nat.eqb_spec l 0) as [->|]; [|done].
    by rewrite Nat.sub_0_r, firstn_all. }
  subst yLagged. unfold correlationAt, overlap.
  rewrite length_take, length_drop.
  replace (Nat.min (length x - l) (length x)) with (length x - l)%nat by lia. done.
Qed.

(** What the loop returns, started at [lag] with [count] iterations left. *)
Lemma lag_loop_best (x y : list R) (count : nat) : forall (start : nat) (best : Lagged),
  let r := lag_loop count start x y best in
  (Rabs (correlation best) <= Rabs (correlation r))%R
  /\ (r = best
      \/ ((start <= lag r < start + count)%nat
          /\ (lag r < length x)%nat /\ (lag r < length y)%nat
          /\ (3 <= overlap x y (lag r))%nat
          /\ correlation r = correlationAt x y (lag r)))
  /\ (forall l, (start <= l < start + count)%nat ->
        (l < length x)%nat -> (l < length y)%nat -> (3 <= overlap x y l)%nat ->
        (Rabs (correlationAt x y l) <= Rabs (correlation r))%R).
Proof.
  induction count as [|count IH]; intros start best; cbn [lag_loop].
  - split; [lra|]. split; [by left|]. intros l Hl. lia.
  - destruct (Nat.leb_spec (length x) start) as [Hx|Hx]; cbn [orb].
    { split; [lra|]. split; [by left|]. intros l Hl ?. lia. }
    destruct (Nat.leb_spec (length y) start) as [Hy|Hy].
    { split; [lra|]. split; [by left|]. intros l Hl ? ?. lia. }
    destruct (lagged_pair x y start Hx) as [Hm Hc]. cbv zeta in Hm, Hc.
    rewrite Hc, Hm.
    destruct (Nat.ltb_spec (overlap x y start) 3) as [Hshort|Hlong].
    + specialize (IH (S start) best). cbv zeta in IH.
      destruct IH as (H1 & H2 & H3). split; [done|]. split.
      * destruct H2 as [?|(? & ?)]; [by left|right]. split; [lia|done].
      * intros l Hl Hlx Hly Hov. destruct (decide (l = start)) as [->|]; [lia|].
        apply H3; [lia|done..].
    + destruct (Rltb (Rabs (correlation best)) (Rabs (correlationAt x y start))) eqn:E.
      * apply Rltb_true in E.
        specialize (IH (S start) {| correlation := correlationAt x y start; lag := start |}).
        cbv zeta in IH. cbn [correlation lag] in IH.
        destruct IH as (H1 & H2 & H3). split; [lra|]. split.
        -- right. destruct H2 as [->|(? & ?)]; cbn [lag correlation].
           ++ repeat split; try done; lia.
           ++ split; [lia|done].
        -- intros l Hl Hlx Hly Hov. destruct (decide (l = start)) as [->|]; [done|].
           apply H3; [lia|done..].
      * apply Rltb_false in E.
        specialize (IH (S start) best). cbv zeta in IH.
        destruct IH as (H1 & H2 & H3). split; [done|]. split.
        -- destruct H2 as [?|(? & ?)]; [by left|right]. split; [lia|done].
        -- intros l Hl Hlx Hly Hov. destruct (decide (l = start)) as [->|]; [lra|].
           apply H3; [lia|done..].
Qed.

Lemma calculateLaggedCorrelation_range (x y : list R) (maxLag : Z) :
  (-1 <= correlation (calculateLaggedCorrelation x y maxLag) <= 1)%R
  /\ (Z.of_nat (lag (calculateLaggedCorrelation x y maxLag)) <= Z.max 0 maxLag)%Z.
Proof.
  unfold calculateLaggedCorrelation. set (count := Z.to_nat _).
  pose proof (lag_loop_best x y count 0 {| correlation := 0; lag := 0 |}) as H.
  cbv zeta in H. destruct H as (_ & H2 & _).
  set (r := lag_loop _ _ _ _ _) in *.
  destruct H2 as [->|(Hl & _ & _ & _ & ->)]; cbn [correlation lag].
  - split; [lra|lia].
  - split; [apply pearsonCorrelation_range|subst count; lia].
Qed.

(** X22: on two series that are not flat on any stretch the loop compares,
    [calculateLaggedCorrelation] returns a coefficient within [-1, 1]
    together with a lag of at most [maxLag]: either 0 at lag 0, or the
    coefficient of the two series shifted by the returned lag, over at least
    three points; and no admissible lag gives a coefficient of larger
    magnitude. *)
Theorem calculateLaggedCorrelation_best (x y : list R) (maxLag : Z) :
  Moving x y maxLag ->
  let r := calculateLaggedCorrelation x y maxLag in
  (-1 <= correlation r <= 1)%R
  /\ (Z.of_nat (lag r) <= Z.max 0 maxLag)%Z
  /\ ((correlation r = 0%R /\ lag r = 0%nat)
      \/ ((lag r + 2 <= length x)%nat /\ (lag r < length y)%nat
          /\ (3 <= overlap x y (lag r))%nat
          /\ correlation r = correlationAt x y (lag r)))
  /\ (forall l, (Z.of_nat l <= maxLag)%Z -> (l + 2 <= length x)%nat ->
        (l < length y)%nat -> (3 <= overlap x y l)%nat ->
        (Rabs (correlationAt x y l) <= Rabs (correlation r))%R).
Proof.
  intros _ r. subst r. unfold calculateLaggedCorrelation.
  set (count := Z.to_nat _).
  pose proof (lag_loop_best x y count 0 {| correlation := 0; lag := 0 |}) as H.
  cbv zeta in H. destruct H as (_ & H2 & H3).
  set (r := lag_loop _ _ _ _ _) in *.
  assert ((correlation r = 0%R /\ lag r = 0%nat)
          \/ ((lag r + 2 <= length x)%nat /\ (Z.of_nat (lag r) <= maxLag)%Z
              /\ (lag r < length y)%nat
              /\ (3 <= overlap x y (lag r))%nat
              /\ correlation r = correlationAt x y (lag r))) as Hr.
  { destruct H2 as [->|(Hl & Hx & Hy & Ho & Hc)]; [by left|right].
    subst count. repeat split; try done; lia. }
  split; [|split; [|split]].
  - destruct Hr as [[-> _]|(_ & _ & _ & _ & ->)]; [lra|].
    apply pearsonCorrelation_range.
  - destruct Hr as [[_ ->]|(_ & ? & _)]; lia.
  - destruct Hr as [?|(? & _ & ? & ? & ?)]; [by left|by right].
  - intros l Hl Hx Hy Ho. apply H3; [subst count; lia|lia|done..].
Qed.

(** Two small series: uncorrelated as they stand, perfectly correlated once
    the second is shifted by one step. *)
Example pearsonCorrelation_perfect : pearsonCorrelation [1; 2; 3]%R [1; 2; 3]%R = 1%R.
Proof.
  unfold pearsonCorrelation. cbn [length Nat.eqb negb orb combine fold_left fst snd].
  unfold sum. cbn [fold_left].
  replace (INR 3) with 3%R by (simpl; lra).
  match goal with |- context [sqrt ?a] => replace a with (6 * 6)%R by lra end.
  rewrite sqrt_square by lra.
  rewrite (proj2 (Reqb_false 6 0)) by lra. lra.
Qed.

Example pearsonCorrelation_uncorrelated :
  pearsonCorrelation [1; 2; 3; 2]%R [2; 1; 2; 3]%R = 0%R.
Proof.
  unfold pearsonCorrelation. cbn [length Nat.eqb negb orb combine fold_left fst snd].
  unfold sum. cbn [fold_left].
  replace (INR 4) with 4%R by (simpl; lra).
  match goal with |- context [sqrt ?a] => replace a with (8 * 8)%R by lra end.
  rewrite sqrt_square by lra.
  rewrite (proj2 (Reqb_false 8 0)) by lra. lra.
Qed.

Example calculateLaggedCorrelation_example :
  calculateLaggedCorrelation [1; 2; 3; 2]%R [2; 1; 2; 3]%R 7
  = {| correlation := 1; lag := 1 |}.
Proof.
  unfold calculateLaggedCorrelation.
  change (Z.to_nat _) with 3%nat.
  cbn [lag_loop length Nat.leb orb Nat.eqb drop take Nat.sub Nat.min Nat.ltb correlation].
  rewrite pearsonCorrelation_uncorrelated, pearsonCorrelation_perfect.
  rewrite Rabs_R0, Rabs_R1.
  rewrite (proj2 (Rltb_true 0 1)) by lra. by destruct (Rltb 0 0).
Qed.

Lemma variance_rise : variance [1; 2; 3]%R <> 0%R.
Proof.
  unfold variance, sum. cbn [length map fold_left].
  replace (INR 3) with 3%R by (simpl; lra). lra.
Qed.

Lemma variance_first : variance [1; 2; 3; 2]%R <> 0%R.
Proof.
  unfold variance, sum. cbn [length map fold_left].
  replace (INR 4) with 4%R by (simpl; lra). lra.
Qed.

Lemma variance_second : variance [2; 1; 2; 3]%R <> 0%R.
Proof.
  unfold variance, sum. cbn [length map fold_left].
  replace (INR 4) with 4%R by (simpl; lra). lra.
Qed.

Lemma Moving_example : Moving [1; 2; 3; 2]%R [2; 1; 2; 3]%R 7.
Proof.
  intros l _ Hx _ Ho. cbn [length] in Hx.
  destruct l as [|[|l]].
  - split; [apply variance_first|apply variance_second].
  - split; apply variance_rise.
  - exfalso. unfold overlap in Ho. cbn [length] in Ho. lia.
Qed.

Lemma calculateLaggedCorrelation_best_witness :
  Moving [1; 2; 3; 2]%R [2; 1; 2; 3]%R 7
  /\ (Z.of_nat (lag (calculateLaggedCorrelation [1; 2; 3; 2]%R [2; 1; 2; 3]%R 7)) <= 7)%Z.
Proof.
  split; [exact Moving_example|].
  exact (proj1 (proj2 (calculateLaggedCorrelation_best [1; 2; 3; 2]%R [2; 1; 2; 3]%R 7
                         Moving_example))).
Defined.

Section Analysis.

Variable calculateConfidence : R -> nat -> R.

(** X23: [analyzeCorrelation] answers [null] for a series of fewer than ten
    points; a record it returns names the second market, carries a
    correlation of magnitude at least 0.3 whose sign is the stated
    direction, a lag between 0 and 7 days, and as sample size the length of
    the shorter series.  When the magnitude of the correlation is below 1,
    the confidence is the one computed for that correlation and sample size
    and is at least 0.95; and when neither series is flat on any stretch
    compared, the magnitude of the correlation is at most 1. *)
Theorem analyzeCorrelation_guards (marketAId marketBId : string) (pricesA pricesB : list R) :
  ((length pricesA < 10)%nat \/ (length pricesB < 10)%nat ->
   analyzeCorrelation calculateConfidence marketAId marketBId pricesA pricesB = None)
  /\ match analyzeCorrelation calculateConfidence marketAId marketBId pricesA pricesB with
     | None => True
     | Some d =>
         cd_marketId d = marketBId
         /\ (0.3 <= Rabs (cd_correlation d))%R
         /\ (cd_direction d = positive <-> (0 < cd_correlation d)%R)
         /\ (cd_direction d = negative <-> (cd_correlation d < 0)%R)
         /\ (0 <= cd_lagDays d <= 7)%Z
         /\ cd_sampleSize d = Nat.min (length pricesA) (length pricesB)
         /\ (10 <= cd_sampleSize d)%nat
         /\ ((Rabs (cd_correlation d) < 1)%R ->
             cd_confidence d = calculateConfidence (cd_correlation d) (cd_sampleSize d)
             /\ (0.95 <= cd_confidence d)%R)
         /\ (Moving (take (cd_sampleSize d) pricesA) (take (cd_sampleSize d) pricesB) 7 ->
             (Rabs (cd_correlation d) <= 1)%R)
     end.
Proof.
  unfold analyzeCorrelation. split.
  - intros [H|H].
    + by destruct (Nat.ltb_spec (length pricesA) 10); [|lia].
    + destruct (Nat.ltb_spec (length pricesB) 10); [|lia]. by rewrite orb_true_r.
  - destruct (Nat.ltb_spec (length pricesA) 10) as [|HA]; [done|].
    destruct (Nat.ltb_spec (length pricesB) 10) as [|HB]; [done|]. cbn [orb].
    set (m := Nat.min _ _).
    pose proof (calculateLaggedCorrelation_range (take m pricesA) (take m pricesB) 7)
      as (Hrange & Hlag).
    set (best := calculateLaggedCorrelation _ _ _) in *.
    destruct (Rltb (Rabs (correlation best)) 0.3) eqn:E1; [done|].
    destruct (Rltb (calculateConfidence (correlation best) m) 0.95) eqn:E2; [done|].
    apply Rltb_false in E1, E2.
    cbn [cd_marketId cd_correlation cd_direction cd_confidence cd_lagDays cd_sampleSize].
    assert (correlation best <> 0)%R as Hnz.
    { intros H0. rewrite H0, Rabs_R0 in E1. lra. }
    assert (forall c, - 1 <= c <= 1 -> Rabs c <= 1)%R as Habs
      by (intros c Hc; unfold Rabs; destruct Rcase_abs; lra).
    split; [done|]. split; [done|].
    split; [|split; [|split; [lia|split; [done|split; [subst m; lia|split]]]]].
    + destruct (Rltb 0 (correlation best)) eqn:S.
      * apply Rltb_true in S. by split.
      * apply Rltb_false in S. split; [done|]. intros. lra.
    + destruct (Rltb 0 (correlation best)) eqn:S.
      * apply Rltb_true in S. split; [done|]. intros. lra.
      * apply Rltb_false in S. split; [|done]. intros _. lra.
    + by intros _.
    + intros _. by apply Habs.
Qed.

End Analysis.

End PearsonFacts.

(** ** What the propagator computes *)

Module PropagationRuleFacts.
Import Js JsFacts ListFacts Types Propagation EngineSpec Vocabulary PropagatorFacts Examples.

Lemma updateNode_frame edges state n :
  market (updateNode edges state n) = market n
  /\ layer (updateNode edges state n) = layer n.
Proof.
  destruct (updateNode_cases edges state n) as [->|(_ & ? & ? & _)]; done.
Qed.

(** The update of a node reads the state only through the source nodes of
    its incoming edges. *)
Lemma updateNode_ext edges state1 state2 n :
  (forall e, e ∈ incomingTo edges n ->
     find (fun x => String.eqb (id (market x)) (sourceMarketId e)) state1
     = find (fun x => String.eqb (id (market x)) (sourceMarketId e)) state2) ->
  updateNode edges state1 n = updateNode edges state2 n.
Proof.
  intros H. unfold updateNode. fold (incomingTo edges n).
  assert (forall acc, fold_left (addInfluence state1) (incomingTo edges n) acc
                      = fold_left (addInfluence state2) (incomingTo edges n) acc) as ->.
  { revert H. generalize (incomingTo edges n). intros links.
    induction links as [|e links IH]; intros H acc; cbn [fold_left]; [done|].
    rewrite IH by (intros e' He'; apply H; by constructor).
    f_equal. unfold addInfluence. destruct acc as [ti tw].
    by rewrite (H e) by constructor. }
  done.
Qed.

(** Replacing a node by one of the same market does not change which node
    is found for another market. *)
Lemma find_insert_other (state : list SimulationNode) j a a' i :
  state !! j = Some a -> market a' = market a -> nodeId a <> i ->
  find (fun x => String.eqb (id (market x)) i) (<[ j := a' ]> state)
  = find (fun x => String.eqb (id (market x)) i) state.
Proof.
  intros Hj Hm Hne. revert j Hj.
  induction state as [|x state IH]; intros [|j] Hj; cbn in Hj; try done.
  - injection Hj as ->. cbn [insert list_insert find]. rewrite Hm.
    by destruct (String.eqb_spec (id (market a)) i).
  - cbn [insert list_insert find]. destruct (String.eqb _ _); [done|]. by apply IH.
Qed.

Lemma settled_spec l j k ly :
  settled l j k ly = true <-> (1 <= ly /\ (ly < l \/ (ly = l /\ k < j)))%nat.
Proof.
  unfold settled.
  rewrite andb_true_iff, orb_true_iff, andb_true_iff.
  rewrite Nat.leb_le, !Nat.ltb_lt, Nat.eqb_eq. tauto.
Qed.

Lemma settled_eq l j k ly l' j' :
  ((1 <= ly /\ (ly < l \/ (ly = l /\ k < j)))%nat
   <-> (1 <= ly /\ (ly < l' \/ (ly = l' /\ k < j')))%nat) ->
  settled l j k ly = settled l' j' k ly.
Proof.
  intros H. rewrite <- !settled_spec in H.
  destruct (settled l j k ly), (settled l' j' k ly); try done.
  - symmetry. by apply H.
  - by apply H.
Qed.

Lemma incomingTo_edge edges n e :
  e ∈ incomingTo edges n -> e ∈ edges /\ targetMarketId e = nodeId n.
Proof.
  unfold incomingTo. intros He. apply list_elem_of_filter in He as [Ht He].
  split; [done|]. by apply String.eqb_eq.
Qed.

(** One visit moves the propagator from one settled state to the next. *)
Lemma visit_Settled edges original l j state :
  Climbing original edges -> (1 <= l)%nat ->
  Settled edges original l j state ->
  Settled edges original l (S j) (visit edges l state j).
Proof.
  intros HC Hl [Hlen HS]. unfold visit.
  destruct (state !! j) as [a|] eqn:Hj.
  2:{ apply lookup_ge_None in Hj. split; [done|]. intros k n Hk.
      rewrite (HS k n Hk). f_equal.
      pose proof (lookup_lt_Some _ _ _ Hk).
      rewrite (settled_eq l (S j) k (layer n) l j); [done|]. lia. }
  destruct (lookup_lt_is_Some_2 original j) as [n Hn];
    [rewrite <- Hlen; by eapply lookup_lt_Some|].
  pose proof (HS j n Hn) as Ha. rewrite Hj in Ha. injection Ha as Ha.
  assert (layer a = layer n) as Hla.
  { rewrite Ha. destruct (settled _ _ _ _); [apply updateNode_frame|done]. }
  destruct (Nat.eqb_spec (layer a) l) as [El|NEl].
  - assert (settled l j j (layer n) = false) as Hns.
    { destruct (settled l j j (layer n)) eqn:E; [|done].
      apply settled_spec in E. lia. }
    rewrite Hns in Ha. subst a.
    assert (n ∈ original) as Hin by (by eapply list_elem_of_lookup_2).
    assert (forall m, m ∈ original -> (layer m <= layer n)%nat ->
              updateNode edges (<[ j := updateNode edges state n ]> state) m
              = updateNode edges state m) as Hext.
    { intros m Hm Hle. apply updateNode_ext. intros e He.
      apply incomingTo_edge in He as [He Ht].
      apply (find_insert_other state j n); [done|apply updateNode_frame|].
      intros Hs. specialize (HC e n m He Hin Hm Hs (eq_sym Ht)). lia. }
    split; [by rewrite length_insert|]. intros k m Hk.
    destruct (decide (k = j)) as [->|Hkj].
    + rewrite Hn in Hk. injection Hk as <-.
      rewrite list_lookup_insert_eq by (by eapply lookup_lt_Some).
      assert (settled l (S j) j (layer n) = true) as ->
        by (apply settled_spec; lia).
      by rewrite Hext.
    + rewrite list_lookup_insert_ne by done. rewrite (HS k m Hk).
      rewrite (settled_eq l (S j) k (layer m) l j) by lia.
      destruct (settled l j k (layer m)) eqn:E; [|done].
      apply settled_spec in E.
      rewrite Hext; [done|by eapply list_elem_of_lookup_2|lia].
  - split; [done|]. intros k m Hk. rewrite (HS k m Hk). f_equal.
    rewrite (settled_eq l (S j) k (layer m) l j); [done|].
    destruct (decide (k = j)) as [->|]; [|lia].
    rewrite Hn in Hk. injection Hk as <-. lia.
Qed.

Lemma visits_Settled edges original l cnt : forall j state,
  Climbing original edges -> (1 <= l)%nat ->
  Settled edges original l j state ->
  Settled edges original l (j + cnt) (fold_left (visit edges l) (seq j cnt) state).
Proof.
  induction cnt as [|cnt IH]; intros j state HC Hl HS; cbn [seq fold_left].
  - by rewrite Nat.add_0_r.
  - replace (j + S cnt)%nat with (S j + cnt)%nat by lia.
    apply IH; [done..|]. by apply visit_Settled.
Qed.

Lemma processLayer_Settled edges original l state :
  Climbing original edges -> (1 <= l)%nat ->
  Settled edges original l 0 state ->
  Settled edges original (S l) 0 (processLayer edges state l).
Proof.
  intros HC Hl HS. unfold processLayer.
  pose proof (visits_Settled edges original l (length state) 0 state HC Hl HS) as [Hlen H].
  split; [done|]. intros k n Hk. rewrite (H k n Hk). f_equal.
  pose proof (lookup_lt_Some _ _ _ Hk) as Hlt. destruct HS as [Hlen' _].
  rewrite (settled_eq l (0 + length state) k (layer n) (S l) 0); [done|]. lia.
Qed.

Lemma layers_Settled edges original cnt : forall l state,
  Climbing original edges -> (1 <= l)%nat ->
  Settled edges original l 0 state ->
  Settled edges original (l + cnt) 0 (fold_left (processLayer edges) (seq l cnt) state).
Proof.
  induction cnt as [|cnt IH]; intros l state HC Hl HS; cbn [seq fold_left].
  - by rewrite Nat.add_0_r.
  - replace (l + S cnt)%nat with (S l + cnt)%nat by lia.
    apply IH; [done|lia|]. by apply processLayer_Settled.
Qed.

Lemma max_layer_bound (l : list SimulationNode) n :
  n ∈ l -> (layer n <= fold_right Nat.max 0%nat (map layer l))%nat.
Proof.
  induction l as [|x l IH]; intros Hn; [by apply elem_of_nil in Hn|].
  cbn [map fold_right]. apply elem_of_cons in Hn as [->|Hn]; [lia|].
  specialize (IH Hn). lia.
Qed.

(** The rule for a node with a single incoming link: the confidence weight
    cancels. *)
Lemma updateNode_single edges state n e s :
  incomingTo edges n = [e] ->
  find (fun x => String.eqb (id (market x)) (sourceMarketId e)) state = Some s ->
  predictedProbability (updateNode edges state n)
  = clamp (currentProbability n
           + (predictedProbability s - currentProbability s) * strength e
             * (if String.eqb (direction e) "increase" then 1 else -1))%R.
Proof.
  intros Hin Hs. unfold updateNode. fold (incomingTo edges n). rewrite Hin.
  cbn [fold_left]. unfold addInfluence. rewrite Hs.
  set (w := match confidenceLevel e with HIGH => _ | MEDIUM => _ | LOW => _ end).
  assert (0 < w)%R as Hw by (subst w; destruct (confidenceLevel e); lra).
  rewrite (proj2 (Rltb_true 0 (0 + w))) by lra.
  cbn [predictedProbability]. f_equal. field. lra.
Qed.

(** The returned nodes satisfy the update rule position by position. *)
Lemma propagateProbabilities_settled (nodes : list SimulationNode)
    (edges : list CausalLink) :
  Climbing nodes edges ->
  Forall2 (fun n' n => n' = if (1 <=? layer n)%nat
                            then updateNode edges (propagateProbabilities nodes edges) n
                            else n)
          (propagateProbabilities nodes edges) (sort byLayer nodes).
Proof.
  intros HC. set (out := propagateProbabilities nodes edges).
  assert (Climbing (sort byLayer nodes) edges) as HC'.
  { intros e s n He Hs Hn. rewrite elem_of_sort in Hs. rewrite elem_of_sort in Hn.
    by apply HC. }
  assert (Settled edges (sort byLayer nodes) 1 0 (sort byLayer nodes)) as H0.
  { split; [done|]. intros k n Hk. rewrite Hk. f_equal.
    destruct (settled 1 0 k (layer n)) eqn:E; [|done].
    apply settled_spec in E. lia. }
  pose proof (layers_Settled edges _ (fold_right Nat.max 0%nat
                (map layer (sort byLayer nodes))) 1 _ HC' (le_n 1) H0) as [Hlen HS].
  fold (propagateProbabilities nodes edges) in Hlen, HS. fold out in Hlen, HS.
  apply Forall2_same_length_lookup_2; [done|]. intros k n' n Hn' Hn.
  rewrite (HS k n Hn) in Hn'. injection Hn' as <-.
  pose proof (max_layer_bound _ n (list_elem_of_lookup_2 _ _ _ Hn)) as Hb.
  destruct (Nat.leb_spec 1 (layer n)) as [H1|H1].
  - by rewrite (proj2 (settled_spec _ _ _ _)) by lia.
  - destruct (settled _ _ _ _) eqn:E; [|done]. apply settled_spec in E. lia.
Qed.

(** A returned node keeps the market, the layer and the current probability
    of the node it stands for. *)
Lemma settled_frame edges out n' n :
  n' = (if (1 <=? layer n)%nat then updateNode edges out n else n) ->
  market n' = market n /\ layer n' = layer n
  /\ currentProbability n' = currentProbability n.
Proof.
  intros ->. destruct (1 <=? layer n)%nat; [|done].
  destruct (updateNode_cases edges out n) as [->|(_ & ? & ? & ? & _)]; done.
Qed.

(** X24: when every edge leads from a lower layer to a higher one, as in
    the graphs the builder returns, and no node has a current probability
    of 0, what [propagateProbabilities] returns satisfies the update rule
    everywhere: a node of layer 0 is as given and every other node is the
    update of the given node computed on the returned nodes themselves.  In
    particular a node with a single incoming link is predicted at its
    current probability plus the shift of the returned source node times
    the strength of the link, signed by its direction and clamped to
    [0.01, 0.99], whatever the confidence level. *)
Theorem propagateProbabilities_rule (nodes : list SimulationNode)
    (edges : list CausalLink) :
  Climbing nodes edges ->
  Forall (fun n => currentProbability n <> 0%R) nodes ->
  let out := propagateProbabilities nodes edges in
  Forall2 (fun n' n => n' = if (1 <=? layer n)%nat then updateNode edges out n else n)
          out (sort byLayer nodes)
  /\ (forall n' e s,
        n' ∈ out -> layer n' <> 0%nat -> incomingTo edges n' = [e] ->
        find (fun x => String.eqb (id (market x)) (sourceMarketId e)) out = Some s ->
        predictedProbability n'
        = clamp (currentProbability n'
                 + (predictedProbability s - currentProbability s) * strength e
                   * (if String.eqb (direction e) "increase" then 1 else -1))%R).
Proof.
  intros HC _ out.
  pose proof (propagateProbabilities_settled nodes edges HC) as HF. fold out in HF.
  split; [done|].
  intros n' e s Hn' Hl Hin Hs.
  apply list_elem_of_lookup in Hn' as [k Hk].
  destruct (Forall2_lookup_l _ _ _ _ _ HF Hk) as (n & Hn & Heq).
  destruct (settled_frame _ _ _ _ Heq) as (Hm & Hly & Hcur).
  rewrite Hcur. rewrite Heq.
  destruct (Nat.leb_spec 1 (layer n)); [|lia].
  apply updateNode_single; [|done].
  unfold incomingTo in *. by rewrite <- Hm.
Qed.

Lemma propagateProbabilities_rule_witness :
  let out := propagateProbabilities exGraphNodes exGraphEdges in
  Climbing exGraphNodes exGraphEdges
  /\ Forall (fun n => currentProbability n <> 0%R) exGraphNodes
  /\ Forall2 (fun n' n => n' = if (1 <=? layer n)%nat
                               then updateNode exGraphEdges out n else n)
             out (sort byLayer exGraphNodes).
Proof.
  intros out.
  assert (Climbing exGraphNodes exGraphEdges) as HC.
  { intros e s n He Hs Hn Hsid Hnid.
    apply list_elem_of_singleton in He as ->.
    unfold exGraphNodes in Hs, Hn.
    apply elem_of_cons in Hs as [->|Hs]; [discriminate Hsid|].
    apply list_elem_of_singleton in Hs as ->.
    apply elem_of_cons in Hn as [->|Hn]; [cbn; lia|].
    apply list_elem_of_singleton in Hn as ->. discriminate Hnid. }
  assert (Forall (fun n => currentProbability n <> 0%R) exGraphNodes) as HN.
  { unfold exGraphNodes. repeat constructor; cbn [exPlainNode currentProbability]; lra. }
  split; [exact HC|]. split; [exact HN|].
  exact (proj1 (propagateProbabilities_rule exGraphNodes exGraphEdges HC HN)).
Defined.

End PropagationRuleFacts.

(** ** Propagation over a built scenario *)

Module ScenarioPropagationFacts.
Import Js JsFacts ListFacts PriceHistory Types Engine Propagation EngineSpec Vocabulary
       EngineFacts BuilderMoreFacts ScenarioFacts PropagatorFacts PropagationRuleFacts.

Lemma nodeId_inj (l : list SimulationNode) a b :
  NoDup (map nodeId l) -> a ∈ l -> b ∈ l -> nodeId a = nodeId b -> a = b.
Proof.
  intros ND Ha Hb E.
  apply list_elem_of_lookup in Ha as [i Hi]. apply list_elem_of_lookup in Hb as [j Hj].
  pose proof (lookup_map nodeId _ _ _ Hi) as Hi'.
  pose proof (lookup_map nodeId _ _ _ Hj) as Hj'.
  rewrite E in Hi'.
  pose proof (NoDup_lookup _ _ _ _ ND Hi' Hj') as ->. congruence.
Qed.

Lemma find_is_Some (l : list SimulationNode) i :
  i ∈ map nodeId l ->
  exists s, find (fun x => String.eqb (id (market x)) i) l = Some s
            /\ s ∈ l /\ nodeId s = i.
Proof.
  induction l as [|x l IH]; intros Hi; [by apply elem_of_nil in Hi|].
  cbn [find]. destruct (String.eqb_spec (id (market x)) i) as [E|NE].
  - exists x. split; [done|]. split; [constructor|done].
  - cbn [map] in Hi. apply elem_of_cons in Hi as [Hi|Hi]; [by symmetry in Hi|].
    destruct (IH Hi) as (s & Hs & Hin & Hid). exists s. split; [done|].
    split; [by constructor|done].
Qed.

Lemma incomingTo_entering edges n : incomingTo edges n = entering (nodeId n) edges.
Proof.
  unfold incomingTo, entering, nodeId.
  induction edges as [|e edges IH]; [done|].
  rewrite !filter_cons, IH.
  destruct (String.eqb_spec (targetMarketId e) (id (market n))) as [E|NE].
  - rewrite decide_True by done. by rewrite decide_True by done.
  - rewrite decide_False by done. by rewrite decide_False by done.
Qed.

Section Graph.

Variable JSON_parse : string -> option json.
Variable getPriceHistory : nat -> json -> string -> Z -> list PricePoint.
Variable findInterestingCausalMarkets :
  nat -> PolymarketMarket -> string -> list PolymarketMarket -> list Candidate.

Local Abbreviation build :=
  (createSimulationScenario JSON_parse getPriceHistory findInterestingCausalMarkets).

(** X25: the propagator on a built scenario.  Every edge of the scenario
    leads to the next layer, so the update rule holds of what
    [propagateProbabilities] returns; the trigger comes back unchanged, and
    every other node has exactly one incoming link, from a returned node one
    layer above, and is predicted at its current probability plus that
    node's shift times the strength of the link, signed by its direction and
    clamped to [0.01, 0.99]. *)
Theorem scenario_propagation name description tm outcome available params :
  exists scenario,
    build name description tm outcome available params = Some scenario
    /\ Climbing (nodes scenario) (edges scenario)
    /\ let out := propagateProbabilities (nodes scenario) (edges scenario) in
       length out = length (nodes scenario)
       /\ Forall (fun n' =>
            if (layer n' =? 0)%nat then n' ∈ nodes scenario /\ nodeId n' = id tm
            else exists e s,
                   incomingTo (edges scenario) n' = [e]
                   /\ s ∈ out /\ nodeId s = sourceMarketId e
                   /\ layer n' = S (layer s)
                   /\ predictedProbability n'
                      = clamp (currentProbability n'
                               + (predictedProbability s - currentProbability s)
                                 * strength e
                                 * (if String.eqb (direction e) "increase"
                                    then 1 else -1))%R)
            out.
Proof.
  destruct (built_scenario JSON_parse getPriceHistory findInterestingCausalMarkets
              name description tm outcome available params) as (st & HI & _ & _ & ->).
  eexists. split; [done|]. cbn [nodes edges].
  destruct (built_pairs _ _ _ _ _ HI)
    as (n0 & ns & E & Hid & Hl0 & _ & Hpos & ND & HT & HP & HL).
  assert (Climbing (st_nodes st) (st_edges st)) as HC.
  { intros e s n He Hs Hn Hsid Hnid.
    destruct (built_edge_endpoints _ _ _ _ _ HI e He) as (s' & n' & Hs' & Hn' & Es & En & Hly).
    rewrite E in *.
    rewrite (nodeId_inj _ s s' ND Hs Hs') by congruence.
    rewrite (nodeId_inj _ n n' ND Hn Hn') by congruence. lia. }
  split; [done|].
  set (out := propagateProbabilities (st_nodes st) (st_edges st)).
  pose proof (propagateProbabilities_settled _ _ HC) as HF. fold out in HF.
  pose proof (Forall2_length _ _ _ HF) as Hlen. rewrite length_sort in Hlen.
  split; [done|].
  assert (forall x', x' ∈ out ->
            exists x, x ∈ st_nodes st
                      /\ x' = (if (1 <=? layer x)%nat
                               then updateNode (st_edges st) out x else x)
                      /\ market x' = market x /\ layer x' = layer x
                      /\ currentProbability x' = currentProbability x) as Hback.
  { intros x' Hx'. apply list_elem_of_lookup in Hx' as [k Hk].
    destruct (Forall2_lookup_l _ _ _ _ _ HF Hk) as (x & Hx & Heq).
    exists x. split; [apply (elem_of_sort byLayer), (list_elem_of_lookup_2 _ k), Hx|].
    split; [done|]. by eapply settled_frame. }
  assert (map nodeId out = map nodeId (sort byLayer (st_nodes st))) as Hids.
  { clear -HF. induction HF as [|x' x out' l Heq _ IH]; [done|].
    cbn [map]. rewrite IH. f_equal.
    unfold nodeId. by rewrite (proj1 (settled_frame _ _ _ _ Heq)). }
  apply Forall_forall. intros n' Hn'.
  destruct (Hback n' Hn') as (n & Hin & Heq & Hm & Hly & Hcur).
  destruct (Nat.eqb_spec (layer n') 0) as [H0|H0].
  - rewrite Hly in H0. rewrite H0 in Heq. cbn in Heq. subst n'.
    split; [done|]. rewrite E in Hin. apply elem_of_cons in Hin as [->|Hin]; [done|].
    rewrite Forall_forall in Hpos. specialize (Hpos _ Hin). lia.
  - (* a node below the trigger is paired with its one edge *)
    rewrite E in Hin. apply elem_of_cons in Hin as [->|Hin]; [lia|].
    apply list_elem_of_lookup in Hin as [i Hi].
    destruct (Forall2_lookup_l _ _ _ _ _ HL Hi) as (e & He & Ht & l & Hsg & Hl).
    assert (entering (nodeId n) (st_edges st) = [e]) as Hent.
    { rewrite <- Ht. apply (entering_unique _ i); [|done].
      rewrite HT. cbn [map] in ND. by apply NoDup_cons in ND as [_ ?]. }
    assert (incomingTo (st_edges st) n' = [e]) as Hinc.
    { rewrite incomingTo_entering. unfold nodeId. by rewrite Hm. }
    destruct (find_is_Some out (sourceMarketId e)) as (s & Hfind & Hs & Hsid).
    { rewrite Hids. apply elem_of_map.
      apply signature_nodeId in Hsg. apply elem_of_map in Hsg as (s0 & Hs0 & Hin0).
      exists s0. split; [done|]. apply elem_of_sort. by rewrite E. }
    exists e, s. split; [done|]. split; [done|]. split; [done|]. split.
    + destruct (Hback s Hs) as (s0 & Hs0 & _ & Hms & Hlys & _).
      rewrite Hly, Hl, Hlys. f_equal.
      apply (signature_functional (n0 :: ns) (sourceMarketId e)); [done|done|].
      apply elem_of_signature. exists s0. rewrite <- E. split; [done|].
      split; [|done]. rewrite <- Hsid. unfold nodeId. by rewrite <- Hms.
    + rewrite Hcur, Heq. destruct (Nat.leb_spec 1 (layer n)); [|lia].
      apply updateNode_single; [|done].
      rewrite <- Hinc. unfold incomingTo. by rewrite Hm.
Qed.

End Graph.

End ScenarioPropagationFacts.
